(** * SMTP adapter of synet/email: a shallow embedding of [SMTPEmail]

    The development follows [src/smtp.ts] (class [SMTPEmail]):
    [validateEmail], [checkConnection], [send], [createConnection],
    [upgradeToTLS], [sendCommand], [authenticate], [buildEmailContent]
    and [generateMessageId].

    Conventions.
    - A JavaScript string is a [string]; every [ascii] stands for one code
      unit below 256.  White space is the part of the ECMAScript set that
      lies in that range (TAB, LF, VT, FF, CR, SP, NBSP).
    - Asynchronous code is written in a monad [M] over the I/O history of
      the call.  Everything the outside world decides (whether the
      connection is established, which bytes arrive before a timer fires,
      the clock, the random generator) is read from a [World], as a
      function of the history so far.
    - A rejected promise or a [throw] is the outcome [Threw]. *)

From Stdlib Require Import Strings.String Strings.Ascii Lists.List.
From Stdlib Require Import ZArith NArith Bool Lia DecimalString.
Import ListNotations.
Open Scope string_scope.

(* ================================================================= *)
(** ** JavaScript strings *)

Definition CRLF : string := String "013" (String "010" "").

(** [StrWhiteSpaceChar] / the class [\s], for code units below 256. *)
Definition is_space (c : ascii) : bool :=
  let n := N_of_ascii c in
  ((9 <=? n) && (n <=? 13) || (n =? 32) || (n =? 160))%N.

Definition chars (s : string) : list ascii := list_ascii_of_string s.
Definition str (l : list ascii) : string := string_of_list_ascii l.

(** [s.substring(i, j)]: the arguments are swapped when [i > j] and the
    result is cut at the end of [s]. *)
Definition js_substring (i j : nat) (s : string) : string :=
  substring (Nat.min i j) (Nat.max i j - Nat.min i j) s.

(** [s.endsWith(suffix)]. *)
Definition endsWith (s suffix : string) : bool :=
  (String.length suffix <=? String.length s)%nat &&
  String.eqb
    (substring (String.length s - String.length suffix)
               (String.length suffix) s)
    suffix.

Fixpoint drop_spaces (l : list ascii) : list ascii :=
  match l with
  | c :: l' => if is_space c then drop_spaces l' else l
  | [] => []
  end.

(** [s.trim()]. *)
Definition trim (s : string) : string :=
  str (rev (drop_spaces (rev (drop_spaces (chars s))))).

(** [array.join(sep)] *)
Definition join (sep : string) (l : list string) : string :=
  String.concat sep l.

(** Template rendering of a number. *)
Definition render_Z (z : Z) : string := NilZero.string_of_int (Z.to_int z).
Definition render_N (n : N) : string := NilZero.string_of_uint (N.to_uint n).

(* ----------------------------------------------------------------- *)
(** *** [parseInt(s)] with no radix argument

    [None] is [NaN].  The value is exact, which agrees with JavaScript as
    long as it stays below 2^53; [sendCommand] only passes three
    characters. *)

Definition digit_value (c : ascii) : option N :=
  let n := N_of_ascii c in
  if ((48 <=? n) && (n <=? 57))%N then Some (n - 48)%N
  else if ((97 <=? n) && (n <=? 122))%N then Some (n - 87)%N
  else if ((65 <=? n) && (n <=? 90))%N then Some (n - 55)%N
  else None.

Definition digit_in (radix : N) (c : ascii) : option N :=
  match digit_value c with
  | Some d => if (d <? radix)%N then Some d else None
  | None => None
  end.

(** The longest prefix of digits of the radix, read from the left;
    [acc] is [None] until a first digit has been seen. *)
Fixpoint parse_digits (radix : N) (acc : option N) (l : list ascii)
  : option N :=
  match l with
  | [] => acc
  | c :: l' =>
      match digit_in radix c with
      | Some d =>
          parse_digits radix
            (Some (match acc with Some a => a * radix + d | None => d end)%N)
            l'
      | None => acc
      end
  end.

(** An optional sign: [(negative, rest)]. *)
Definition strip_sign (l : list ascii) : bool * list ascii :=
  match l with
  | c :: l' =>
      if Ascii.eqb c "-" then (true, l')
      else if Ascii.eqb c "+" then (false, l')
      else (false, l)
  | [] => (false, [])
  end.

(** An optional "0x" or "0X", which selects radix 16: [(radix, rest)]. *)
Definition strip_hex_prefix (l : list ascii) : N * list ascii :=
  match l with
  | c1 :: c2 :: l' =>
      if Ascii.eqb c1 "0" && (Ascii.eqb c2 "x" || Ascii.eqb c2 "X")
      then (16%N, l')
      else (10%N, l)
  | _ => (10%N, l)
  end.

Definition parseInt (s : string) : option Z :=
  let (negative, l1) := strip_sign (drop_spaces (chars s)) in
  let (radix, l2) := strip_hex_prefix l1 in
  match parse_digits radix None l2 with
  | Some n => Some (if negative then (- Z.of_N n)%Z else Z.of_N n)
  | None => None
  end.

(** [x >= 400] on a number that may be [NaN]. *)
Definition ge_400 (code : option Z) : bool :=
  match code with
  | Some z => (400 <=? z)%Z
  | None => false
  end.

(** [`${code}`] *)
Definition render_number (code : option Z) : string :=
  match code with
  | Some z => render_Z z
  | None => "NaN"
  end.

(* ----------------------------------------------------------------- *)
(** *** [Buffer.from(s).toString('base64')] *)

(** UTF-8 bytes of a string whose code units are below 256. *)
Definition utf8_of_char (c : ascii) : list N :=
  let n := N_of_ascii c in
  if (n <? 128)%N then [n] else [192 + n / 64; 128 + n mod 64]%N.

Definition utf8_encode (s : string) : list N :=
  flat_map utf8_of_char (chars s).

Definition base64_alphabet : list ascii :=
  chars "ABCDEFGHIJKLMNOPQRSTUVWXYZabcdefghijklmnopqrstuvwxyz0123456789+/".

Definition sextet (n : N) : ascii :=
  nth (N.to_nat n) base64_alphabet "="%char.

Fixpoint base64_bytes (bs : list N) : list ascii :=
  match bs with
  | [] => []
  | [a] =>
      [sextet (a / 4); sextet (a mod 4 * 16); "="%char; "="%char]%N
  | [a; b] =>
      [sextet (a / 4); sextet (a mod 4 * 16 + b / 16);
       sextet (b mod 16 * 4); "="%char]%N
  | a :: b :: c :: rest =>
      ([sextet (a / 4); sextet (a mod 4 * 16 + b / 16);
        sextet (b mod 16 * 4 + c / 64); sextet (c mod 64)]%N)
        ++ base64_bytes rest
  end.

Definition base64 (s : string) : string := str (base64_bytes (utf8_encode s)).

(* ================================================================= *)
(** ** Regular expressions

    The fragment of ECMAScript patterns that the adapter uses: character
    classes, concatenation and the quantifiers [+] and [*], anchored at
    both ends by [^] and [$] (no flags, so [$] is the end of input).
    [regex_test] decides the match by derivatives. *)

Inductive regex : Type :=
| Void : regex                                (* matches nothing *)
| Eps : regex                                 (* the empty string *)
| Class (p : ascii -> bool) : regex           (* one character of a class *)
| Seq (r1 r2 : regex) : regex
| Alt (r1 r2 : regex) : regex
| Star (r : regex) : regex.

Definition Plus (r : regex) : regex := Seq r (Star r).

Fixpoint nullable (r : regex) : bool :=
  match r with
  | Void => false
  | Eps => true
  | Class _ => false
  | Seq r1 r2 => nullable r1 && nullable r2
  | Alt r1 r2 => nullable r1 || nullable r2
  | Star _ => true
  end.

Fixpoint deriv (c : ascii) (r : regex) : regex :=
  match r with
  | Void => Void
  | Eps => Void
  | Class p => if p c then Eps else Void
  | Seq r1 r2 =>
      if nullable r1
      then Alt (Seq (deriv c r1) r2) (deriv c r2)
      else Seq (deriv c r1) r2
  | Alt r1 r2 => Alt (deriv c r1) (deriv c r2)
  | Star r1 => Seq (deriv c r1) (Star r1)
  end.

Fixpoint regex_match (r : regex) (l : list ascii) : bool :=
  match l with
  | [] => nullable r
  | c :: l' => regex_match (deriv c r) l'
  end.

(** [/^r$/.test(s)] *)
Definition regex_test (r : regex) (s : string) : bool :=
  regex_match r (chars s).

(** The words of a pattern. *)
Inductive Matches : regex -> list ascii -> Prop :=
| MEps : Matches Eps []
| MClass p c : p c = true -> Matches (Class p) [c]
| MSeq r1 r2 l1 l2 :
    Matches r1 l1 -> Matches r2 l2 -> Matches (Seq r1 r2) (l1 ++ l2)
| MAltL r1 r2 l : Matches r1 l -> Matches (Alt r1 r2) l
| MAltR r1 r2 l : Matches r2 l -> Matches (Alt r1 r2) l
| MStarNil r : Matches (Star r) []
| MStarApp r l1 l2 :
    Matches r l1 -> Matches (Star r) l2 -> Matches (Star r) (l1 ++ l2).

(* ================================================================= *)
(** ** [validateEmail] *)

Definition is_char (c : ascii) : ascii -> bool := Ascii.eqb c.

(** The class [[^\s@]]. *)
Definition not_space_at (c : ascii) : bool :=
  negb (is_space c || Ascii.eqb c "@"%char).

(** [/^[^\s@]+@[^\s@]+\.[^\s@]+$/] *)
Definition emailRegex : regex :=
  Seq (Plus (Class not_space_at))
    (Seq (Class (is_char "@"))
       (Seq (Plus (Class not_space_at))
          (Seq (Class (is_char "."))
             (Plus (Class not_space_at))))).

Definition validateEmail (email : string) : bool :=
  regex_test emailRegex email.

(* ================================================================= *)
(** ** Data model ([src/types.ts], [SMTPConfig]) *)

Record Auth : Type := { user : string; pass : string }.

(** A property of an object literal: left out, or written down with a
    value that may be [undefined]. *)
Inductive Property (A : Type) : Type :=
| LeftOut
| Written (v : option A).
Arguments LeftOut {A}.
Arguments Written {A} v.

(** [secure?], [auth?] and [timeout?] are optional: [None] is
    [undefined].  [secure] and [auth] are only tested for truth, so a
    property that is left out and one that is [undefined] are the same
    for them; for [timeout] the constructor tells them apart. *)
Record SMTPConfig : Type := {
  host : string;
  port : Z;
  secure : option bool;
  auth : option Auth;
  timeout : Property Z
}.

(** [string | string[]] *)
Inductive Addresses : Type :=
| One (address : string)
| Many (addresses : list string).

(** [EmailMessage]; [attachments] is never read by the adapter and is
    left out. *)
Record EmailMessage : Type := {
  to : Addresses;
  from : string;
  subject : string;
  text : option string;
  html : option string;
  cc : option Addresses;
  bcc : option Addresses;
  replyTo : option string
}.

Record EmailResult : Type := {
  success : bool;
  messageId : option string;
  error : option string
}.

(** The [timeout] of [{ timeout: 30000, ...config }]: the spread copies
    every property that [config] has, also one whose value is
    [undefined]. *)
Definition spread_timeout (p : Property Z) : option Z :=
  match p with
  | LeftOut => Some 30000%Z
  | Written v => v
  end.

(** The constructor, [{ timeout: 30000, ...config }]: a configuration
    without the property [timeout] gets 30000, one that has it keeps its
    value, [undefined] too.  The timers themselves are part of the
    [World] below. *)
Definition SMTPEmail (config : SMTPConfig) : SMTPConfig :=
  {| host := host config; port := port config; secure := secure config;
     auth := auth config;
     timeout := Written (spread_timeout (timeout config)) |}.

(** Truthiness, as tested by [if (x)] and [!x]: an optional string
    counts when it is defined and not empty, an array always counts.
    [present o] is the value that the guarded block then reads. *)
Definition present (o : option string) : option string :=
  match o with
  | Some s => if String.eqb s "" then None else Some s
  | None => None
  end.

Definition present_addresses (o : option Addresses) : option Addresses :=
  match o with
  | Some (One s) => if String.eqb s "" then None else Some (One s)
  | Some (Many l) => Some (Many l)
  | None => None
  end.

Definition truthy_bool (o : option bool) : bool :=
  match o with
  | Some b => b
  | None => false
  end.

(** [Array.isArray(x) ? x : [x]] *)
Definition as_array (a : Addresses) : list string :=
  match a with
  | One s => [s]
  | Many l => l
  end.

(** [Array.isArray(x) ? x.join(', ') : x] *)
Definition joined (a : Addresses) : string :=
  match a with
  | One s => s
  | Many l => join ", " l
  end.

(* ================================================================= *)
(** ** Sockets, events and the outside world *)

(** The socket handles of one call: the one made by [createConnection]
    (plain TCP or TLS from the first byte) and the one [upgradeToTLS]
    makes by wrapping an existing handle. *)
Inductive Socket : Type :=
| TcpSocket
| TlsSocket
| TlsOver (plainSocket : Socket).

(** A value given to [reject] or [throw]. *)
Inductive Thrown : Type :=
| JsError (message : string)        (* [instanceof Error] *)
| NotAnError.

(** How a connection attempt or a TLS handshake ends: the
    ['connect'] / ['secureConnect'] event, the ['error'] event or the
    timer, whichever comes first. *)
Inductive ConnResult : Type :=
| Established
| Failed (e : Thrown)
| TimedOut.

Inductive Event : Type :=
| EvConnect (s : Socket) (r : ConnResult)
| EvUpgrade (plainSocket : Socket) (r : ConnResult)
| EvWrite (s : Socket) (data : string)
| EvResponse (s : Socket) (response : string)
| EvTimeout (s : Socket) (command : string)
| EvDestroy (s : Socket)
| EvConsole (line : string).

Abbreviation History := (list Event).

Record World : Type := {
  (** the end of the attempt made by [createConnection] *)
  net_connect : ConnResult;
  (** the end of the handshake started by [upgradeToTLS] *)
  net_upgrade : History -> ConnResult;
  (** the ['data'] events delivered to the listener of [sendCommand]
      before its timer fires *)
  net_data : History -> list string;
  (** [new Date().toUTCString()] *)
  clock_utc : History -> string;
  (** [Date.now()] *)
  clock_now : History -> N;
  (** [Math.random().toString(36).substring(2)] *)
  random_base36 : History -> string
}.

(* ================================================================= *)
(** ** The monad of asynchronous code *)

Inductive Outcome (A : Type) : Type :=
| Returned (a : A)
| Threw (e : Thrown).
Arguments Returned {A} a.
Arguments Threw {A} e.

Definition M (A : Type) : Type := History -> Outcome A * History.

Definition ret {A} (a : A) : M A := fun h => (Returned a, h).

Definition bind {A B} (m : M A) (f : A -> M B) : M B :=
  fun h =>
    match m h with
    | (Returned a, h') => f a h'
    | (Threw e, h') => (Threw e, h')
    end.

Definition throw {A} (e : Thrown) : M A := fun h => (Threw e, h).

Definition emit (ev : Event) : M unit :=
  fun h => (Returned tt, (h ++ [ev])%list).

(** The history so far, for the questions asked to the world. *)
Definition history : M History := fun h => (Returned h, h).

(** [try { body } catch (error) { handler }] *)
Definition try_catch {A} (body : M A) (handler : Thrown -> M A) : M A :=
  fun h =>
    match body h with
    | (Returned a, h') => (Returned a, h')
    | (Threw e, h') => handler e h'
    end.

Notation "x <- m ;; k" := (bind m (fun x => k))
  (at level 61, m at next level, right associativity).
Notation "m ;;; k" := (bind m (fun _ => k))
  (at level 61, right associativity).

(** [for (const x of xs) { await body(x) }] *)
Fixpoint for_of {A} (xs : list A) (body : A -> M unit) : M unit :=
  match xs with
  | [] => ret tt
  | x :: xs' => body x ;;; for_of xs' body
  end.

(* ================================================================= *)
(** ** The adapter *)

(** The listener [onData] of [sendCommand]: the chunks are accumulated
    until the accumulation ends with CRLF; [None] when the chunks run out
    first, which is when the timer fires. *)
Fixpoint onData (response : string) (chunks : list string) : option string :=
  match chunks with
  | [] => None
  | data :: rest =>
      let response := response ++ data in
      if endsWith response CRLF then Some response else onData response rest
  end.

(** [lines.push(x)] *)
Definition push (lines : list string) (x : string) : list string :=
  (lines ++ [x])%list.

Section Adapter.

Variable w : World.
Variable config : SMTPConfig.

Definition createConnection : M Socket :=
  let socket := if truthy_bool (secure config) then TlsSocket else TcpSocket in
  emit (EvConnect socket (net_connect w)) ;;;
  match net_connect w with
  | Established => ret socket
  | Failed e => throw e
  | TimedOut => throw (JsError "Connection timeout")
  end.

(** The handshake ends once, by [secureConnect], by [error] or by the
    timer, as the [World] says.  The listeners stay on the wrapped
    socket afterwards; an [error] that the socket raises later is not an
    event of the [World], so the line that the listener would print then
    is not part of a history. *)
Definition upgradeToTLS (plainSocket : Socket) : M Socket :=
  h <- history ;;
  let r := net_upgrade w h in
  emit (EvUpgrade plainSocket r) ;;;
  match r with
  | Established =>
      emit (EvConsole "TLS upgrade successful") ;;;
      ret (TlsOver plainSocket)
  | Failed e =>
      emit (EvConsole "TLS upgrade failed:") ;;;
      throw e
  | TimedOut => throw (JsError "TLS upgrade timeout")
  end.

Definition sendCommand (socket : Socket) (command : string) : M string :=
  emit (EvWrite socket (command ++ CRLF)) ;;;
  h <- history ;;
  match onData "" (net_data w h) with
  | Some response =>
      emit (EvResponse socket response) ;;;
      let code := parseInt (js_substring 0 3 response) in
      if ge_400 code
      then throw (JsError ("SMTP Error " ++ render_number code ++ ": "
                             ++ trim response))
      else ret (trim response)
  | None =>
      emit (EvTimeout socket command) ;;;
      throw (JsError ("Command timeout: " ++ command))
  end.

Definition authenticate (socket : Socket) : M unit :=
  match auth config with
  | None =>
      throw (JsError "Authentication requested but no auth config provided")
  | Some a =>
      sendCommand socket "AUTH LOGIN" ;;;
      let userB64 := base64 (user a) in
      sendCommand socket userB64 ;;;
      let passB64 := base64 (pass a) in
      sendCommand socket passB64 ;;;
      ret tt
  end.

Definition generateMessageId : M string :=
  h <- history ;;
  let timestamp := clock_now w h in
  let random := random_base36 w h in
  ret (render_N timestamp ++ "." ++ random ++ "@synet.email").

Definition toUTCString : M string :=
  h <- history ;;
  ret (clock_utc w h).

Definition buildEmailContent (message : EmailMessage) : M string :=
  let lines := [] in
  let lines := push lines ("From: " ++ from message) in
  let toEmails := joined (to message) in
  let lines := push lines ("To: " ++ toEmails) in
  let lines :=
    match present_addresses (cc message) with
    | Some c => let ccEmails := joined c in push lines ("Cc: " ++ ccEmails)
    | None => lines
    end in
  let lines :=
    match present (replyTo message) with
    | Some r => push lines ("Reply-To: " ++ r)
    | None => lines
    end in
  let lines := push lines ("Subject: " ++ subject message) in
  date <- toUTCString ;;
  let lines := push lines ("Date: " ++ date) in
  id <- generateMessageId ;;
  let lines := push lines ("Message-ID: <" ++ id ++ ">") in
  let lines :=
    match present (html message) with
    | Some _ =>
        push (push lines "MIME-Version: 1.0")
             "Content-Type: text/html; charset=utf-8"
    | None => push lines "Content-Type: text/plain; charset=utf-8"
    end in
  let lines := push lines "" in
  let lines :=
    match present (html message) with
    | Some body => push lines body
    | None =>
        match present (text message) with
        | Some body => push lines body
        | None => lines
        end
    end in
  ret (join CRLF lines).

(** [!this.config.secure && this.config.port !== 465] *)
Definition wants_starttls : bool :=
  negb (truthy_bool (secure config)) && negb (port config =? 465)%Z.

Definition checkConnection : M bool :=
  try_catch
    (socket <- createConnection ;;
     sendCommand socket "EHLO localhost" ;;;
     socket <-
       (if wants_starttls
        then
          sendCommand socket "STARTTLS" ;;;
          socket <- upgradeToTLS socket ;;
          sendCommand socket "EHLO localhost" ;;;
          ret socket
        else ret socket) ;;
     (match auth config with
      | Some _ => authenticate socket
      | None => ret tt
      end) ;;;
     sendCommand socket "QUIT" ;;;
     emit (EvDestroy socket) ;;;
     ret true)
    (fun error =>
       emit (EvConsole "SMTP Connection Error:") ;;;
       ret false).

Definition rcpt_to (email : string) : string := "RCPT TO:<" ++ email ++ ">".

Definition send (message : EmailMessage) : M EmailResult :=
  try_catch
    (let toEmails := as_array (to message) in
     match find (fun email => negb (validateEmail email)) toEmails with
     | Some email =>
         ret {| success := false; messageId := None;
                error := Some ("Invalid email address: " ++ email) |}
     | None =>
       if negb (validateEmail (from message))
       then
         ret {| success := false; messageId := None;
                error := Some ("Invalid from email address: "
                                 ++ from message) |}
       else
         socket <- createConnection ;;
         sendCommand socket "EHLO localhost" ;;;
         socket <-
           (if wants_starttls
            then
              sendCommand socket "STARTTLS" ;;;
              socket <- upgradeToTLS socket ;;
              sendCommand socket "EHLO localhost" ;;;
              ret socket
            else ret socket) ;;
         (match auth config with
          | Some _ => authenticate socket
          | None => ret tt
          end) ;;;
         sendCommand socket ("MAIL FROM:<" ++ from message ++ ">") ;;;
         for_of toEmails
           (fun email => sendCommand socket (rcpt_to email) ;;; ret tt) ;;;
         (match present_addresses (cc message) with
          | Some c =>
              let ccEmails := as_array c in
              for_of ccEmails
                (fun email => sendCommand socket (rcpt_to email) ;;; ret tt)
          | None => ret tt
          end) ;;;
         (match present_addresses (bcc message) with
          | Some b =>
              let bccEmails := as_array b in
              for_of bccEmails
                (fun email => sendCommand socket (rcpt_to email) ;;; ret tt)
          | None => ret tt
          end) ;;;
         sendCommand socket "DATA" ;;;
         emailContent <- buildEmailContent message ;;
         sendCommand socket (emailContent ++ CRLF ++ ".") ;;;
         sendCommand socket "QUIT" ;;;
         emit (EvDestroy socket) ;;;
         id <- generateMessageId ;;
         ret {| success := true; messageId := Some id; error := None |}
     end)
    (fun error =>
       ret {| success := false; messageId := None;
              error := Some (match error with
                             | JsError message => message
                             | NotAnError => "Unknown SMTP error"
                             end) |}).

End Adapter.

(* ================================================================= *)
(** ** Address syntax, in words *)

Definition no_space (s : string) : bool :=
  forallb (fun c => negb (is_space c)) (chars s).

Definition has_dot (s : string) : bool :=
  existsb (Ascii.eqb ".") (chars s).

(** A non-empty run of characters none of which is white space or "@". *)
Definition atom (s : string) : Prop :=
  s <> "" /\ forallb not_space_at (chars s) = true.

(** The reading of the address check as "a non-whitespace local part, an
    "@", and a non-whitespace domain part containing a dot". *)
Definition loosely_valid (s : string) : Prop :=
  exists localPart domain,
    s = localPart ++ "@" ++ domain /\
    localPart <> "" /\ no_space localPart = true /\
    no_space domain = true /\ has_dot domain = true.

(** What the pattern accepts: the domain is cut by a dot into two
    non-empty sides, and "@" occurs once. *)
Definition strictly_valid (s : string) : Prop :=
  exists localPart label rest,
    s = localPart ++ "@" ++ label ++ "." ++ rest /\
    atom localPart /\ atom label /\ atom rest.

(* ================================================================= *)
(** ** Reply lines, in words *)

Definition decimal_digit (c : ascii) : option Z :=
  let n := N_of_ascii c in
  if ((48 <=? n) && (n <=? 57))%N then Some (Z.of_N n - 48)%Z else None.

(** The leading three-digit status code of a reply, when it has one. *)
Definition status_code (response : string) : option Z :=
  match chars response with
  | a :: b :: c :: _ =>
      match decimal_digit a, decimal_digit b, decimal_digit c with
      | Some x, Some y, Some z => Some (100 * x + 10 * y + z)%Z
      | _, _, _ => None
      end
  | _ => None
  end.

(** The message of the error that a rejected reply is turned into. *)
Definition smtp_error (code : Z) (response : string) : string :=
  "SMTP Error " ++ render_Z code ++ ": " ++ trim response.

(** The complete reply that [sendCommand] reads after writing [command]
    on [socket] at history [h], if one arrives in time. *)
Definition reply_to (w : World) (h : History) (socket : Socket)
    (command : string) : option string :=
  onData "" (net_data w (h ++ [EvWrite socket (command ++ CRLF)])%list).

(* ================================================================= *)
(** ** The dialogue as a list of steps

    [send] and [checkConnection] are straight-line code; [exec] runs the
    same steps from a list, which is what the properties of the dialogue
    are proved on ([send_exec], [checkConnection_exec]). *)

Inductive Step : Type :=
| Command (text : string)             (* a command line, then its reply *)
| Upgrade                             (* the TLS handshake of STARTTLS *)
| Payload (message : EmailMessage).   (* the content, then CRLF "." *)

Section Dialogue.

Variable w : World.
Variable config : SMTPConfig.

Definition step (socket : Socket) (st : Step) : M Socket :=
  match st with
  | Command c => sendCommand w socket c ;;; ret socket
  | Upgrade => upgradeToTLS w socket
  | Payload message =>
      emailContent <- buildEmailContent w message ;;
      sendCommand w socket (emailContent ++ CRLF ++ ".") ;;;
      ret socket
  end.

Fixpoint exec (socket : Socket) (steps : list Step) : M Socket :=
  match steps with
  | [] => ret socket
  | st :: rest => socket' <- step socket st ;; exec socket' rest
  end.

Definition starttls_steps : list Step :=
  if wants_starttls config
  then [Command "STARTTLS"; Upgrade; Command "EHLO localhost"]
  else [].

Definition auth_steps : list Step :=
  match auth config with
  | Some a =>
      [Command "AUTH LOGIN"; Command (base64 (user a));
       Command (base64 (pass a))]
  | None => []
  end.

Definition handshake_steps : list Step :=
  (Command "EHLO localhost" :: starttls_steps ++ auth_steps)%list.

Definition optional_addresses (o : option Addresses) : list string :=
  match present_addresses o with
  | Some a => as_array a
  | None => []
  end.

(** The envelope recipients: [to], then [cc], then [bcc]. *)
Definition recipients (message : EmailMessage) : list string :=
  (as_array (to message)
     ++ optional_addresses (cc message)
     ++ optional_addresses (bcc message))%list.

Definition rcpt_steps (emails : list string) : list Step :=
  map (fun email => Command (rcpt_to email)) emails.

Definition send_steps (message : EmailMessage) : list Step :=
  (handshake_steps
     ++ Command ("MAIL FROM:<" ++ from message ++ ">")
     :: rcpt_steps (recipients message)
     ++ [Command "DATA"; Payload message; Command "QUIT"])%list.

Definition check_steps : list Step :=
  (handshake_steps ++ [Command "QUIT"])%list.

(** The socket that [createConnection] makes. *)
Definition initial_socket : Socket :=
  if truthy_bool (secure config) then TlsSocket else TcpSocket.

(** What one step does, case by case. *)
Inductive StepRun (s : Socket)
  : Step -> History -> list Event -> Outcome Socket -> Prop :=
| SR_accepted c h r :
    reply_to w h s c = Some r ->
    ge_400 (parseInt (js_substring 0 3 r)) = false ->
    StepRun s (Command c) h
      [EvWrite s (c ++ CRLF); EvResponse s r] (Returned s)
| SR_rejected c h r :
    reply_to w h s c = Some r ->
    ge_400 (parseInt (js_substring 0 3 r)) = true ->
    StepRun s (Command c) h
      [EvWrite s (c ++ CRLF); EvResponse s r]
      (Threw (JsError ("SMTP Error "
                         ++ render_number (parseInt (js_substring 0 3 r))
                         ++ ": " ++ trim r)))
| SR_timeout c h :
    reply_to w h s c = None ->
    StepRun s (Command c) h
      [EvWrite s (c ++ CRLF); EvTimeout s c]
      (Threw (JsError ("Command timeout: " ++ c)))
| SR_upgraded h :
    net_upgrade w h = Established ->
    StepRun s Upgrade h
      [EvUpgrade s Established; EvConsole "TLS upgrade successful"]
      (Returned (TlsOver s))
| SR_upgrade_failed h e :
    net_upgrade w h = Failed e ->
    StepRun s Upgrade h
      [EvUpgrade s (Failed e); EvConsole "TLS upgrade failed:"]
      (Threw e)
| SR_upgrade_timeout h :
    net_upgrade w h = TimedOut ->
    StepRun s Upgrade h
      [EvUpgrade s TimedOut] (Threw (JsError "TLS upgrade timeout"))
| SR_payload message h content evs o :
    fst (buildEmailContent w message h) = Returned content ->
    StepRun s (Command (content ++ CRLF ++ ".")) h evs o ->
    StepRun s (Payload message) h evs o.

(** A run of a list of steps from history [h]: the events it adds and how
    it ends.  It stops at the first step that throws. *)
Inductive Runs
  : Socket -> list Step -> History -> list Event -> Outcome Socket -> Prop :=
| Runs_done s h : Runs s [] h [] (Returned s)
| Runs_abort s st rest h evs e :
    StepRun s st h evs (Threw e) ->
    Runs s (st :: rest) h evs (Threw e)
| Runs_next s st rest h evs1 s' evs2 o :
    StepRun s st h evs1 (Returned s') ->
    Runs s' rest (h ++ evs1)%list evs2 o ->
    Runs s (st :: rest) h (evs1 ++ evs2)%list o.

(** A whole call: the connection attempt, then the steps. *)
Inductive CallRuns (steps : list Step)
  : list Event -> Outcome Socket -> Prop :=
| Call_refused e :
    net_connect w = Failed e ->
    CallRuns steps [EvConnect initial_socket (Failed e)] (Threw e)
| Call_timeout :
    net_connect w = TimedOut ->
    CallRuns steps [EvConnect initial_socket TimedOut]
      (Threw (JsError "Connection timeout"))
| Call_connected evs o :
    net_connect w = Established ->
    Runs initial_socket steps [EvConnect initial_socket Established] evs o ->
    CallRuns steps (EvConnect initial_socket Established :: evs) o.

End Dialogue.

(** The [catch] blocks of [send] and [checkConnection]. *)
Definition catch_send (error : Thrown) : M EmailResult :=
  ret {| success := false; messageId := None;
         error := Some (match error with
                        | JsError message => message
                        | NotAnError => "Unknown SMTP error"
                        end) |}.

Definition catch_check (error : Thrown) : M bool :=
  emit (EvConsole "SMTP Connection Error:") ;;; ret false.

(* ================================================================= *)
(** ** Reading a history *)

Definition is_write (ev : Event) : bool :=
  match ev with
  | EvWrite _ _ => true
  | _ => false
  end.

(** The data written to the socket, in order. *)
Fixpoint writes (h : History) : list string :=
  match h with
  | EvWrite _ data :: h' => data :: writes h'
  | _ :: h' => writes h'
  | [] => []
  end.

(** An event that reports the failure of a step. *)
Definition is_failure (ev : Event) : bool :=
  match ev with
  | EvConnect _ Established => false
  | EvConnect _ _ => true
  | EvUpgrade _ Established => false
  | EvUpgrade _ _ => true
  | EvResponse _ r => ge_400 (parseInt (js_substring 0 3 r))
  | EvTimeout _ _ => true
  | _ => false
  end.

Definition is_destroy (ev : Event) : bool :=
  match ev with
  | EvDestroy _ => true
  | _ => false
  end.

Definition is_connect (ev : Event) : bool :=
  match ev with
  | EvConnect _ _ => true
  | _ => false
  end.

(** The events of the dialogue proper: no connection attempt and no
    [destroy]. *)
Definition is_dialogue (ev : Event) : bool :=
  negb (is_connect ev) && negb (is_destroy ev).

Definition is_console (ev : Event) : bool :=
  match ev with
  | EvConsole _ => true
  | _ => false
  end.

Definition all_ok (h : History) : bool :=
  forallb (fun ev => negb (is_failure ev)) h.

(** The value thrown when the step that reported [ev] fails. *)
Definition thrown_by (ev : Event) : Thrown :=
  match ev with
  | EvConnect _ (Failed e) => e
  | EvConnect _ _ => JsError "Connection timeout"
  | EvUpgrade _ (Failed e) => e
  | EvUpgrade _ _ => JsError "TLS upgrade timeout"
  | EvResponse _ r =>
      JsError ("SMTP Error "
                 ++ render_number (parseInt (js_substring 0 3 r))
                 ++ ": " ++ trim r)
  | EvTimeout _ c => JsError ("Command timeout: " ++ c)
  | _ => NotAnError
  end.

(** The console line that follows the report of a failure. *)
Definition after_failure (ev : Event) : list Event :=
  match ev with
  | EvUpgrade _ (Failed _) => [EvConsole "TLS upgrade failed:"]
  | _ => []
  end.

(** [error instanceof Error ? error.message : 'Unknown SMTP error'] *)
Definition message_of (e : Thrown) : string :=
  match e with
  | JsError message => message
  | NotAnError => "Unknown SMTP error"
  end.

Definition failure (message : string) : EmailResult :=
  {| success := false; messageId := None; error := Some message |}.

(* ================================================================= *)
(** ** Calls

    The two operations that talk to the server, started on an empty
    history. *)

Inductive Call : Type :=
| Send (message : EmailMessage)
| Check.

Inductive Answer : Type :=
| SendAnswer (result : EmailResult)
| CheckAnswer (connected : bool).

Definition lift_answer {A} (f : A -> Answer) (r : Outcome A * History)
  : Outcome Answer * History :=
  match r with
  | (Returned a, h) => (Returned (f a), h)
  | (Threw e, h) => (Threw e, h)
  end.

Definition run (w : World) (config : SMTPConfig) (call : Call)
  : Outcome Answer * History :=
  match call with
  | Send message => lift_answer SendAnswer (send w config message [])
  | Check => lift_answer CheckAnswer (checkConnection w config [])
  end.

Definition trace_of (w : World) (config : SMTPConfig) (call : Call) : History :=
  snd (run w config call).

Definition answer_of (w : World) (config : SMTPConfig) (call : Call)
  : Outcome Answer :=
  fst (run w config call).

Definition steps_of (config : SMTPConfig) (call : Call) : list Step :=
  match call with
  | Send message => send_steps config message
  | Check => check_steps config
  end.

(** The answer of a call that fails with the error message [text]. *)
Definition fails_with (text : string) (a : Answer) : Prop :=
  match a with
  | SendAnswer result => result = failure text
  | CheckAnswer connected => connected = false
  end.

Definition succeeded (a : Answer) : bool :=
  match a with
  | SendAnswer result => success result
  | CheckAnswer connected => connected
  end.

(** The events of the [catch] block. *)
Definition caught (call : Call) : list Event :=
  match call with
  | Send _ => []
  | Check => [EvConsole "SMTP Connection Error:"]
  end.

(** The addresses that [send] checks before it connects. *)
Definition first_invalid (message : EmailMessage) : option string :=
  find (fun email => negb (validateEmail email)) (as_array (to message)).

Definition passes_validation (call : Call) : bool :=
  match call with
  | Send message =>
      match first_invalid message with
      | Some _ => false
      | None => validateEmail (from message)
      end
  | Check => true
  end.

(** How a run ends: every event is fine, or the events are fine up to the
    one that reports the failure, which nothing but its console line
    follows. *)
Definition ends_as (evs : list Event) {A} (o : Outcome A) : Prop :=
  match o with
  | Returned _ => all_ok evs = true
  | Threw e =>
      exists pre ev,
        evs = (pre ++ ev :: after_failure ev)%list /\
        all_ok pre = true /\ is_failure ev = true /\ e = thrown_by ev
  end.

(** Whether a computation returned. *)
Definition returned {A} (r : Outcome A * History) : bool :=
  match r with
  | (Returned _, _) => true
  | (Threw _, _) => false
  end.

(** Whether the connection and all of [steps] go through. *)
Definition steps_succeed (w : World) (config : SMTPConfig)
    (steps : list Step) : bool :=
  returned ((socket <- createConnection w config ;; exec w socket steps) []).

(** The same message with other [cc] and [bcc] fields. *)
Definition with_copies (message : EmailMessage) (cc' bcc' : option Addresses)
  : EmailMessage :=
  {| to := to message; from := from message; subject := subject message;
     text := text message; html := html message;
     cc := cc'; bcc := bcc'; replyTo := replyTo message |}.

(* ================================================================= *)
(** ** The content and the command sequence, in words *)

Definition cc_lines (message : EmailMessage) : list string :=
  match present_addresses (cc message) with
  | Some c => ["Cc: " ++ joined c]
  | None => []
  end.

Definition replyTo_lines (message : EmailMessage) : list string :=
  match present (replyTo message) with
  | Some r => ["Reply-To: " ++ r]
  | None => []
  end.

Definition content_type_lines (message : EmailMessage) : list string :=
  match present (html message) with
  | Some _ => ["MIME-Version: 1.0"; "Content-Type: text/html; charset=utf-8"]
  | None => ["Content-Type: text/plain; charset=utf-8"]
  end.

(** The header lines, in order: From, To, Cc if present, Reply-To if
    present, Subject, Date, Message-ID, then MIME-Version with an HTML
    content type if [html] is present, else a plain-text content type. *)
Definition header_lines (date id : string) (message : EmailMessage)
  : list string :=
  let From := "From: " ++ from message in
  let To := "To: " ++ joined (to message) in
  let Subject := "Subject: " ++ subject message in
  let Date := "Date: " ++ date in
  let MessageID := "Message-ID: <" ++ id ++ ">" in
  ([From; To] ++ cc_lines message ++ replyTo_lines message
     ++ [Subject; Date; MessageID] ++ content_type_lines message)%list.

(** The body: [html] if present, else [text] (no line when neither is). *)
Definition body_lines (message : EmailMessage) : list string :=
  match present (html message) with
  | Some body => [body]
  | None =>
      match present (text message) with
      | Some body => [body]
      | None => []
      end
  end.

(** The identifier that [generateMessageId] makes at history [h]. *)
Definition message_id_at (w : World) (h : History) : string :=
  render_N (clock_now w h) ++ "." ++ random_base36 w h ++ "@synet.email".

(** EHLO, [STARTTLS, EHLO], [AUTH LOGIN, user, pass], MAIL FROM, one
    RCPT TO per address of [to], [cc], [bcc], DATA, the content closed by
    a line with a single dot, QUIT. *)
Definition command_sequence (config : SMTPConfig) (message : EmailMessage)
    (content : string) : list string :=
  let starttls :=
    if wants_starttls config then ["STARTTLS"; "EHLO localhost"] else [] in
  let login :=
    match auth config with
    | Some a => ["AUTH LOGIN"; base64 (user a); base64 (pass a)]
    | None => []
    end in
  let mail := "MAIL FROM:<" ++ from message ++ ">" in
  let payload := content ++ CRLF ++ "." in
  (["EHLO localhost"] ++ starttls ++ login ++ [mail]
     ++ map rcpt_to (as_array (to message))
     ++ map rcpt_to (optional_addresses (cc message))
     ++ map rcpt_to (optional_addresses (bcc message))
     ++ ["DATA"; payload; "QUIT"])%list.

(** What is written for a command: the line and CRLF. *)
Definition wire (command : string) : string := command ++ CRLF.

(** The lines written for steps none of which is the payload. *)
Fixpoint lines_of (steps : list Step) : list string :=
  match steps with
  | Command c :: rest => wire c :: lines_of rest
  | _ :: rest => lines_of rest
  | [] => []
  end.

Definition is_payload (st : Step) : bool :=
  match st with
  | Payload _ => true
  | _ => false
  end.

(** The event that answers a write on [s]. *)
Definition answers (s : Socket) (ev : Event) : Prop :=
  (exists r, ev = EvResponse s r) \/ (exists c, ev = EvTimeout s c).

(** Every write is directly followed by its reply or by its timeout. *)
Definition Awaited (l : History) : Prop :=
  forall pre s data post,
    l = (pre ++ EvWrite s data :: post)%list ->
    exists ev post', post = ev :: post' /\ answers s ev.

(** The steps of [send] before the payload. *)
Definition steps_before_payload (config : SMTPConfig)
    (message : EmailMessage) : list Step :=
  (handshake_steps config
     ++ Command ("MAIL FROM:<" ++ from message ++ ">")
     :: rcpt_steps (recipients message)
     ++ [Command "DATA"])%list.

(* ================================================================= *)
(** ** STARTTLS, in words *)


(** A step that cannot write the line [x]. *)
Definition never_writes (w : World) (x : string) (st : Step) : Prop :=
  match st with
  | Command c => wire c <> x
  | Upgrade => True
  | Payload m =>
      forall h content,
        fst (buildEmailContent w m h) = Returned content ->
        wire (content ++ CRLF ++ ".") <> x
  end.

(** The steps after the handshake. *)
Definition closing_steps (config : SMTPConfig) (call : Call) : list Step :=
  match call with
  | Send message =>
      (Command ("MAIL FROM:<" ++ from message ++ ">")
         :: rcpt_steps (recipients message)
         ++ [Command "DATA"; Payload message; Command "QUIT"])%list
  | Check => [Command "QUIT"]
  end.

(** The steps after the STARTTLS exchange. *)
Definition tail_steps (config : SMTPConfig) (call : Call) : list Step :=
  (auth_steps config ++ closing_steps config call)%list.

Definition is_upgrade (st : Step) : bool :=
  match st with
  | Upgrade => true
  | _ => false
  end.

(** The events that end a call: [destroy], or the line of the [catch]
    block. *)
Definition is_ending (ev : Event) : bool := is_destroy ev || is_console ev.



(* ================================================================= *)
(** ** The ways a call can go *)

Section CallCases.

Variable w : World.
Variable config : SMTPConfig.

(** Every call, case by case. *)
Inductive RunOf (call : Call) : Outcome Answer * History -> Prop :=
| Run_invalid_to message email :
    call = Send message ->
    first_invalid message = Some email ->
    RunOf call
      (Returned (SendAnswer (failure ("Invalid email address: " ++ email))),
       [])
| Run_invalid_from message :
    call = Send message ->
    first_invalid message = None ->
    validateEmail (from message) = false ->
    RunOf call
      (Returned (SendAnswer (failure ("Invalid from email address: "
                                        ++ from message))),
       [])
| Run_completed tr s a :
    passes_validation call = true ->
    steps_succeed w config (steps_of config call) = true ->
    CallRuns w config (steps_of config call) tr (Returned s) ->
    succeeded a = true ->
    (forall message, call = Send message ->
       exists id, a = SendAnswer {| success := true; messageId := Some id;
                                    error := None |}) ->
    RunOf call (Returned a, (tr ++ [EvDestroy s])%list)
| Run_failed tr e a :
    passes_validation call = true ->
    steps_succeed w config (steps_of config call) = false ->
    CallRuns w config (steps_of config call) tr (Threw e) ->
    fails_with (message_of e) a ->
    RunOf call (Returned a, (tr ++ caught call)%list).

End CallCases.

(* ================================================================= *)
(** ** Scripted worlds

    A server that answers the [k]-th command of the call with the [k]-th
    entry of a script (a list of chunks), and is silent when the script is
    over. *)

Definition scripted (connect upgrade : ConnResult)
    (replies : list (list string)) : World :=
  {| net_connect := connect;
     net_upgrade := fun _ => upgrade;
     net_data := fun h =>
       nth (List.length (filter is_write h) - 1) replies [];
     clock_utc := fun _ => "Tue, 03 Nov 2026 10:00:00 GMT";
     clock_now := fun h => (1793700000000 + N.of_nat (List.length h))%N;
     random_base36 := fun _ => "k3j9x2m1q" |}.

Definition ok_reply : list string := ["250 OK" ++ CRLF].

(* ================================================================= *)
(** ** Sample configurations, messages and servers *)

(** Port 587, STARTTLS, with credentials. *)
Definition config_submission : SMTPConfig :=
  {| host := "smtp.example.com"; port := 587; secure := None;
     auth := Some {| user := "test"; pass := "test" |}; timeout := LeftOut |}.

(** Port 465, TLS from the first byte, no credentials. *)
Definition config_tls : SMTPConfig :=
  {| host := "smtp.example.com"; port := 465; secure := Some true;
     auth := None; timeout := Written (Some 5000%Z) |}.

Definition message_plain : EmailMessage :=
  {| to := One "test@example.com"; from := "sender@example.com";
     subject := "Test"; text := Some "Test message"; html := None;
     cc := None; bcc := None; replyTo := None |}.

Definition message_full : EmailMessage :=
  {| to := Many ["recipient1@example.com"; "recipient2@example.com"];
     from := "sender@example.com"; subject := "Test Multi-Recipient";
     text := Some "Plain text message";
     html := Some "<h1>HTML message</h1>";
     cc := Some (One "cc@example.com");
     bcc := Some (Many ["bcc1@example.com"; "bcc2@example.com"]);
     replyTo := Some "reply@example.com" |}.

Definition message_invalid_to : EmailMessage :=
  {| to := One "invalid-email"; from := "valid@example.com";
     subject := "Test"; text := Some "Test message"; html := None;
     cc := None; bcc := None; replyTo := None |}.

(** A server that accepts everything. *)
Definition world_ok : World :=
  scripted Established Established (repeat ok_reply 32).

(** A server that accepts EHLO and MAIL FROM and rejects the first
    RCPT TO (on [config_tls]). *)
Definition world_rcpt_rejected : World :=
  scripted Established Established
    [ok_reply; ok_reply; ["550 No such user" ++ CRLF]].

(** A server that accepts EHLO and answers QUIT with 421 (on
    [config_tls]). *)
Definition world_quit_rejected : World :=
  scripted Established Established
    [ok_reply; ["421 Service not available" ++ CRLF]].

(** A server that accepts the whole handshake of [config_submission]
    (EHLO, STARTTLS, EHLO, AUTH LOGIN, user, password) and answers QUIT
    with 421. *)
Definition world_quit_rejected_after_login : World :=
  scripted Established Established
    [ok_reply; ok_reply; ok_reply; ok_reply; ok_reply; ok_reply;
     ["421 Service not available" ++ CRLF]].



(** A server whose reply to EHLO does not start with a status code. *)
Definition world_garbled : World :=
  scripted Established Established [["hello there" ++ CRLF]].

(* ================================================================= *)
(** ** More readings of a history *)

(** [response += data.toString()] over a run of chunks. *)
Definition glue (chunks : list string) : string :=
  fold_right append "" chunks.

(** The socket in use after [steps], started on [s]: each TLS upgrade
    wraps the socket of the moment. *)
Definition socket_after (s : Socket) (steps : list Step) : Socket :=
  fold_left (fun s' st => if is_upgrade st then TlsOver s' else s') steps s.

Definition is_upgrade_event (ev : Event) : bool :=
  match ev with
  | EvUpgrade _ _ => true
  | _ => false
  end.

(** A server that lets every step through: the connection and the TLS
    handshake are established and every command gets, in time, a complete
    reply that is not rejected. *)
Definition cooperative (w : World) : Prop :=
  net_connect w = Established /\
  (forall h, net_upgrade w h = Established) /\
  (forall h, exists r,
      onData "" (net_data w h) = Some r /\
      ge_400 (parseInt (js_substring 0 3 r)) = false).

(** The lines of the handshake. *)
Definition handshake_sequence (config : SMTPConfig) : list string :=
  let starttls :=
    if wants_starttls config then ["STARTTLS"; "EHLO localhost"] else [] in
  let login :=
    match auth config with
    | Some a => ["AUTH LOGIN"; base64 (user a); base64 (pass a)]
    | None => []
    end in
  (["EHLO localhost"] ++ starttls ++ login)%list.

(* ================================================================= *)
(** ** The Resend adapter ([src/resend.ts]) *)

(** [ResendConfig].  The fields [from] and [timeout] of the source are
    [defaultFrom] and [resendTimeout] here, their names being those of
    fields of [EmailMessage] and [SMTPConfig]. *)
Record ResendConfig : Type := {
  apiKey : string;
  defaultFrom : option string;
  resendTimeout : option Z
}.

(** The constructor of [ResendEmail]: the configuration that its
    [smtpAdapter] holds.  The literal [smtpConfig] has the property
    [timeout: config.timeout], whatever [config] has. *)
Definition ResendEmail (config : ResendConfig) : SMTPConfig :=
  let smtpConfig :=
    {| host := "smtp.resend.com";
       port := 465;
       secure := Some true;
       auth := Some {| user := "resend"; pass := apiKey config |};
       timeout := Written (resendTimeout config) |} in
  SMTPEmail smtpConfig.

(** [message.from || this.config.from || message.from] *)
Definition resend_from (config : ResendConfig) (message : EmailMessage)
  : string :=
  if negb (String.eqb (from message) "") then from message
  else match present (defaultFrom config) with
       | Some f => f
       | None => from message
       end.

(** [{ ...message, from: ... }] *)
Definition resend_message (config : ResendConfig) (message : EmailMessage)
  : EmailMessage :=
  {| to := to message; from := resend_from config message;
     subject := subject message; text := text message; html := html message;
     cc := cc message; bcc := bcc message; replyTo := replyTo message |}.

Definition resend_validateEmail (config : ResendConfig) (email : string)
  : bool :=
  validateEmail email.

Definition resend_checkConnection (w : World) (config : ResendConfig)
  : M bool :=
  checkConnection w (ResendEmail config).

Definition resend_send (w : World) (config : ResendConfig)
    (message : EmailMessage) : M EmailResult :=
  let emailMessage := resend_message config message in
  send w (ResendEmail config) emailMessage.

(* ================================================================= *)
(** ** The Email unit ([src/email-unit.ts])

    [Unit], [createUnitSchema] and the capability objects come from
    [@synet/unit] and are not modelled; the unit is its [props]. *)

Inductive EmailProviderType : Type := smtp | resend.

(** [EmailConfig<T>]: the type and the options of the same provider. *)
Inductive EmailConfig : Type :=
| SmtpConfig (options : SMTPConfig)
| ResendConfiguration (options : ResendConfig).

Definition config_type (config : EmailConfig) : EmailProviderType :=
  match config with
  | SmtpConfig _ => smtp
  | ResendConfiguration _ => resend
  end.

(** An [IEmail]: one of the two adapters that [createProvider] makes. *)
Inductive Provider : Type :=
| SmtpProvider (config : SMTPConfig)
| ResendProvider (config : ResendConfig).

Record EmailProps : Type := {
  provider : Provider;
  providerType : EmailProviderType;
  providerOptions : EmailConfig
}.

Definition createProvider (config : EmailConfig) : Provider :=
  match config with
  | SmtpConfig options => SmtpProvider (SMTPEmail options)
  | ResendConfiguration options => ResendProvider options
  end.

(** [Email.create]: [config.type] and [config.options] are there by
    type; an SMTP configuration needs a truthy [host], [port] and
    [auth]. *)
Definition Email_create (config : EmailConfig) : Outcome EmailProps :=
  let invalid :=
    match config with
    | SmtpConfig smtpOptions =>
        String.eqb (host smtpOptions) "" || (port smtpOptions =? 0)%Z
        || match auth smtpOptions with Some _ => false | None => true end
    | ResendConfiguration _ => false
    end in
  if invalid
  then Threw (JsError
                "[email] SMTP requires host, port, and auth configuration")
  else Returned {| provider := createProvider config;
                   providerType := config_type config;
                   providerOptions := config |}.

Definition provider_validateEmail (p : Provider) (email : string) : bool :=
  match p with
  | SmtpProvider _ => validateEmail email
  | ResendProvider config => resend_validateEmail config email
  end.

Definition provider_checkConnection (w : World) (p : Provider) : M bool :=
  match p with
  | SmtpProvider config => checkConnection w config
  | ResendProvider config => resend_checkConnection w config
  end.

Definition provider_send (w : World) (p : Provider) (message : EmailMessage)
  : M EmailResult :=
  match p with
  | SmtpProvider config => send w config message
  | ResendProvider config => resend_send w config message
  end.

(** The methods of the unit: the provider's, inside [try].  The
    [validateEmail] of both adapters is a test of the pattern, which
    returns for every string; its [try] has nothing to catch. *)
Definition Email_validateEmail (unit : EmailProps) (email : string) : bool :=
  provider_validateEmail (provider unit) email.

Definition Email_checkConnection (w : World) (unit : EmailProps) : M bool :=
  try_catch (provider_checkConnection w (provider unit))
    (fun error => ret false).

Definition Email_send (w : World) (unit : EmailProps)
    (message : EmailMessage) : M EmailResult :=
  try_catch (provider_send w (provider unit) message)
    (fun error =>
       ret {| success := false; messageId := None;
              error := Some (match error with
                             | JsError message => message
                             | NotAnError => "Unknown error"
                             end) |}).

(* ================================================================= *)
(** ** More sample servers and messages *)

(** A server that answers every command with "250 OK". *)
Definition world_always_ok : World :=
  {| net_connect := Established;
     net_upgrade := fun _ => Established;
     net_data := fun _ => ok_reply;
     clock_utc := fun _ => "Tue, 03 Nov 2026 10:00:00 GMT";
     clock_now := fun h => (1793700000000 + N.of_nat (List.length h))%N;
     random_base36 := fun _ => "k3j9x2m1q" |}.

(** A server that accepts EHLO and then stays silent. *)
Definition world_silent_after_ehlo : World :=
  scripted Established Established [ok_reply].

(** A connection attempt that times out. *)
Definition world_unreachable : World :=
  scripted TimedOut Established [].

(** A TLS handshake that fails after STARTTLS has been accepted. *)
Definition world_handshake_fails : World :=
  scripted Established (Failed (JsError "handshake failure"))
    [ok_reply; ok_reply].

(** Port 465 without [secure], with credentials. *)
Definition config_plain_465 : SMTPConfig :=
  {| host := "smtp.example.com"; port := 465; secure := Some false;
     auth := Some {| user := "test"; pass := "test" |}; timeout := LeftOut |}.

Definition message_no_recipient : EmailMessage :=
  {| to := Many []; from := "sender@example.com";
     subject := "Test"; text := Some "Test message"; html := None;
     cc := None; bcc := None; replyTo := None |}.

Definition resend_sample : ResendConfig :=
  {| apiKey := "re_test_key"; defaultFrom := Some "default@example.com";
     resendTimeout := None |}.

(** A subject that holds a line break. *)
Definition message_two_line_subject : EmailMessage :=
  {| to := One "test@example.com"; from := "sender@example.com";
     subject := "Hello" ++ CRLF ++ "Bcc: other@example.com";
     text := Some "Test message"; html := None;
     cc := None; bcc := None; replyTo := None |}.

(** The message of the error of a connection attempt that did not
    succeed. *)
Definition connect_error (res : ConnResult) : string :=
  match res with
  | Failed e => message_of e
  | _ => "Connection timeout"
  end.

(** The message of the error of a TLS upgrade that did not succeed. *)
Definition upgrade_error (res : ConnResult) : string :=
  match res with
  | Failed e => message_of e
  | _ => "TLS upgrade timeout"
  end.

(** The lines of a completed [send] through the Resend adapter. *)
Definition resend_sequence (config : ResendConfig) (message : EmailMessage)
    (sender content : string) : list string :=
  let mail := "MAIL FROM:<" ++ sender ++ ">" in
  let payload := content ++ CRLF ++ "." in
  (["EHLO localhost"; "AUTH LOGIN"; "cmVzZW5k"; base64 (apiKey config); mail]
     ++ map rcpt_to (recipients message)
     ++ ["DATA"; payload; "QUIT"])%list.

(** A message that names no sender. *)
Definition message_no_sender : EmailMessage :=
  {| to := One "test@example.com"; from := "";
     subject := "Test"; text := Some "Test message"; html := None;
     cc := None; bcc := None; replyTo := None |}.

(** A body with a line that holds a single dot. *)
Definition message_with_dot_line : EmailMessage :=
  {| to := One "test@example.com"; from := "sender@example.com";
     subject := "Test";
     text := Some ("Hello" ++ CRLF ++ "." ++ CRLF
                     ++ "MAIL FROM:<other@example.com>");
     html := None; cc := None; bcc := None; replyTo := None |}.

(* ================================================================= *)
(** ** After STARTTLS, and the envelope of [bcc], in words *)


(** The addresses of [bcc], read off the field: the elements of an
    array, or the one address when it is not the empty string. *)
Definition bcc_addresses (message : EmailMessage) : list string :=
  match bcc message with
  | Some (Many addresses) => addresses
  | Some (One address) => if String.eqb address "" then [] else [address]
  | None => []
  end.

(** Messages that differ at most in [bcc]. *)
Definition same_but_bcc (m1 m2 : EmailMessage) : Prop :=
  to m1 = to m2 /\ from m1 = from m2 /\ subject m1 = subject m2 /\
  text m1 = text m2 /\ html m1 = html m2 /\ cc m1 = cc m2 /\
  replyTo m1 = replyTo m2.

(** The lines of a completed [send] up to the [bcc] addresses. *)
Definition lines_before_bcc (config : SMTPConfig) (message : EmailMessage)
  : list string :=
  let mail := "MAIL FROM:<" ++ from message ++ ">" in
  (handshake_sequence config ++ [mail]
     ++ map rcpt_to (as_array (to message))
     ++ map rcpt_to (optional_addresses (cc message)))%list.

(** [block] is the header block that a [send] of [message] transmits:
    the header lines of the content that it writes, joined by CRLF. *)
Definition transmits_header_block (w : World) (config : SMTPConfig)
    (message : EmailMessage) (block : string) : Prop :=
  exists date id pre s post,
    block = join CRLF (header_lines date id message) /\
    trace_of w config (Send message)
    = (pre ++ EvWrite s
                (wire (join CRLF (header_lines date id message
                                    ++ [""] ++ body_lines message)
                         ++ CRLF ++ "."))
         :: post)%list.

(* ================================================================= *)
(** * Properties *)

(** ** Strings and lists of characters *)

Lemma chars_app (s1 s2 : string) :
  chars (s1 ++ s2) = (chars s1 ++ chars s2)%list.
Proof.
  induction s1 as [|c s1 IH]; simpl; [reflexivity|].
  unfold chars in *. simpl. now rewrite IH.
Qed.

Lemma string_app_assoc (s1 s2 s3 : string) :
  (s1 ++ s2) ++ s3 = s1 ++ (s2 ++ s3).
Proof. induction s1 as [|c s1 IH]; simpl; [reflexivity | now rewrite IH]. Qed.

Lemma str_chars (s : string) : str (chars s) = s.
Proof. apply string_of_list_ascii_of_string. Qed.

Lemma chars_str (l : list ascii) : chars (str l) = l.
Proof. apply list_ascii_of_string_of_list_ascii. Qed.

Lemma str_app (l1 l2 : list ascii) : str (l1 ++ l2) = str l1 ++ str l2.
Proof.
  rewrite <- (str_chars (str l1 ++ str l2)), chars_app, !chars_str.
  reflexivity.
Qed.

Lemma chars_nil_inv (s : string) : chars s = [] -> s = "".
Proof. destruct s; [reflexivity|discriminate]. Qed.

(* ----------------------------------------------------------------- *)
(** ** The matcher decides the language of a pattern *)

Lemma nullable_Matches (r : regex) : nullable r = true <-> Matches r [].
Proof.
  induction r as [| |p|r1 IH1 r2 IH2|r1 IH1 r2 IH2|r IH]; simpl.
  - split; [discriminate | intro H; inversion H].
  - split; [intros _; constructor | intros _; reflexivity].
  - split; [discriminate | intro H; inversion H].
  - rewrite andb_true_iff, IH1, IH2. split.
    + intros [H1 H2].
      change (@nil ascii) with (@nil ascii ++ [])%list. now constructor.
    + intro H. inversion H as [| |? ? l1 l2 H1 H2| | | |]; subst.
      match goal with E : (_ ++ _)%list = [] |- _ =>
        apply app_eq_nil in E as [-> ->] end.
      now split.
  - rewrite orb_true_iff, IH1, IH2. split.
    + intros [H|H]; [now apply MAltL | now apply MAltR].
    + intro H. inversion H; subst; [now left | now right].
  - split; [intros _; constructor | intros _; reflexivity].
Qed.

(** A non-empty word of [Star r] starts with a non-empty word of [r]. *)
Lemma Matches_Star_cons (r : regex) (c : ascii) (l : list ascii) :
  Matches (Star r) (c :: l) ->
  exists l1 l2,
    l = (l1 ++ l2)%list /\ Matches r (c :: l1) /\ Matches (Star r) l2.
Proof.
  intro H. remember (Star r) as sr eqn:Esr. remember (c :: l) as cl eqn:Ecl.
  revert l Ecl.
  induction H as [| | | | | |r0 l1 l2 H1 _ H2 IH2]; intros l' Ecl;
    try discriminate.
  inversion Esr; subst r0.
  destruct l1 as [|c1 l1]; simpl in Ecl.
  - now apply IH2.
  - inversion Ecl; subst. now exists l1, l2.
Qed.

Lemma deriv_Matches (r : regex) :
  forall c l, Matches (deriv c r) l <-> Matches r (c :: l).
Proof.
  induction r as [| |p|r1 IH1 r2 IH2|r1 IH1 r2 IH2|r IH]; intros c l; simpl.
  - split; intro H; inversion H.
  - split; intro H; inversion H.
  - destruct (p c) eqn:Ep; split; intro H.
    + inversion H; subst. now constructor.
    + inversion H; subst. constructor.
    + inversion H.
    + inversion H; subst. congruence.
  - assert (Hseq : forall l, Matches (Seq (deriv c r1) r2) l ->
                             Matches (Seq r1 r2) (c :: l)).
    { intros l0 H. inversion H as [| |? ? l1 l2 H1 H2| | | |]; subst.
      change (c :: l1 ++ l2)%list with ((c :: l1) ++ l2)%list.
      constructor; [now apply IH1 | assumption]. }
    destruct (nullable r1) eqn:En; split; intro H.
    + inversion H; subst; [now apply Hseq|].
      change (c :: l) with ([] ++ c :: l)%list.
      constructor; [now apply nullable_Matches | now apply IH2].
    + inversion H as [| |? ? l1 l2 H1 H2 [E1 E2] E| | | |]; subst.
      destruct l1 as [|c1 l1]; simpl in E.
      * subst l2. apply MAltR. now apply IH2.
      * inversion E; subst. apply MAltL. constructor; [now apply IH1|assumption].
    + now apply Hseq.
    + inversion H as [| |? ? l1 l2 H1 H2 [E1 E2] E| | | |]; subst.
      destruct l1 as [|c1 l1]; simpl in E.
      * apply nullable_Matches in H1. congruence.
      * inversion E; subst. constructor; [now apply IH1|assumption].
  - split; intro H; inversion H; subst;
      ((apply MAltL; now apply IH1) || (apply MAltR; now apply IH2)).
  - split; intro H.
    + inversion H as [| |? ? l1 l2 H1 H2| | | |]; subst.
      change (c :: l1 ++ l2)%list with ((c :: l1) ++ l2)%list.
      constructor; [now apply IH | assumption].
    + apply Matches_Star_cons in H as (l1 & l2 & -> & H1 & H2).
      constructor; [now apply IH | assumption].
Qed.

Lemma regex_match_Matches (l : list ascii) :
  forall r, regex_match r l = true <-> Matches r l.
Proof.
  induction l as [|c l IH]; intro r; simpl.
  - apply nullable_Matches.
  - rewrite IH. apply deriv_Matches.
Qed.

(** The words of [[class]+]. *)
Lemma Matches_Star_Class (p : ascii -> bool) (l : list ascii) :
  Matches (Star (Class p)) l <-> forallb p l = true.
Proof.
  split.
  - intro H. remember (Star (Class p)) as sr eqn:E.
    induction H as [| | | | | |r l1 l2 H1 _ H2 IH2]; try discriminate.
    + reflexivity.
    + inversion E; subst r. inversion H1; subst. simpl.
      apply andb_true_iff. split; [assumption | now apply IH2].
  - induction l as [|c l IH]; simpl; intro H.
    + constructor.
    + apply andb_true_iff in H as [Hc Hl].
      change (c :: l) with ([c] ++ l)%list.
      constructor; [now constructor | now apply IH].
Qed.

Lemma Matches_Plus_Class (p : ascii -> bool) (l : list ascii) :
  Matches (Plus (Class p)) l <-> l <> [] /\ forallb p l = true.
Proof.
  unfold Plus. split.
  - intro H. inversion H as [| |? ? l1 l2 H1 H2| | | |]; subst.
    inversion H1; subst. simpl. split; [discriminate|].
    apply andb_true_iff. split; [assumption | now apply Matches_Star_Class].
  - intros [Hne H]. destruct l as [|c l]; [congruence|].
    simpl in H. apply andb_true_iff in H as [Hc Hl].
    change (c :: l) with ([c] ++ l)%list.
    constructor; [now constructor | now apply Matches_Star_Class].
Qed.

Lemma Matches_is_char (c : ascii) (l : list ascii) :
  Matches (Class (is_char c)) l <-> l = [c].
Proof.
  split; intro H.
  - inversion H as [|p c' Hc| | | | |]; subst. unfold is_char in Hc.
    apply Ascii.eqb_eq in Hc. now subst.
  - subst. constructor. unfold is_char. apply Ascii.eqb_refl.
Qed.

Lemma atom_chars (s : string) :
  atom s <-> chars s <> [] /\ forallb not_space_at (chars s) = true.
Proof.
  unfold atom. split; intros [Hne H]; split; try assumption.
  - intro E. apply Hne. now apply chars_nil_inv.
  - intro E. subst. now apply Hne.
Qed.

Lemma validateEmail_strictly (s : string) :
  validateEmail s = true <-> strictly_valid s.
Proof.
  unfold validateEmail, regex_test, strictly_valid, emailRegex.
  rewrite regex_match_Matches. split.
  - intro H.
    inversion H as [| |? ? l1 t1 Ha Ta Ea1 Ea2| | | |]; subst. clear H.
    inversion Ta as [| |? ? l2 t2 Hb Tb| | | |]; subst. clear Ta.
    inversion Tb as [| |? ? l3 t3 Hc Tc| | | |]; subst. clear Tb.
    inversion Tc as [| |? ? l4 l5 Hd He| | | |]; subst. clear Tc.
    apply Matches_is_char in Hb, Hd. subst l2 l4.
    apply Matches_Plus_Class in Ha, Hc, He.
    exists (str l1), (str l3), (str l5). split.
    + rewrite <- (str_chars s), <- Ea2, !str_app. reflexivity.
    + repeat split; apply atom_chars; now rewrite chars_str.
  - intros (lp & lb & rs & -> & Hl & Hb & Hr).
    apply atom_chars in Hl, Hb, Hr. rewrite !chars_app.
    constructor; [now apply Matches_Plus_Class|].
    constructor; [now apply Matches_is_char|].
    constructor; [now apply Matches_Plus_Class|].
    constructor; [now apply Matches_is_char|].
    now apply Matches_Plus_Class.
Qed.

(* ----------------------------------------------------------------- *)
(** ** Laws of the monad, pointwise in the history *)

Lemma bind_ext {A B} (m : M A) (f g : A -> M B) (h : History) :
  (forall a h', f a h' = g a h') -> bind m f h = bind m g h.
Proof.
  intro E. unfold bind. destruct (m h) as [[a|e] h']; [apply E|reflexivity].
Qed.

Lemma bind_assoc {A B C} (m : M A) (f : A -> M B) (g : B -> M C)
    (h : History) :
  bind (bind m f) g h = bind m (fun a => bind (f a) g) h.
Proof. unfold bind. destruct (m h) as [[a|e] h']; reflexivity. Qed.

Lemma bind_ret {A B} (a : A) (f : A -> M B) (h : History) :
  bind (ret a) f h = f a h.
Proof. reflexivity. Qed.

Lemma try_catch_ext {A} (m1 m2 : M A) (k : Thrown -> M A) (h : History) :
  m1 h = m2 h -> try_catch m1 k h = try_catch m2 k h.
Proof. intro E. unfold try_catch. now rewrite E. Qed.

Lemma try_catch_bind {A B} (m : M A) (f : A -> M B) (k : Thrown -> M B)
    (h : History) :
  try_catch (bind m f) k h =
  match m h with
  | (Returned a, h') => try_catch (f a) k h'
  | (Threw e, h') => k e h'
  end.
Proof. unfold try_catch, bind. destruct (m h) as [[a|e] h']; reflexivity. Qed.

(* ----------------------------------------------------------------- *)
(** ** [send] and [checkConnection] run their list of steps *)

Section Refinement.

Variable w : World.
Variable config : SMTPConfig.

Lemma exec_command {B} (s : Socket) (c : string) (rest : list Step)
    (k : Socket -> M B) (h : History) :
  bind (exec w s (Command c :: rest)) k h
  = bind (sendCommand w s c) (fun _ => bind (exec w s rest) k) h.
Proof.
  simpl. rewrite !bind_assoc. apply bind_ext. intros ? ?. reflexivity.
Qed.

Lemma exec_app {B} (l1 l2 : list Step) :
  forall (s : Socket) (k : Socket -> M B) (h : History),
    bind (exec w s (l1 ++ l2)) k h
    = bind (exec w s l1) (fun s' => bind (exec w s' l2) k) h.
Proof.
  induction l1 as [|st l1 IH]; intros s k h; simpl.
  - reflexivity.
  - rewrite !bind_assoc. apply bind_ext. intros s' h'. apply IH.
Qed.

Lemma exec_rcpt {B} (emails : list string) (rest : list Step) (s : Socket)
    (k : Socket -> M B) :
  forall h,
    bind (exec w s (rcpt_steps emails ++ rest)) k h
    = bind (for_of emails
              (fun email => sendCommand w s (rcpt_to email) ;;; ret tt))
        (fun _ => bind (exec w s rest) k) h.
Proof.
  induction emails as [|email emails IH]; intro h.
  - reflexivity.
  - change (rcpt_steps (email :: emails) ++ rest)%list
      with (Command (rcpt_to email) :: (rcpt_steps emails ++ rest))%list.
    rewrite exec_command. simpl for_of. rewrite !bind_assoc.
    apply bind_ext. intros _ h'. rewrite bind_ret. apply IH.
Qed.

Lemma exec_optional_rcpt {B} (o : option Addresses) (rest : list Step)
    (s : Socket) (k : Socket -> M B) (h : History) :
  bind (exec w s (rcpt_steps (optional_addresses o) ++ rest)) k h
  = bind (match present_addresses o with
          | Some a =>
              for_of (as_array a)
                (fun email => sendCommand w s (rcpt_to email) ;;; ret tt)
          | None => ret tt
          end)
      (fun _ => bind (exec w s rest) k) h.
Proof.
  unfold optional_addresses. destruct (present_addresses o) as [a|].
  - apply exec_rcpt.
  - reflexivity.
Qed.

(** The handshake shared by [send] and [checkConnection]. *)
Lemma exec_handshake {B} (s : Socket) (rest : list Step)
    (k : Socket -> M B) (h : History) :
  bind (exec w s (handshake_steps config ++ rest)) k h
  = bind (sendCommand w s "EHLO localhost")
      (fun _ =>
         bind (if wants_starttls config
               then
                 sendCommand w s "STARTTLS" ;;;
                 socket <- upgradeToTLS w s ;;
                 sendCommand w socket "EHLO localhost" ;;;
                 ret socket
               else ret s)
           (fun socket =>
              bind (match auth config with
                    | Some _ => authenticate w config socket
                    | None => ret tt
                    end)
                (fun _ => bind (exec w socket rest) k))) h.
Proof.
  unfold handshake_steps, starttls_steps, auth_steps, authenticate.
  rewrite <- app_comm_cons, exec_command. apply bind_ext. intros _ h1.
  rewrite <- app_assoc.
  destruct (wants_starttls config).
  - rewrite <- !app_comm_cons, exec_command, !bind_assoc.
    apply bind_ext. intros _ h2. simpl app.
    change (exec w s (Upgrade :: ?l)) with
      (socket' <- upgradeToTLS w s ;; exec w socket' l).
    rewrite !bind_assoc. apply bind_ext. intros s' h3.
    rewrite exec_command, !bind_assoc. apply bind_ext. intros _ h4.
    rewrite bind_ret.
    destruct (auth config) as [a|]; [|reflexivity].
    rewrite <- !app_comm_cons, exec_command, !bind_assoc.
    apply bind_ext. intros _ h5.
    rewrite exec_command, !bind_assoc. apply bind_ext. intros _ h6.
    rewrite exec_command, !bind_assoc. apply bind_ext. intros _ h7.
    reflexivity.
  - simpl app. rewrite bind_ret.
    destruct (auth config) as [a|]; [|reflexivity].
    rewrite <- !app_comm_cons, exec_command, !bind_assoc.
    apply bind_ext. intros _ h5.
    rewrite exec_command, !bind_assoc. apply bind_ext. intros _ h6.
    rewrite exec_command, !bind_assoc. apply bind_ext. intros _ h7.
    reflexivity.
Qed.

Lemma checkConnection_exec (h : History) :
  checkConnection w config h
  = try_catch
      (socket' <- (socket <- createConnection w config ;;
                   exec w socket (check_steps config)) ;;
       emit (EvDestroy socket') ;;;
       ret true)
      catch_check h.
Proof.
  unfold checkConnection. apply try_catch_ext. rewrite bind_assoc.
  apply bind_ext. intros s h1. unfold check_steps.
  rewrite exec_handshake. apply bind_ext. intros _ h2.
  apply bind_ext. intros s' h3. apply bind_ext. intros _ h4.
  rewrite exec_command. apply bind_ext. intros _ h5. reflexivity.
Qed.

Lemma send_exec (message : EmailMessage) (h : History) :
  find (fun email => negb (validateEmail email)) (as_array (to message))
    = None ->
  validateEmail (from message) = true ->
  send w config message h
  = try_catch
      (socket' <- (socket <- createConnection w config ;;
                   exec w socket (send_steps config message)) ;;
       emit (EvDestroy socket') ;;;
       id <- generateMessageId w ;;
       ret {| success := true; messageId := Some id; error := None |})
      catch_send h.
Proof.
  intros Hto Hfrom. unfold send. rewrite Hto, Hfrom. simpl negb. cbv iota.
  apply try_catch_ext. rewrite bind_assoc.
  apply bind_ext. intros s h1. unfold send_steps.
  rewrite exec_handshake. apply bind_ext. intros _ h2.
  apply bind_ext. intros s' h3. apply bind_ext. intros _ h4.
  rewrite exec_command. apply bind_ext. intros _ h5.
  unfold recipients, rcpt_steps. rewrite !map_app, <- !app_assoc.
  rewrite (exec_rcpt (as_array (to message))). apply bind_ext. intros _ h6.
  rewrite exec_optional_rcpt. apply bind_ext. intros _ h7.
  rewrite exec_optional_rcpt. apply bind_ext. intros _ h8.
  rewrite exec_command. apply bind_ext. intros _ h9.
  simpl exec. rewrite !bind_assoc. apply bind_ext. intros content h10.
  rewrite !bind_assoc. apply bind_ext. intros _ h11.
  rewrite bind_ret, !bind_assoc. apply bind_ext. intros _ h12.
  reflexivity.
Qed.

End Refinement.

(* ----------------------------------------------------------------- *)
(** ** What a step and a list of steps do *)

Section Runs.

Variable w : World.
Variable config : SMTPConfig.

Lemma sendCommand_run (s : Socket) (c : string) (h : History) :
  sendCommand w s c h =
  match reply_to w h s c with
  | Some r =>
      if ge_400 (parseInt (js_substring 0 3 r))
      then (Threw (JsError ("SMTP Error "
                              ++ render_number (parseInt (js_substring 0 3 r))
                              ++ ": " ++ trim r)),
            (h ++ [EvWrite s (c ++ CRLF); EvResponse s r])%list)
      else (Returned (trim r),
            (h ++ [EvWrite s (c ++ CRLF); EvResponse s r])%list)
  | None =>
      (Threw (JsError ("Command timeout: " ++ c)),
       (h ++ [EvWrite s (c ++ CRLF); EvTimeout s c])%list)
  end.
Proof.
  unfold sendCommand, reply_to, bind, emit, history, throw, ret.
  destruct (onData "" _) as [r|]; [|now rewrite <- app_assoc].
  destruct (ge_400 _); now rewrite <- app_assoc.
Qed.

Lemma buildEmailContent_returns (message : EmailMessage) (h : History) :
  exists content, buildEmailContent w message h = (Returned content, h).
Proof.
  unfold buildEmailContent, toUTCString, generateMessageId.
  unfold bind, history, ret. eexists. reflexivity.
Qed.

Lemma command_StepRun (s : Socket) (c : string) (h : History) :
  exists evs o,
    (sendCommand w s c ;;; ret s) h = (o, (h ++ evs)%list) /\
    StepRun w s (Command c) h evs o.
Proof.
  unfold bind at 1. rewrite sendCommand_run.
  destruct (reply_to w h s c) as [r|] eqn:Er.
  - destruct (ge_400 _) eqn:Ec; do 2 eexists; (split; [reflexivity|]);
      now constructor.
  - do 2 eexists. split; [reflexivity | now constructor].
Qed.

Lemma step_StepRun (s : Socket) (st : Step) (h : History) :
  exists evs o,
    step w s st h = (o, (h ++ evs)%list) /\ StepRun w s st h evs o.
Proof.
  destruct st as [c| |message]; simpl.
  - apply command_StepRun.
  - unfold upgradeToTLS, bind, history, emit, throw, ret.
    destruct (net_upgrade w h) as [|e|] eqn:Eu.
    + do 2 eexists. rewrite <- app_assoc. split; [reflexivity|].
      now constructor.
    + do 2 eexists. rewrite <- app_assoc. split; [reflexivity|].
      now constructor.
    + do 2 eexists. split; [reflexivity | now constructor].
  - destruct (buildEmailContent_returns message h) as [content Eb].
    unfold bind at 1. rewrite Eb.
    destruct (command_StepRun s (content ++ CRLF ++ ".") h)
      as (evs & o & E & R).
    exists evs, o. split; [exact E|].
    econstructor; [rewrite Eb; reflexivity | exact R].
Qed.

Lemma exec_Runs (steps : list Step) :
  forall (s : Socket) (h : History),
  exists evs o,
    exec w s steps h = (o, (h ++ evs)%list) /\ Runs w s steps h evs o.
Proof.
  induction steps as [|st rest IH]; intros s h; simpl.
  - exists [], (Returned s). rewrite app_nil_r. split; [reflexivity|].
    constructor.
  - destruct (step_StepRun s st h) as (evs1 & o1 & E1 & R1).
    unfold bind. rewrite E1. destruct o1 as [s'|e].
    + destruct (IH s' (h ++ evs1)%list) as (evs2 & o & E2 & R2).
      exists (evs1 ++ evs2)%list, o. rewrite app_assoc.
      split; [exact E2 | econstructor; eassumption].
    + exists evs1, (Threw e). split; [reflexivity | now constructor].
Qed.

Lemma call_CallRuns (steps : list Step) :
  exists tr o,
    (socket <- createConnection w config ;; exec w socket steps) []
    = (o, tr) /\
    CallRuns w config steps tr o.
Proof.
  unfold createConnection, bind, emit, throw, ret. simpl app.
  fold (initial_socket config).
  destruct (net_connect w) as [|e|] eqn:En.
  - destruct (exec_Runs steps (initial_socket config)
                [EvConnect (initial_socket config) Established])
      as (evs & o & E & R).
    do 2 eexists. split; [exact E|]. simpl. now constructor.
  - do 2 eexists. split; [reflexivity | now constructor].
  - do 2 eexists. split; [reflexivity | now constructor].
Qed.

End Runs.

(* ----------------------------------------------------------------- *)
(** ** The shape of a history: steps that went well, then at most one
    failure *)

Lemma first_failure_unique (pre pre' tail post : History) (ev x : Event) :
  (pre ++ ev :: tail = pre' ++ x :: post)%list ->
  all_ok pre = true ->
  is_failure x = true ->
  forallb is_console tail = true ->
  pre = pre' /\ ev = x /\ tail = post.
Proof.
  revert pre'. induction pre as [|a pre IH]; intros pre' E Hok Hx Htail.
  - destruct pre' as [|y pre']; simpl in E; inversion E; subst.
    + now repeat split.
    + rewrite forallb_app in Htail. apply andb_true_iff in Htail as [_ Ht].
      simpl in Ht. apply andb_true_iff in Ht as [Hc _].
      destruct x; simpl in Hc, Hx; discriminate.
  - simpl in Hok. apply andb_true_iff in Hok as [Ha Hok].
    destruct pre' as [|y pre']; simpl in E; inversion E; subst.
    + rewrite Hx in Ha. discriminate.
    + destruct (IH pre' H1 Hok Hx Htail) as (-> & -> & ->).
      now repeat split.
Qed.

Lemma all_ok_app (h1 h2 : History) :
  all_ok (h1 ++ h2) = all_ok h1 && all_ok h2.
Proof. apply forallb_app. Qed.

Lemma after_failure_console (ev : Event) :
  forallb is_console (after_failure ev) = true.
Proof. destruct ev as [| ? [| |]| | | | |]; reflexivity. Qed.

Section Shape.

Variable w : World.
Variable config : SMTPConfig.

Lemma StepRun_ends (s : Socket) (st : Step) (h : History)
    (evs : list Event) (o : Outcome Socket) :
  StepRun w s st h evs o -> ends_as evs o.
Proof.
  induction 1 as [c h r Er Ec|c h r Er Ec|c h Er|h Eu|h e Eu|h Eu| ];
    simpl; try assumption.
  - unfold all_ok. simpl. now rewrite Ec.
  - exists [EvWrite s (c ++ CRLF)], (EvResponse s r). now repeat split.
  - exists [EvWrite s (c ++ CRLF)], (EvTimeout s c). now repeat split.
  - reflexivity.
  - exists [], (EvUpgrade s (Failed e)). now repeat split.
  - exists [], (EvUpgrade s TimedOut). now repeat split.
Qed.

Lemma Runs_ends (s : Socket) (steps : list Step) (h : History)
    (evs : list Event) (o : Outcome Socket) :
  Runs w s steps h evs o -> ends_as evs o.
Proof.
  induction 1 as [s h|s st rest h evs e R|s st rest h evs1 s' evs2 o R1 R2 IH].
  - reflexivity.
  - now apply StepRun_ends in R.
  - apply StepRun_ends in R1. simpl in R1. destruct o as [s''|e]; simpl in *.
    + rewrite all_ok_app, R1, IH. reflexivity.
    + destruct IH as (pre & ev & -> & Hpre & Hev & ->).
      exists (evs1 ++ pre)%list, ev. rewrite all_ok_app, R1, Hpre.
      rewrite <- app_assoc. now repeat split.
Qed.

Lemma CallRuns_ends (steps : list Step) (tr : list Event)
    (o : Outcome Socket) :
  CallRuns w config steps tr o -> ends_as tr o.
Proof.
  destruct 1 as [e En|En|evs o En R].
  - exists [], (EvConnect (initial_socket config) (Failed e)).
    now repeat split.
  - exists [], (EvConnect (initial_socket config) TimedOut).
    now repeat split.
  - apply Runs_ends in R. destruct o as [s'|e]; simpl in *.
    + exact R.
    + destruct R as (pre & ev & -> & Hpre & Hev & ->).
      exists (EvConnect (initial_socket config) Established :: pre), ev.
      now repeat split.
Qed.

Lemma run_RunOf (call : Call) : RunOf w config call (run w config call).
Proof.
  destruct call as [message|]; simpl.
  - destruct (first_invalid message) as [email|] eqn:Eto.
    + unfold send, try_catch. unfold first_invalid in Eto. rewrite Eto.
      simpl. eapply Run_invalid_to; [reflexivity|]. exact Eto.
    + destruct (validateEmail (from message)) eqn:Efrom.
      * rewrite send_exec by assumption.
        destruct (call_CallRuns w config (send_steps config message))
          as (tr & o & E & R).
        assert (Hs : steps_succeed w config (send_steps config message)
                     = returned (o, tr))
          by (unfold steps_succeed; now rewrite E).
        rewrite try_catch_bind, E. destruct o as [s|e]; simpl.
        -- eapply Run_completed; try eassumption.
           ++ simpl. now rewrite Eto.
           ++ reflexivity.
           ++ intros m _. eexists. reflexivity.
        -- pose proof (Run_failed w config (Send message) tr e
                         (SendAnswer (failure (message_of e)))) as X.
           simpl in X. rewrite Eto, app_nil_r in X.
           apply X; [exact Efrom | exact Hs | exact R | reflexivity].
      * unfold send, try_catch. unfold first_invalid in Eto.
        rewrite Eto, Efrom. simpl. now eapply Run_invalid_from.
  - rewrite checkConnection_exec.
    destruct (call_CallRuns w config (check_steps config))
      as (tr & o & E & R).
    assert (Hs : steps_succeed w config (check_steps config)
                 = returned (o, tr))
      by (unfold steps_succeed; now rewrite E).
    rewrite try_catch_bind, E. destruct o as [s|e]; simpl.
    + eapply Run_completed; try eassumption; try reflexivity.
      intros m Hm. discriminate.
    + apply (Run_failed w config Check tr e); try assumption; reflexivity.
Qed.

End Shape.

(* ----------------------------------------------------------------- *)
(** ** [parseInt] on the first three characters of a reply *)

Ltac each_char c := destruct c as [[] [] [] [] [] [] [] []].

Lemma digit_in_10_decimal (c : ascii) :
  digit_in 10 c = option_map Z.to_N (decimal_digit c).
Proof. each_char c; reflexivity. Qed.

Lemma decimal_digit_plain (c : ascii) (z : Z) :
  decimal_digit c = Some z ->
  is_space c = false /\ Ascii.eqb c "-" = false /\ Ascii.eqb c "+" = false
  /\ Ascii.eqb c "x" = false /\ Ascii.eqb c "X" = false.
Proof. each_char c; intro H; try discriminate H; now repeat split. Qed.

Lemma decimal_digit_range (c : ascii) (z : Z) :
  decimal_digit c = Some z -> (0 <= z <= 9)%Z.
Proof.
  unfold decimal_digit.
  destruct ((48 <=? N_of_ascii c)%N && (N_of_ascii c <=? 57)%N) eqn:E;
    [|discriminate].
  apply andb_true_iff in E as [E1 E2].
  apply N.leb_le in E1, E2. intro H. inversion H. lia.
Qed.

Lemma digit_in_bound (radix : N) (c : ascii) (d : N) :
  digit_in radix c = Some d -> (d < radix)%N.
Proof.
  unfold digit_in. destruct (digit_value c) as [v|]; [|discriminate].
  destruct (v <? radix)%N eqn:E; [|discriminate].
  intro H. inversion H; subst. now apply N.ltb_lt.
Qed.

(** The value read from [l] stays below what its length allows. *)
Lemma parse_digits_bound (radix : N) (l : list ascii) :
  (0 < radix)%N ->
  forall (acc : option N) (n : N),
    parse_digits radix acc l = Some n ->
    (n < (match acc with Some a => a + 1 | None => 1 end)
           * radix ^ N.of_nat (List.length l))%N.
Proof.
  intro Hradix.
  induction l as [|c l IH]; intros acc n H; simpl in H.
  - subst acc. simpl. lia.
  - destruct (digit_in radix c) as [d|] eqn:Ed.
    + apply digit_in_bound in Ed. apply IH in H.
      change (List.length (c :: l)) with (S (List.length l)).
      rewrite Nat2N.inj_succ, N.pow_succ_r', N.mul_assoc.
      eapply N.lt_le_trans; [exact H|]. apply N.mul_le_mono_r.
      destruct acc as [a|]; cbv beta iota;
        [rewrite N.mul_add_distr_r | rewrite N.mul_1_l]; lia.
    + subst acc.
      assert (0 < radix ^ N.of_nat (List.length (c :: l)))%N.
      { apply N.neq_0_lt_0. apply N.pow_nonzero. lia. }
      cbv beta iota. nia.
Qed.

Lemma drop_spaces_length (l : list ascii) :
  (List.length (drop_spaces l) <= List.length l)%nat /\
  (List.length (drop_spaces l) = List.length l -> drop_spaces l = l).
Proof.
  induction l as [|c l [IH1 IH2]]; simpl; [now split|].
  destruct (is_space c); simpl; split; try lia; reflexivity.
Qed.

Lemma strip_sign_cases (l : list ascii) :
  (strip_sign l = (false, l)) \/
  (exists negative l', strip_sign l = (negative, l') /\
                       List.length l = S (List.length l')).
Proof.
  destruct l as [|c l]; simpl; [now left|].
  destruct (Ascii.eqb c "-"); [right; now exists true, l|].
  destruct (Ascii.eqb c "+"); [right; now exists false, l|].
  now left.
Qed.

Lemma strip_hex_prefix_cases (l : list ascii) :
  (strip_hex_prefix l = (10%N, l)) \/
  (exists l', strip_hex_prefix l = (16%N, l') /\
              List.length l = S (S (List.length l'))).
Proof.
  destruct l as [|c1 [|c2 l]]; simpl; try now left.
  destruct (Ascii.eqb c1 "0" && (Ascii.eqb c2 "x" || Ascii.eqb c2 "X"));
    [right; now exists l | now left].
Qed.

Lemma parse_three_digits (a b c : ascii) (n : N) :
  parse_digits 10 None [a; b; c] = Some n ->
  (400 <= n)%N ->
  exists x y z,
    decimal_digit a = Some x /\ decimal_digit b = Some y /\
    decimal_digit c = Some z /\ Z.of_N n = (100 * x + 10 * y + z)%Z.
Proof.
  cbn [parse_digits]. rewrite !digit_in_10_decimal.
  destruct (decimal_digit a) as [x|] eqn:Ea; cbn [option_map];
    [|discriminate].
  pose proof (decimal_digit_range _ _ Ea) as Rx.
  assert (Hx : Z.of_N (Z.to_N x) = x) by (apply Z2N.id; lia).
  destruct (decimal_digit b) as [y|] eqn:Eb; cbn [option_map];
    [|intros E1 E2; inversion E1; subst n; exfalso; lia].
  pose proof (decimal_digit_range _ _ Eb) as Ry.
  assert (Hy : Z.of_N (Z.to_N y) = y) by (apply Z2N.id; lia).
  destruct (decimal_digit c) as [z|] eqn:Ec; cbn [option_map];
    [|intros E1 E2; inversion E1; subst n; exfalso; lia].
  pose proof (decimal_digit_range _ _ Ec) as Rz.
  assert (Hz : Z.of_N (Z.to_N z) = z) by (apply Z2N.id; lia).
  intros E1 E2. inversion E1. exists x, y, z. repeat split. lia.
Qed.

Lemma substring_0_3 (s : string) :
  (String.length (js_substring 0 3 s) <= 3)%nat /\
  (String.length (js_substring 0 3 s) = 3%nat ->
   exists a b c rest,
     s = String a (String b (String c rest)) /\
     js_substring 0 3 s = String a (String b (String c ""))).
Proof.
  unfold js_substring. simpl.
  destruct s as [|a [|b [|c rest]]]; simpl; split; try lia; try discriminate.
  - destruct rest; simpl; lia.
  - intros _. exists a, b, c, rest. split; [reflexivity|].
    now destruct rest.
Qed.

Lemma chars_length (s : string) : List.length (chars s) = String.length s.
Proof. induction s; simpl; [reflexivity|]. unfold chars in *. simpl. lia. Qed.

(** Three leading digits are read as the number they spell. *)
Lemma status_code_parseInt (r : string) (code : Z) :
  status_code r = Some code ->
  parseInt (js_substring 0 3 r) = Some code.
Proof.
  destruct r as [|a [|b [|c rest]]]; try discriminate.
  unfold status_code. cbn [chars list_ascii_of_string].
  destruct (decimal_digit a) as [x|] eqn:Ea; try discriminate.
  destruct (decimal_digit b) as [y|] eqn:Eb; try discriminate.
  destruct (decimal_digit c) as [z|] eqn:Ec; try discriminate.
  intro Hcode.
  destruct (decimal_digit_plain _ _ Ea) as (Sa & Ma & Pa & _ & _).
  destruct (decimal_digit_plain _ _ Eb) as (_ & _ & _ & Xb & XXb).
  pose proof (decimal_digit_range _ _ Ea).
  pose proof (decimal_digit_range _ _ Eb).
  pose proof (decimal_digit_range _ _ Ec).
  replace (js_substring 0 3 (String a (String b (String c rest))))
    with (String a (String b (String c "")))
    by (unfold js_substring; simpl; now destruct rest).
  unfold parseInt.
  change (chars (String a (String b (String c "")))) with [a; b; c].
  simpl drop_spaces. rewrite Sa. simpl strip_sign. rewrite Ma, Pa.
  simpl strip_hex_prefix. rewrite Xb, XXb, andb_false_r.
  cbn [parse_digits]. rewrite !digit_in_10_decimal, Ea, Eb, Ec.
  cbn [option_map]. rewrite <- Hcode. f_equal. lia.
Qed.

(** A reply is rejected only when it starts with three decimal digits,
    and then on the number they spell. *)
Lemma rejected_status (r : string) :
  ge_400 (parseInt (js_substring 0 3 r)) = true ->
  exists code, status_code r = Some code /\ (400 <= code)%Z.
Proof.
  destruct (substring_0_3 r) as [Hlen Hthree].
  remember (js_substring 0 3 r) as s eqn:Es.
  unfold parseInt.
  pose proof (drop_spaces_length (chars s)) as [Hd1 Hd2].
  rewrite chars_length in Hd1, Hd2.
  destruct (strip_sign_cases (drop_spaces (chars s)))
    as [Hs|(neg & l1 & Hs & Hl1)]; rewrite Hs.
  - destruct (strip_hex_prefix_cases (drop_spaces (chars s)))
      as [Hx|(l2 & Hx & Hl2)]; rewrite Hx.
    + destruct (parse_digits 10 None (drop_spaces (chars s))) as [n|] eqn:Ep;
        [|discriminate].
      simpl. intro H. apply Z.leb_le in H.
      pose proof (parse_digits_bound 10 _ ltac:(lia) _ _ Ep) as Hb.
      assert (Hlen3 : List.length (drop_spaces (chars s)) = 3%nat).
      { destruct (List.length (drop_spaces (chars s))) as [|[|[|[|k]]]];
          simpl in Hb; try lia. }
      assert (String.length s = 3%nat) as Hs3 by lia.
      destruct (Hthree Hs3) as (a & b & c & rest & Hr & Hsub).
      rewrite Hd2 in Ep by lia. rewrite Hsub in Ep.
      change (chars (String a (String b (String c "")))) with [a; b; c] in Ep.
      destruct (parse_three_digits a b c n Ep ltac:(lia))
        as (x & y & z & Ea & Eb & Ec & Hn).
      exists (Z.of_N n). split; [|assumption].
      unfold status_code. rewrite Hr. cbn [chars list_ascii_of_string].
      rewrite Ea, Eb, Ec. now rewrite Hn.
    + destruct (parse_digits 16 None l2) as [n|] eqn:Ep; [|discriminate].
      simpl. intro H. apply Z.leb_le in H.
      pose proof (parse_digits_bound 16 _ ltac:(lia) _ _ Ep) as Hb.
      destruct (List.length l2) as [|[|k]]; simpl in Hb; lia.
  - destruct (strip_hex_prefix_cases l1) as [Hx|(l2 & Hx & Hl2)]; rewrite Hx.
    + destruct (parse_digits 10 None l1) as [n|] eqn:Ep; [|discriminate].
      pose proof (parse_digits_bound 10 _ ltac:(lia) _ _ Ep) as Hb.
      destruct neg; simpl; intro H; apply Z.leb_le in H; [lia|].
      destruct (List.length l1) as [|[|[|k]]]; simpl in Hb; lia.
    + destruct (parse_digits 16 None l2) as [n|] eqn:Ep; [|discriminate].
      pose proof (parse_digits_bound 16 _ ltac:(lia) _ _ Ep) as Hb.
      destruct neg; simpl; intro H; apply Z.leb_le in H; [lia|].
      destruct (List.length l2) as [|[|k]]; simpl in Hb; lia.
Qed.


Lemma rejected_inv (r : string) :
  ge_400 (parseInt (js_substring 0 3 r)) = true ->
  exists code,
    status_code r = Some code /\
    parseInt (js_substring 0 3 r) = Some code /\ (400 <= code)%Z.
Proof.
  intro H. destruct (rejected_status r H) as (code & Hs & Hc).
  exists code. repeat split; try assumption. now apply status_code_parseInt.
Qed.

(* ================================================================= *)
(** * The claims *)

(* ----------------------------------------------------------------- *)
(** ** Address validation *)

(** C3, as stated, fails: "user@.com" has a non-empty local part without
    white space, an "@" and a domain without white space that contains a
    dot, and [validateEmail] rejects it. *)
Lemma validateEmail_loose_counterexample :
  ~ (validateEmail "user@.com" = true <-> loosely_valid "user@.com").
Proof.
  intros [_ H].
  assert (L : loosely_valid "user@.com").
  { exists "user", ".com". repeat split; try reflexivity. discriminate. }
  specialize (H L). vm_compute in H. discriminate.
Qed.

(** C3, amended: [validateEmail] is a total function to [bool]; it returns
    [true] exactly on the strings made of a non-empty local part free of
    white space and "@", an "@", and a domain free of white space and "@"
    in which a dot has at least one character on each side; the six sample
    addresses get the stated verdicts. *)
Theorem validateEmail_spec :
  (forall s, validateEmail s = true <-> strictly_valid s) /\
  validateEmail "user@domain.com" = true /\
  validateEmail "user.name+tag@domain.co.uk" = true /\
  validateEmail "invalid" = false /\
  validateEmail "@domain.com" = false /\
  validateEmail "user@" = false /\
  validateEmail "" = false.
Proof.
  split; [exact validateEmail_strictly|]. repeat split; reflexivity.
Qed.

(** What the pattern accepts is also valid in the loose reading. *)
Lemma strictly_loosely (s : string) : strictly_valid s -> loosely_valid s.
Proof.
  intros (lp & lb & rs & -> & [Hl1 Hl2] & [Hb1 Hb2] & [Hr1 Hr2]).
  assert (Hweak : forall l, forallb not_space_at l = true ->
                            forallb (fun c => negb (is_space c)) l = true).
  { induction l as [|c l IH]; simpl; [reflexivity|].
    intro H. apply andb_true_iff in H as [Hc Hl]. rewrite (IH Hl).
    unfold not_space_at in Hc. destruct (is_space c); [discriminate|].
    reflexivity. }
  exists lp, (lb ++ "." ++ rs). repeat split; try assumption.
  - now apply Hweak.
  - unfold no_space. rewrite !chars_app, !forallb_app.
    rewrite (Hweak _ Hb2), (Hweak _ Hr2). reflexivity.
  - unfold has_dot. rewrite !chars_app, !existsb_app. simpl.
    now rewrite orb_true_r.
Qed.

(* ----------------------------------------------------------------- *)
(** ** Classification of replies *)

(** C10: once a complete reply has arrived, [sendCommand] resolves with
    the trimmed reply exactly when [parseInt] of its first three
    characters is [NaN] or below 400; the verdict is a function of these
    three characters; and a reply that does not start with three digits
    is always accepted. *)
Theorem sendCommand_classifies (w : World) (socket : Socket)
    (command : string) (h : History) (response : string) :
  reply_to w h socket command = Some response ->
  let code := parseInt (js_substring 0 3 response) in
  let accepted :=
    (Returned (trim response),
     (h ++ [EvWrite socket (command ++ CRLF);
            EvResponse socket response])%list) in
  (sendCommand w socket command h = accepted <->
   code = None \/ exists z, code = Some z /\ (z < 400)%Z) /\
  (status_code response = None ->
   sendCommand w socket command h = accepted) /\
  (forall w' socket' command' h' response',
     reply_to w' h' socket' command' = Some response' ->
     js_substring 0 3 response' = js_substring 0 3 response ->
     returned (sendCommand w' socket' command' h')
     = returned (sendCommand w socket command h)).
Proof.
  intros Hr code accepted. subst accepted.
  assert (Hrun : sendCommand w socket command h =
                 if ge_400 code
                 then (Threw (JsError ("SMTP Error " ++ render_number code
                                         ++ ": " ++ trim response)),
                       (h ++ [EvWrite socket (command ++ CRLF);
                              EvResponse socket response])%list)
                 else (Returned (trim response),
                       (h ++ [EvWrite socket (command ++ CRLF);
                              EvResponse socket response])%list)).
  { rewrite sendCommand_run, Hr. reflexivity. }
  repeat split.
  - rewrite Hrun. destruct code as [z|] eqn:Ec; simpl.
    + destruct (400 <=? z)%Z eqn:Ez; [discriminate|].
      intros _. right. exists z. split; [reflexivity|].
      now apply Z.leb_gt.
    + intros _. now left.
  - rewrite Hrun. intros [Hn|(z & Hz & Hlt)]; rewrite ?Hn, ?Hz; simpl.
    + reflexivity.
    + apply Z.leb_gt in Hlt. now rewrite Hlt.
  - intro Hs. rewrite Hrun. destruct (ge_400 code) eqn:Eg; [|reflexivity].
    apply rejected_status in Eg as (c & Hc & _). congruence.
  - intros w' socket' command' h' response' Hr' Hsub.
    rewrite Hrun, sendCommand_run, Hr', Hsub. fold code.
    now destruct (ge_400 code).
Qed.

(** C10 at a server whose reply to EHLO is "hello there": the reply is
    accepted. *)
Lemma sendCommand_classifies_witness :
  sendCommand world_garbled TlsSocket "EHLO localhost"
    [EvConnect TlsSocket Established]
  = (Returned "hello there",
     [EvConnect TlsSocket Established;
      EvWrite TlsSocket ("EHLO localhost" ++ CRLF);
      EvResponse TlsSocket ("hello there" ++ CRLF)]).
Proof.
  destruct (sendCommand_classifies world_garbled TlsSocket "EHLO localhost"
              [EvConnect TlsSocket Established] ("hello there" ++ CRLF)
              eq_refl) as (_ & H & _).
  exact (H eq_refl).
Defined.

(* ----------------------------------------------------------------- *)
(** ** Facts about whole calls *)

Lemma all_ok_no_failure (l pre post : History) (x : Event) :
  all_ok l = true -> l = (pre ++ x :: post)%list -> is_failure x = false.
Proof.
  intros H ->. rewrite all_ok_app in H. apply andb_true_iff in H as [_ H].
  simpl in H. apply andb_true_iff in H as [H _].
  now destruct (is_failure x).
Qed.

Section Calls.

Variable w : World.
Variable config : SMTPConfig.

Lemma StepRun_dialogue (s : Socket) (st : Step) (h : History)
    (evs : list Event) (o : Outcome Socket) :
  StepRun w s st h evs o -> forallb is_dialogue evs = true.
Proof. induction 1; try reflexivity; assumption. Qed.

Lemma Runs_dialogue (s : Socket) (steps : list Step) (h : History)
    (evs : list Event) (o : Outcome Socket) :
  Runs w s steps h evs o -> forallb is_dialogue evs = true.
Proof.
  induction 1 as [| ? ? ? ? ? ? R | ? ? ? ? ? ? ? ? R1 R2 IH].
  - reflexivity.
  - now apply StepRun_dialogue in R.
  - apply StepRun_dialogue in R1. now rewrite forallb_app, R1, IH.
Qed.

Lemma CallRuns_head (steps : list Step) (tr : list Event)
    (o : Outcome Socket) :
  CallRuns w config steps tr o ->
  exists evs,
    tr = EvConnect (initial_socket config) (net_connect w) :: evs /\
    forallb is_dialogue evs = true.
Proof.
  destruct 1 as [e En|En|evs o En R]; rewrite En.
  - now exists [].
  - now exists [].
  - exists evs. split; [reflexivity|]. now apply Runs_dialogue in R.
Qed.

Lemma dialogue_no_destroy (evs : list Event) :
  forallb is_dialogue evs = true -> existsb is_destroy evs = false.
Proof.
  induction evs as [|ev evs IH]; simpl; [reflexivity|].
  intro H. apply andb_true_iff in H as [Hev Hevs]. rewrite (IH Hevs).
  unfold is_dialogue in Hev. apply andb_true_iff in Hev as [_ Hd].
  now destruct (is_destroy ev).
Qed.

(** The trace and the answer of a call, in the three ways it can go. *)
Lemma call_cases (call : Call) :
  exists a,
    answer_of w config call = Returned a /\
    ((succeeded a = false /\ trace_of w config call = []
      /\ passes_validation call = false) \/
     (succeeded a = true /\ passes_validation call = true /\
      steps_succeed w config (steps_of config call) = true /\
      exists tr s,
        trace_of w config call = (tr ++ [EvDestroy s])%list /\
        CallRuns w config (steps_of config call) tr (Returned s)) \/
     (succeeded a = false /\ passes_validation call = true /\
      steps_succeed w config (steps_of config call) = false /\
      exists tr e,
        trace_of w config call = (tr ++ caught call)%list /\
        CallRuns w config (steps_of config call) tr (Threw e) /\
        fails_with (message_of e) a)).
Proof.
  unfold answer_of, trace_of.
  destruct (run_RunOf w config call)
    as [message email -> Hto|message -> Hto Hfrom|tr s a Hv Hs R Ha Hid
        |tr e a Hv Hs R Ha].
  - eexists. split; [reflexivity|]. left. simpl. now rewrite Hto.
  - eexists. split; [reflexivity|]. left. simpl. now rewrite Hto.
  - exists a. split; [reflexivity|]. right. left. repeat split; try assumption.
    now exists tr, s.
  - exists a. split; [reflexivity|]. right. right.
    repeat split; try assumption.
    + destruct call, a; simpl in Ha; try (now subst); try contradiction.
    + now exists tr, e.
Qed.

End Calls.

(* ----------------------------------------------------------------- *)
(** ** Validation comes first *)

(** C1: when [from] or an element of [to] fails [validateEmail], [send]
    returns the failure "Invalid email address: <addr>" or "Invalid from
    email address: <addr>" for such an address and the history stays
    empty (no socket is opened); when [to] and [from] pass, [send] goes on
    to the connection attempt whatever [cc] and [bcc] contain. *)
Theorem send_validates_to_and_from (w : World) (config : SMTPConfig)
    (message : EmailMessage) :
  ((validateEmail (from message) = false \/
    exists a, In a (as_array (to message)) /\ validateEmail a = false) ->
   exists addr,
     validateEmail addr = false /\
     ((In addr (as_array (to message)) /\
       send w config message []
       = (Returned (failure ("Invalid email address: " ++ addr)), []))
      \/
      (addr = from message /\
       send w config message []
       = (Returned (failure ("Invalid from email address: " ++ addr)), []))))
  /\
  ((forall a, In a (as_array (to message)) -> validateEmail a = true) ->
   validateEmail (from message) = true ->
   forall cc' bcc',
   exists tr,
     snd (send w config (with_copies message cc' bcc') [])
     = EvConnect (initial_socket config) (net_connect w) :: tr).
Proof.
  split.
  - intro Hbad.
    destruct (find (fun email => negb (validateEmail email))
                (as_array (to message))) as [email|] eqn:Eto.
    + exists email. apply find_some in Eto as Hfound.
      destruct Hfound as [Hin Hneg]. apply negb_true_iff in Hneg.
      split; [assumption|]. left. split; [assumption|].
      unfold send, try_catch. now rewrite Eto.
    + assert (Hfrom : validateEmail (from message) = false).
      { destruct Hbad as [H|(a & Hin & Ha)]; [assumption|].
        apply (find_none _ _ Eto) in Hin. rewrite Ha in Hin. discriminate. }
      exists (from message). split; [assumption|]. right.
      split; [reflexivity|]. unfold send, try_catch.
      now rewrite Eto, Hfrom.
  - intros Hto Hfrom cc' bcc'.
    set (message' := with_copies message cc' bcc').
    assert (Hv : passes_validation (Send message') = true).
    { simpl. unfold first_invalid. simpl.
      destruct (find (fun email => negb (validateEmail email))
                  (as_array (to message))) as [email|] eqn:Eto;
        [|exact Hfrom].
      apply find_some in Eto as [Hin Hneg]. rewrite (Hto _ Hin) in Hneg.
      discriminate. }
    destruct (call_cases w config (Send message'))
      as (a & _ & [(_ & _ & Hv')|[(_ & _ & _ & tr & s & Ht & R)
                                 |(_ & _ & _ & tr & e & Ht & R & _)]]).
    + congruence.
    + apply CallRuns_head in R as (evs & -> & _).
      exists (evs ++ [EvDestroy s])%list.
      unfold trace_of, run in Ht.
      destruct (send w config message' []) as [[r|e] h]; exact Ht.
    + apply CallRuns_head in R as (evs & -> & _).
      exists (evs ++ caught (Send message'))%list.
      unfold trace_of, run in Ht.
      destruct (send w config message' []) as [[r|e'] h]; exact Ht.
Qed.

(** C1 at a message whose [to] is "invalid-email", and at a valid message
    whose [cc] and [bcc] are not addresses. *)
Lemma send_validates_to_and_from_witness :
  (exists addr,
     validateEmail addr = false /\
     ((In addr (as_array (to message_invalid_to)) /\
       send world_ok config_submission message_invalid_to []
       = (Returned (failure ("Invalid email address: " ++ addr)), []))
      \/
      (addr = from message_invalid_to /\
       send world_ok config_submission message_invalid_to []
       = (Returned (failure ("Invalid from email address: " ++ addr)), []))))
  /\
  (exists tr,
     snd (send world_ok config_submission
            (with_copies message_plain
               (Some (One "not an address")) (Some (Many ["@@"; ""]))) [])
     = EvConnect TcpSocket Established :: tr).
Proof.
  split.
  - apply (send_validates_to_and_from world_ok config_submission
             message_invalid_to).
    right. exists "invalid-email". split; [left; reflexivity | reflexivity].
  - apply (send_validates_to_and_from world_ok config_submission
             message_plain).
    + intros a [<-|[]]. reflexivity.
    + reflexivity.
Defined.

(* ----------------------------------------------------------------- *)
(** ** Rejected replies *)

(** C2: when, at any step of [send] or [checkConnection], the reply starts
    with a three-digit status code of 400 or more, the call fails with
    exactly "SMTP Error <code>: <trimmed reply>" ([send] returns it as
    [error] with [success = false], [checkConnection] returns [false]),
    and nothing follows the reply in the history but what the [catch]
    block prints: no later step is run. *)
Theorem rejected_reply_fails_call (w : World) (config : SMTPConfig)
    (call : Call) (pre post : History) (s : Socket) (r : string) (code : Z) :
  trace_of w config call = (pre ++ EvResponse s r :: post)%list ->
  status_code r = Some code ->
  (400 <= code)%Z ->
  (exists a,
     answer_of w config call = Returned a /\
     succeeded a = false /\
     fails_with (smtp_error code r) a) /\
  post = caught call /\
  writes post = [].
Proof.
  intros Ht Hs Hc.
  assert (Hp : parseInt (js_substring 0 3 r) = Some code)
    by now apply status_code_parseInt.
  assert (Hf : is_failure (EvResponse s r) = true).
  { simpl. rewrite Hp. simpl. now apply Z.leb_le. }
  destruct (call_cases w config call)
    as (a & Ha & [(_ & Hnil & _)|[(_ & _ & _ & tr & s' & Htr & R)
                                  |(Hfail & _ & _ & tr & e & Htr & R & Hmsg)]]).
  - rewrite Hnil in Ht. now destruct pre.
  - exfalso. apply CallRuns_ends in R. simpl in R.
    assert (Hok : all_ok (tr ++ [EvDestroy s']) = true)
      by now rewrite all_ok_app, R.
    rewrite <- Htr, Ht in Hok.
    pose proof (all_ok_no_failure _ _ _ _ Hok eq_refl). congruence.
  - apply CallRuns_ends in R. simpl in R.
    destruct R as (p & ev & -> & Hpok & Hev & ->).
    rewrite Htr, <- app_assoc in Ht. simpl in Ht.
    assert (Hcons : forallb is_console (after_failure ev ++ caught call)
                    = true).
    { rewrite forallb_app, after_failure_console. now destruct call. }
    destruct (first_failure_unique _ _ _ _ _ _ Ht Hpok Hf Hcons)
      as (-> & -> & <-).
    simpl in Hmsg. rewrite Hp in Hmsg. repeat split.
    + exists a. now repeat split.
    + now destruct call.
Qed.

(** C2 at a server that rejects the first RCPT TO with 550: DATA is never
    written. *)
Lemma rejected_reply_fails_call_witness :
  (exists a,
     answer_of world_rcpt_rejected config_tls (Send message_plain)
     = Returned a /\
     succeeded a = false /\
     fails_with (smtp_error 550 ("550 No such user" ++ CRLF)) a) /\
  @nil Event = caught (Send message_plain) /\
  writes [] = [].
Proof.
  apply (rejected_reply_fails_call world_rcpt_rejected config_tls
           (Send message_plain)
           [EvConnect TlsSocket Established;
            EvWrite TlsSocket ("EHLO localhost" ++ CRLF);
            EvResponse TlsSocket ("250 OK" ++ CRLF);
            EvWrite TlsSocket ("MAIL FROM:<sender@example.com>" ++ CRLF);
            EvResponse TlsSocket ("250 OK" ++ CRLF);
            EvWrite TlsSocket ("RCPT TO:<test@example.com>" ++ CRLF)]
           [] TlsSocket ("550 No such user" ++ CRLF) 550%Z).
  - reflexivity.
  - reflexivity.
  - lia.
Defined.

(* ----------------------------------------------------------------- *)
(** ** The socket after a failure *)

(** Whenever a call fails, its history has no [destroy]: the socket that
    was opened is left as it is. *)
Lemma failed_call_never_destroys (w : World) (config : SMTPConfig)
    (call : Call) (a : Answer) :
  answer_of w config call = Returned a ->
  succeeded a = false ->
  existsb is_destroy (trace_of w config call) = false.
Proof.
  intros Ha Hf.
  destruct (call_cases w config call)
    as (a' & Ha' & [(_ & Hnil & _)|[(Hs & _)
                                    |(_ & _ & _ & tr & e & Htr & R & _)]]).
  - now rewrite Hnil.
  - congruence.
  - rewrite Htr, existsb_app.
    apply CallRuns_head in R as (evs & -> & Hd). simpl.
    rewrite (dialogue_no_destroy _ Hd). now destruct call.
Qed.

(** C5 does not hold of the code: with the connection established and the
    first RCPT TO answered by 550, [send] returns its failure and the
    history ends at the rejected reply; the socket is never destroyed.
    [checkConnection] behaves alike when QUIT is answered by 421. *)
Theorem failure_leaves_socket_open :
  run world_rcpt_rejected config_tls (Send message_plain)
  = (Returned
       (SendAnswer (failure "SMTP Error 550: 550 No such user")),
     [EvConnect TlsSocket Established;
      EvWrite TlsSocket ("EHLO localhost" ++ CRLF);
      EvResponse TlsSocket ("250 OK" ++ CRLF);
      EvWrite TlsSocket ("MAIL FROM:<sender@example.com>" ++ CRLF);
      EvResponse TlsSocket ("250 OK" ++ CRLF);
      EvWrite TlsSocket ("RCPT TO:<test@example.com>" ++ CRLF);
      EvResponse TlsSocket ("550 No such user" ++ CRLF)]) /\
  existsb is_destroy
    (trace_of world_rcpt_rejected config_tls (Send message_plain)) = false /\
  run world_quit_rejected config_tls Check
  = (Returned (CheckAnswer false),
     [EvConnect TlsSocket Established;
      EvWrite TlsSocket ("EHLO localhost" ++ CRLF);
      EvResponse TlsSocket ("250 OK" ++ CRLF);
      EvWrite TlsSocket ("QUIT" ++ CRLF);
      EvResponse TlsSocket ("421 Service not available" ++ CRLF);
      EvConsole "SMTP Connection Error:"]).
Proof. repeat split; reflexivity. Qed.

(* ----------------------------------------------------------------- *)
(** ** Nothing is thrown to the caller *)

(** C8, as stated, fails for [checkConnection]: on [config_submission]
    with a server that accepts EHLO, STARTTLS, the second EHLO and the
    three lines of AUTH LOGIN and answers QUIT with 421, every step up to
    and including authentication succeeds and the answer is [false]. *)
Lemma checkConnection_quit_counterexample :
  ~ (answer_of world_quit_rejected_after_login config_submission Check
     = Returned (CheckAnswer true)
     <-> steps_succeed world_quit_rejected_after_login config_submission
           (handshake_steps config_submission) = true).
Proof.
  intros [_ H].
  assert (S : steps_succeed world_quit_rejected_after_login
                config_submission (handshake_steps config_submission) = true)
    by (vm_compute; reflexivity).
  apply H in S. vm_compute in S. discriminate S.
Qed.

(** C8, amended: [send] always returns a result, with [messageId] and no
    [error] on success and with [error] and no [messageId] on failure;
    [checkConnection] always returns a boolean, which is [true] exactly
    when the connection and every step up to and including QUIT succeed,
    that is, when no event of the history reports a failure. *)
Theorem calls_never_throw :
  (forall w config message,
     exists result tr,
       send w config message [] = (Returned result, tr) /\
       (success result = true ->
        messageId result <> None /\ error result = None) /\
       (success result = false ->
        messageId result = None /\ error result <> None)) /\
  (forall w config,
     exists connected tr,
       checkConnection w config [] = (Returned connected, tr) /\
       (connected = true <->
        steps_succeed w config (check_steps config) = true) /\
       (connected = true <-> all_ok tr = true)).
Proof.
  split.
  - intros w config message.
    pose proof (run_RunOf w config (Send message)) as R. simpl in R.
    destruct (send w config message []) as [[result|e] tr]; simpl in R.
    + exists result, tr. split; [reflexivity|].
      inversion R as [m email Hm Hto|m Hm Hto Hfrom|tr' s a Hv Hs C Ha Hid
                      |tr' e a Hv Hs C Ha]; subst.
      * simpl. split; [discriminate | intros _; split; [reflexivity|discriminate]].
      * simpl. split; [discriminate | intros _; split; [reflexivity|discriminate]].
      * destruct (Hid message eq_refl) as (id & Hid').
        injection Hid' as ->. simpl.
        split; [intros _; split; [discriminate|reflexivity] | discriminate].
      * simpl in Ha. subst result. simpl.
        split; [discriminate | intros _; split; [reflexivity|discriminate]].
    + inversion R.
  - intros w config.
    pose proof (run_RunOf w config Check) as R. simpl in R.
    destruct (checkConnection w config []) as [[connected|e] tr]; simpl in R.
    + exists connected, tr. split; [reflexivity|].
      inversion R as [m email Hm Hto|m Hm Hto Hfrom|tr' s a Hv Hs C Ha Hid
                      |tr' e a Hv Hs C Ha]; subst; try discriminate.
      * simpl in Ha, Hs. subst connected. rewrite Hs.
        apply CallRuns_ends in C. simpl in C.
        rewrite all_ok_app, C. simpl. now split.
      * simpl in Ha, Hs. subst connected. rewrite Hs.
        apply CallRuns_ends in C. simpl in C.
        destruct C as (p & ev & -> & _ & Hev & _).
        rewrite <- app_assoc, all_ok_app. simpl. rewrite Hev. simpl.
        rewrite andb_false_r. now split.
    + inversion R.
Qed.

(* ----------------------------------------------------------------- *)
(** ** The content *)

Lemma buildEmailContent_lines (w : World) (message : EmailMessage)
    (h : History) :
  buildEmailContent w message h
  = (Returned
       (join CRLF
          (header_lines (clock_utc w h) (message_id_at w h) message
             ++ [""] ++ body_lines message)),
     h).
Proof.
  unfold buildEmailContent, toUTCString, generateMessageId, message_id_at.
  unfold bind, history, ret, header_lines, body_lines, push.
  unfold cc_lines, replyTo_lines, content_type_lines.
  cbv beta iota zeta. do 2 f_equal.
  destruct (present_addresses (cc message)) as [c|];
    destruct (present (replyTo message)) as [r|];
    destruct (present (html message)) as [b|];
    try destruct (present (text message)) as [t|];
    reflexivity.
Qed.

Lemma join_snoc (sep : string) (l : list string) (x : string) :
  l <> [] -> join sep (l ++ [x]) = join sep l ++ sep ++ x.
Proof.
  induction l as [|a l IH]; [congruence|]. intros _.
  destruct l as [|b l].
  - reflexivity.
  - change (join sep ((a :: b :: l) ++ [x]))
      with (a ++ sep ++ join sep ((b :: l) ++ [x])).
    rewrite IH by discriminate.
    change (join sep (a :: b :: l)) with (a ++ sep ++ join sep (b :: l)).
    now rewrite !string_app_assoc.
Qed.

(** C9: the content is the header lines From, To, Cc (if present),
    Reply-To (if present), Subject, Date, Message-ID, then MIME-Version
    and the HTML content type if [html] is present, else the plain-text
    content type, then an empty line, then the body ([html] if present,
    else [text]), all joined by CRLF; with a body [b] it is the header
    block, CRLF, CRLF, [b]. *)
Theorem buildEmailContent_layout (w : World) (message : EmailMessage)
    (h : History) :
  let headers := header_lines (clock_utc w h) (message_id_at w h) message in
  buildEmailContent w message h
  = (Returned (join CRLF (headers ++ [""] ++ body_lines message)), h) /\
  (forall b,
     body_lines message = [b] ->
     buildEmailContent w message h
     = (Returned (join CRLF headers ++ CRLF ++ CRLF ++ b), h)) /\
  (present (html message) = None ->
   body_lines message
   = match present (text message) with Some t => [t] | None => [] end) /\
  (forall b, present (html message) = Some b -> body_lines message = [b]).
Proof.
  intro headers. split; [apply buildEmailContent_lines|]. split; [|split].
  - intros b Hb. rewrite buildEmailContent_lines. fold headers. rewrite Hb.
    do 2 f_equal.
    change (headers ++ [""] ++ [b])%list with (headers ++ [""; b])%list.
    replace (headers ++ [""; b])%list with ((headers ++ [""]) ++ [b])%list
      by now rewrite <- app_assoc.
    assert (Hne : headers <> []) by (unfold headers, header_lines; discriminate).
    rewrite join_snoc by (destruct headers; [congruence|discriminate]).
    rewrite join_snoc by assumption.
    now rewrite !string_app_assoc.
  - intro Hh. unfold body_lines. now rewrite Hh.
  - intros b Hh. unfold body_lines. now rewrite Hh.
Qed.

(** C9 at a message with all the optional fields. *)
Lemma buildEmailContent_layout_witness :
  buildEmailContent world_ok message_full []
  = (Returned
       (join CRLF
          ["From: sender@example.com";
           "To: recipient1@example.com, recipient2@example.com";
           "Cc: cc@example.com";
           "Reply-To: reply@example.com";
           "Subject: Test Multi-Recipient";
           "Date: Tue, 03 Nov 2026 10:00:00 GMT";
           "Message-ID: <1793700000000.k3j9x2m1q@synet.email>";
           "MIME-Version: 1.0";
           "Content-Type: text/html; charset=utf-8"]
          ++ CRLF ++ CRLF ++ "<h1>HTML message</h1>"),
     []).
Proof.
  destruct (buildEmailContent_layout world_ok message_full [])
    as (_ & H & _).
  exact (H "<h1>HTML message</h1>" eq_refl).
Defined.

(* ----------------------------------------------------------------- *)
(** ** What is written, and in which order *)

Lemma writes_app (l1 l2 : History) :
  writes (l1 ++ l2) = (writes l1 ++ writes l2)%list.
Proof.
  induction l1 as [|ev l1 IH]; simpl; [reflexivity|].
  destruct ev; simpl; now rewrite IH.
Qed.

Lemma lines_of_app (l1 l2 : list Step) :
  lines_of (l1 ++ l2) = (lines_of l1 ++ lines_of l2)%list.
Proof.
  induction l1 as [|st l1 IH]; simpl; [reflexivity|].
  destruct st; simpl; now rewrite IH.
Qed.

Lemma lines_of_rcpt (emails : list string) :
  lines_of (rcpt_steps emails) = map wire (map rcpt_to emails).
Proof. induction emails as [|e l IH]; simpl; [reflexivity | now rewrite IH]. Qed.

Lemma rcpt_steps_plain (emails : list string) :
  forallb (fun st => negb (is_payload st)) (rcpt_steps emails) = true.
Proof. induction emails; simpl; [reflexivity | assumption]. Qed.

Lemma Awaited_app (l1 l2 : History) :
  Awaited l1 -> Awaited l2 -> Awaited (l1 ++ l2).
Proof.
  intros A1 A2 pre s data post E.
  apply app_eq_app in E as [l [[E1 E2]|[E1 E2]]].
  - destruct l as [|x l].
    + simpl in E2. symmetry in E2. now apply (A2 [] s data post).
    + simpl in E2. injection E2 as <- ->.
      destruct (A1 pre s data l E1) as (ev & post' & -> & Hev).
      exists ev, (post' ++ l2)%list. now split.
  - now apply (A2 l s data post).
Qed.

Lemma Awaited_quiet (l : History) :
  forallb (fun ev => negb (is_write ev)) l = true -> Awaited l.
Proof.
  intros H pre s data post ->. rewrite forallb_app in H.
  apply andb_true_iff in H as [_ H]. discriminate H.
Qed.

Lemma Awaited_exchange (s : Socket) (data : string) (ev : Event) :
  answers s ev -> Awaited [EvWrite s data; ev].
Proof.
  intros Hev pre s' data' post E.
  destruct pre as [|a [|b pre]]; simpl in E.
  - injection E as <- <- <-. now exists ev, [].
  - injection E as _ -> _. destruct Hev as [[r Hr]|[c Hc]]; discriminate.
  - injection E as _ _ E. now destruct pre.
Qed.

Section Order.

Variable w : World.
Variable config : SMTPConfig.

Lemma StepRun_Awaited (s : Socket) (st : Step) (h : History)
    (evs : list Event) (o : Outcome Socket) :
  StepRun w s st h evs o -> Awaited evs.
Proof.
  induction 1; try assumption;
    try (apply Awaited_exchange; unfold answers; eauto; fail);
    now apply Awaited_quiet.
Qed.

Lemma Runs_Awaited (s : Socket) (steps : list Step) (h : History)
    (evs : list Event) (o : Outcome Socket) :
  Runs w s steps h evs o -> Awaited evs.
Proof.
  induction 1 as [| ? ? ? ? ? ? R | ? ? ? ? ? ? ? ? R1 R2 IH].
  - now apply Awaited_quiet.
  - now apply StepRun_Awaited in R.
  - apply Awaited_app; [now apply StepRun_Awaited in R1 | assumption].
Qed.

Lemma StepRun_writes (s : Socket) (st : Step) (h : History)
    (evs : list Event) (o : Outcome Socket) :
  StepRun w s st h evs o ->
  match st with
  | Command c => writes evs = [wire c]
  | Upgrade => writes evs = []
  | Payload m =>
      exists content,
        fst (buildEmailContent w m h) = Returned content /\
        writes evs = [wire (content ++ CRLF ++ ".")]
  end.
Proof.
  induction 1 as [| | | | | |m h content evs o Hb R IH]; try reflexivity.
  exists content. now split.
Qed.

Lemma Runs_app_inv (l1 l2 : list Step) :
  forall s h evs o,
    Runs w s (l1 ++ l2) h evs o ->
    (exists e, o = Threw e /\ Runs w s l1 h evs (Threw e)) \/
    (exists s' evs1 evs2,
        evs = (evs1 ++ evs2)%list /\
        Runs w s l1 h evs1 (Returned s') /\
        Runs w s' l2 (h ++ evs1) evs2 o).
Proof.
  induction l1 as [|st l1 IH]; intros s h evs o R; simpl in R.
  - right. exists s, [], evs. rewrite app_nil_r.
    repeat split; [constructor | assumption].
  - inversion R as [|? ? ? ? ? e R1|? ? ? ? evs1 s1 evs2 ? R1 R2]; subst.
    + left. exists e. split; [reflexivity | now constructor].
    + apply IH in R2 as [(e & -> & R2)|(s' & ea & eb & -> & Ra & Rb)].
      * left. exists e. split; [reflexivity|]. econstructor; eassumption.
      * right. exists s', (evs1 ++ ea)%list, eb.
        split; [now rewrite app_assoc|].
        split; [econstructor; eassumption|].
        now rewrite app_assoc.
Qed.

(** Steps without payload write a prefix of their lines, all of them when
    the run returns. *)
Lemma Runs_plain_writes (s : Socket) (steps : list Step) (h : History)
    (evs : list Event) (o : Outcome Socket) :
  Runs w s steps h evs o ->
  forallb (fun st => negb (is_payload st)) steps = true ->
  (exists n, (n <= List.length (lines_of steps))%nat /\
             writes evs = firstn n (lines_of steps)) /\
  (forall s', o = Returned s' -> writes evs = lines_of steps).
Proof.
  induction 1 as [s h|s st rest h evs e R|s st rest h evs1 s' evs2 o R1 R2 IH];
    intro Hplain.
  - split; [exists 0%nat; split; [simpl; lia | reflexivity] | reflexivity].
  - split; [|discriminate].
    apply StepRun_writes in R. destruct st as [c| |m]; try discriminate.
    + exists 1%nat. simpl. split; [lia | assumption].
    + exists 0%nat. simpl. split; [lia | assumption].
  - simpl in Hplain. apply andb_true_iff in Hplain as [Hst Hrest].
    destruct (IH Hrest) as [(n & Hn & Hw) Hall].
    apply StepRun_writes in R1. rewrite writes_app.
    destruct st as [c| |m]; try discriminate; rewrite R1; simpl.
    + split.
      * exists (S n). split; [lia | simpl; now rewrite Hw].
      * intros s'' Ho. now rewrite (Hall s'' Ho).
    + split; [exists n; now split | exact Hall].
Qed.

Lemma Runs_single (s : Socket) (st : Step) (h : History)
    (evs : list Event) (o : Outcome Socket) :
  Runs w s [st] h evs o -> exists o', StepRun w s st h evs o'.
Proof.
  intro R. inversion R as [|? ? ? ? ? e R1|? ? ? ? evs1 s1 evs2 ? R1 R2]; subst.
  - eauto.
  - inversion R2; subst. rewrite app_nil_r. eauto.
Qed.

Lemma handshake_plain :
  forallb (fun st => negb (is_payload st)) (handshake_steps config) = true.
Proof.
  unfold handshake_steps, starttls_steps, auth_steps.
  destruct (wants_starttls config), (auth config); reflexivity.
Qed.

Lemma steps_before_payload_plain (message : EmailMessage) :
  forallb (fun st => negb (is_payload st))
    (steps_before_payload config message) = true.
Proof.
  unfold steps_before_payload.
  rewrite forallb_app, handshake_plain. simpl.
  now rewrite forallb_app, rcpt_steps_plain.
Qed.

Lemma send_steps_split (message : EmailMessage) :
  send_steps config message
  = (steps_before_payload config message
       ++ [Payload message; Command "QUIT"])%list.
Proof.
  unfold send_steps, steps_before_payload.
  rewrite <- !app_assoc. simpl. now rewrite <- !app_assoc.
Qed.

Lemma command_sequence_lines (message : EmailMessage) (content : string) :
  map wire (command_sequence config message content)
  = (lines_of (steps_before_payload config message)
       ++ [wire (content ++ CRLF ++ "."); wire "QUIT"])%list.
Proof.
  unfold command_sequence, steps_before_payload, handshake_steps,
    starttls_steps, auth_steps, recipients.
  cbv zeta. rewrite !map_app.
  change (Command "EHLO localhost" :: ?l)%list
    with ([Command "EHLO localhost"] ++ l)%list.
  change (Command ?c :: rcpt_steps ?r ++ ?l)%list
    with ([Command c] ++ rcpt_steps r ++ l)%list.
  rewrite !lines_of_app, !lines_of_rcpt. unfold rcpt_steps.
  rewrite !map_app, <- !app_assoc.
  destruct (wants_starttls config), (auth config); reflexivity.
Qed.

(** The writes of a run of the steps of [send]. *)
Lemma Runs_send_writes (message : EmailMessage) (s : Socket) (h : History)
    (evs : list Event) (o : Outcome Socket) :
  Runs w s (send_steps config message) h evs o ->
  exists content,
    (exists h', fst (buildEmailContent w message h') = Returned content) /\
    (exists n,
        writes evs = firstn n (map wire (command_sequence config message
                                           content))) /\
    (forall s', o = Returned s' ->
       writes evs = map wire (command_sequence config message content)).
Proof.
  rewrite send_steps_split. intro R.
  pose proof (steps_before_payload_plain message) as Hplain.
  apply Runs_app_inv in R
    as [(e & -> & R)|(s' & evs1 & evs2 & -> & Ra & Rb)].
  - destruct (buildEmailContent_returns w message []) as [content Hc].
    exists content. split; [exists []; now rewrite Hc|].
    destruct (Runs_plain_writes _ _ _ _ _ R Hplain) as [(n & Hn & Hw) _].
    split; [|discriminate].
    exists n. rewrite command_sequence_lines, firstn_app.
    replace (n - List.length (lines_of (steps_before_payload config message)))
      with 0%nat by lia.
    simpl. now rewrite app_nil_r.
  - destruct (Runs_plain_writes _ _ _ _ _ Ra Hplain) as [_ Hall].
    specialize (Hall s' eq_refl). rewrite writes_app, Hall.
    inversion Rb as [|? ? ? ? ? e R1|? ? ? ? ev1 s1 ev2 ? R1 R2]; subst.
    + apply StepRun_writes in R1 as (content & Hc & Hw).
      exists content. split; [eauto|]. split; [|discriminate].
      exists (S (List.length (lines_of (steps_before_payload config message)))).
      rewrite command_sequence_lines, firstn_app, Hw.
      rewrite firstn_all2 by lia.
      replace (S (List.length (lines_of (steps_before_payload config message)))
               - List.length (lines_of (steps_before_payload config message)))
        with 1%nat by lia.
      reflexivity.
    + apply StepRun_writes in R1 as (content & Hc & Hw).
      apply Runs_single in R2 as (o' & R2). apply StepRun_writes in R2.
      exists content. split; [eauto|].
      rewrite command_sequence_lines, writes_app, Hw, R2.
      split; [|reflexivity].
      exists (List.length (lines_of (steps_before_payload config message)
                             ++ [wire (content ++ CRLF ++ "."); wire "QUIT"])).
      now rewrite firstn_all.
Qed.

End Order.

Lemma console_writes (l : History) :
  forallb is_console l = true -> writes l = [].
Proof.
  induction l as [|ev l IH]; simpl; [reflexivity|].
  intro H. apply andb_true_iff in H as [Hev Hl].
  destruct ev; try discriminate. now apply IH.
Qed.

Section SendOrder.

Variable w : World.
Variable config : SMTPConfig.

(** What [send] writes: a prefix of the command sequence, and all of it
    when the call succeeds. *)
Lemma send_writes (message : EmailMessage) :
  exists content,
    (exists h, fst (buildEmailContent w message h) = Returned content) /\
    (exists n,
        writes (trace_of w config (Send message))
        = firstn n (map wire (command_sequence config message content))) /\
    (forall a,
        answer_of w config (Send message) = Returned a ->
        succeeded a = true ->
        writes (trace_of w config (Send message))
        = map wire (command_sequence config message content)).
Proof.
  destruct (call_cases w config (Send message))
    as (a & Ha & [(Hf & Hnil & _)|[(_ & _ & _ & tr & s & Htr & R)
                                  |(Hf & _ & _ & tr & e & Htr & R & _)]]).
  - destruct (buildEmailContent_returns w message []) as [content Hc].
    exists content. split; [exists []; now rewrite Hc|]. rewrite Hnil.
    split; [now exists 0%nat|]. intros a' Ha' Hs. congruence.
  - inversion R as [| |evs o En R']; subst.
    destruct (Runs_send_writes _ _ _ _ _ _ _ R')
      as (content & Hc & _ & Hall).
    specialize (Hall s eq_refl).
    assert (Hw : writes (trace_of w config (Send message))
                 = map wire (command_sequence config message content)).
    { rewrite Htr, writes_app. simpl. now rewrite app_nil_r. }
    exists content. split; [assumption|]. split; [|now intros].
    exists (List.length (map wire (command_sequence config message content))).
    now rewrite firstn_all.
  - rewrite Htr. simpl caught. rewrite app_nil_r.
    inversion R as [e' En|En|evs o En R']; subst.
    + destruct (buildEmailContent_returns w message []) as [content Hc].
      exists content. split; [exists []; now rewrite Hc|].
      split; [now exists 0%nat|]. intros a' Ha' Hs. congruence.
    + destruct (buildEmailContent_returns w message []) as [content Hc].
      exists content. split; [exists []; now rewrite Hc|].
      split; [now exists 0%nat|]. intros a' Ha' Hs. congruence.
    + destruct (Runs_send_writes _ _ _ _ _ _ _ R')
        as (content & Hc & Hn & _).
      exists content. split; [assumption|]. split; [exact Hn|].
      intros a' Ha' Hs. congruence.
Qed.

Lemma call_Awaited (call : Call) : Awaited (trace_of w config call).
Proof.
  destruct (call_cases w config call)
    as (a & Ha & [(_ & Hnil & _)|[(_ & _ & _ & tr & s & Htr & R)
                                  |(_ & _ & _ & tr & e & Htr & R & _)]]).
  - rewrite Hnil. now apply Awaited_quiet.
  - rewrite Htr. apply Awaited_app; [|now apply Awaited_quiet].
    inversion R as [| |evs o En R']; subst.
    apply (Awaited_app [_]); [now apply Awaited_quiet|].
    now apply Runs_Awaited in R'.
  - rewrite Htr. apply Awaited_app; [|destruct call; now apply Awaited_quiet].
    inversion R as [e' En|En|evs o En R']; subst;
      try now apply Awaited_quiet.
    apply (Awaited_app [_]); [now apply Awaited_quiet|].
    now apply Runs_Awaited in R'.
Qed.

(** After the event that reports a failure, nothing is written. *)
Lemma call_stops_at_failure (call : Call) (pre post : History) (ev : Event) :
  trace_of w config call = (pre ++ ev :: post)%list ->
  is_failure ev = true ->
  writes post = [] /\
  exists a, answer_of w config call = Returned a /\ succeeded a = false.
Proof.
  intros Ht Hf.
  destruct (call_cases w config call)
    as (a & Ha & [(_ & Hnil & _)|[(_ & _ & _ & tr & s' & Htr & R)
                                  |(Hfail & _ & _ & tr & e & Htr & R & _)]]).
  - rewrite Hnil in Ht. now destruct pre.
  - exfalso. apply CallRuns_ends in R. simpl in R.
    assert (Hok : all_ok (tr ++ [EvDestroy s']) = true)
      by now rewrite all_ok_app, R.
    rewrite <- Htr, Ht in Hok.
    pose proof (all_ok_no_failure _ _ _ _ Hok eq_refl). congruence.
  - apply CallRuns_ends in R. simpl in R.
    destruct R as (p & ev' & -> & Hpok & Hev & _).
    rewrite Htr, <- app_assoc in Ht. simpl in Ht.
    assert (Hcons : forallb is_console (after_failure ev' ++ caught call)
                    = true).
    { rewrite forallb_app, after_failure_console. now destruct call. }
    destruct (first_failure_unique _ _ _ _ _ _ Ht Hpok Hf Hcons)
      as (_ & _ & <-).
    split; [now apply console_writes | now exists a].
Qed.

End SendOrder.

(* ----------------------------------------------------------------- *)
(** ** The order of the steps *)

(** C7: what a [send] call writes is a prefix of the sequence EHLO,
    [STARTTLS, EHLO], [AUTH LOGIN, base64 user, base64 pass], MAIL FROM,
    RCPT TO for each address of [to], then [cc], then [bcc], DATA, the
    content closed by a line with a single dot, QUIT (so no step is out of
    order or repeated); it is the whole sequence when the call succeeds;
    every write is directly followed by its own reply or timeout; and
    after the event that reports the failure of a step nothing is
    written. *)
Theorem send_follows_sequence (w : World) (config : SMTPConfig)
    (message : EmailMessage) :
  (exists content,
     (exists h, fst (buildEmailContent w message h) = Returned content) /\
     (exists n,
        writes (trace_of w config (Send message))
        = firstn n (map wire (command_sequence config message content))) /\
     (forall a,
        answer_of w config (Send message) = Returned a ->
        succeeded a = true ->
        writes (trace_of w config (Send message))
        = map wire (command_sequence config message content))) /\
  Awaited (trace_of w config (Send message)) /\
  (forall pre ev post,
     trace_of w config (Send message) = (pre ++ ev :: post)%list ->
     is_failure ev = true ->
     writes post = []).
Proof.
  split; [apply send_writes|]. split; [apply call_Awaited|].
  intros pre ev post Ht Hf.
  now destruct (call_stops_at_failure w config _ _ _ _ Ht Hf).
Qed.

(* ----------------------------------------------------------------- *)
(** ** Blind copies *)

(** C7 at a server that accepts everything, and at a server whose TLS
    handshake fails after STARTTLS. *)
Lemma send_follows_sequence_witness :
  (exists content,
     writes (trace_of world_ok config_submission (Send message_plain))
     = map wire (command_sequence config_submission message_plain content))
  /\
  writes [EvConsole "TLS upgrade failed:"] = [].
Proof.
  split.
  - destruct (send_follows_sequence world_ok config_submission message_plain)
      as ((content & _ & _ & Hall) & _).
    exists content.
    apply (Hall (SendAnswer
                   {| success := true;
                      messageId :=
                        Some "1793700000026.k3j9x2m1q@synet.email";
                      error := None |})).
    + vm_compute. reflexivity.
    + reflexivity.
  - destruct (send_follows_sequence
                (scripted Established (Failed (JsError "handshake failure"))
                   (repeat ok_reply 32))
                config_submission message_plain) as (_ & _ & H).
    apply (H [EvConnect TcpSocket Established;
              EvWrite TcpSocket (wire "EHLO localhost");
              EvResponse TcpSocket ("250 OK" ++ CRLF);
              EvWrite TcpSocket (wire "STARTTLS");
              EvResponse TcpSocket ("250 OK" ++ CRLF)]
             (EvUpgrade TcpSocket (Failed (JsError "handshake failure")))
             [EvConsole "TLS upgrade failed:"]).
    + vm_compute. reflexivity.
    + reflexivity.
Defined.

(* ----------------------------------------------------------------- *)
(** ** Credentials in base64 never spell STARTTLS or EHLO *)

Lemma list_ind3 {A} (P : list A -> Prop) :
  P [] -> (forall a, P [a]) -> (forall a b, P [a; b]) ->
  (forall a b c l, P l -> P (a :: b :: c :: l)) ->
  forall l, P l.
Proof.
  intros H0 H1 H2 H3 l.
  enough (P l /\ (forall a, P (a :: l)) /\ (forall a b, P (a :: b :: l)))
    by tauto.
  induction l as [|x l (IH0 & IH1 & IH2)].
  - repeat split; auto.
  - repeat split; auto.
Qed.

Lemma sextet_alphabet (n : N) : In (sextet n) ("="%char :: base64_alphabet).
Proof.
  unfold sextet.
  destruct (nth_in_or_default (N.to_nat n) base64_alphabet "="%char)
    as [H|H]; [now right | left; now rewrite H].
Qed.

Lemma base64_bytes_alphabet (bs : list N) :
  Forall (fun c => In c ("="%char :: base64_alphabet)) (base64_bytes bs).
Proof.
  assert (Heq : In "="%char ("="%char :: base64_alphabet)) by now left.
  induction bs as [|a|a b|a b c l IH] using list_ind3.
  - constructor.
  - simpl.
    repeat (apply Forall_cons; [first [apply sextet_alphabet | exact Heq]|]).
    constructor.
  - simpl.
    repeat (apply Forall_cons; [first [apply sextet_alphabet | exact Heq]|]).
    constructor.
  - change (base64_bytes (a :: b :: c :: l))
      with ([sextet (a / 4); sextet (a mod 4 * 16 + b / 16);
             sextet (b mod 16 * 4 + c / 64); sextet (c mod 64)]
              ++ base64_bytes l)%list.
    apply Forall_app. split; [|assumption].
    repeat (apply Forall_cons; [apply sextet_alphabet|]). constructor.
Qed.

Lemma base64_not_EHLO (s : string) : base64 s <> "EHLO localhost".
Proof.
  intro E. apply (f_equal chars) in E. unfold base64 in E.
  rewrite chars_str in E.
  pose proof (base64_bytes_alphabet (utf8_encode s)) as H. rewrite E in H.
  rewrite Forall_forall in H. specialize (H " "%char).
  assert (Hin : In " "%char (chars "EHLO localhost"))
    by (simpl; tauto).
  apply H in Hin.
  assert (Hno : existsb (Ascii.eqb " ") ("="%char :: base64_alphabet) = false)
    by reflexivity.
  apply Bool.not_true_iff_false in Hno. apply Hno.
  apply existsb_exists. exists " "%char. split; [assumption|].
  apply Ascii.eqb_refl.
Qed.

Lemma utf8_last (s : string) (bs : list N) (x : N) :
  utf8_encode s = (bs ++ [x])%list -> (x < 192)%N.
Proof.
  unfold utf8_encode. generalize (chars s) as l. clear s.
  induction l as [|c l IH] using rev_ind; intro E.
  - now destruct bs.
  - rewrite flat_map_app in E. simpl in E. rewrite app_nil_r in E.
    unfold utf8_of_char in E.
    destruct (N_of_ascii c <? 128)%N eqn:Ec.
    + apply app_inj_tail in E as [_ <-]. apply N.ltb_lt in Ec. lia.
    + change [192 + N_of_ascii c / 64; 128 + N_of_ascii c mod 64]%N
        with ([192 + N_of_ascii c / 64] ++ [128 + N_of_ascii c mod 64])%N%list
        in E.
      rewrite app_assoc in E. apply app_inj_tail in E as [_ <-].
      pose proof (N.mod_lt (N_of_ascii c) 64 ltac:(lia)). lia.
Qed.

Lemma sextet_index (k : nat) (c : ascii) (i : nat) :
  (k < 64)%nat ->
  nth i base64_alphabet "="%char = c ->
  (i < 64)%nat ->
  NoDup base64_alphabet ->
  nth k base64_alphabet "="%char = c -> k = i.
Proof.
  intros Hk Hi Hi64 Hnd Hc.
  apply (proj1 (NoDup_nth base64_alphabet "="%char) Hnd); try assumption.
  congruence.
Qed.

Lemma base64_alphabet_NoDup : NoDup base64_alphabet.
Proof.
  apply (NoDup_map_inv N_of_ascii). vm_compute.
  repeat (constructor; [simpl; intuition discriminate|]). constructor.
Qed.

Lemma sextet_inv (n i : N) (c : ascii) :
  (n < 64)%N -> (i < 64)%N -> sextet i = c -> sextet n = c -> n = i.
Proof.
  unfold sextet. intros Hn Hi Ei En.
  apply N2Nat.inj.
  apply (sextet_index (N.to_nat n) c (N.to_nat i)); try assumption; try lia.
  apply base64_alphabet_NoDup.
Qed.

Lemma base64_not_STARTTLS (s : string) : base64 s <> "STARTTLS".
Proof.
  intro E. apply (f_equal chars) in E. unfold base64 in E.
  rewrite chars_str in E.
  destruct (utf8_encode s) as [|a [|b [|c [|d [|e [|f rest]]]]]] eqn:Eu;
    try discriminate E.
  destruct rest as [|g rest].
  - assert (Hf : (f < 192)%N)
      by (apply (utf8_last s [a; b; c; d; e] f); exact Eu).
    simpl in E. injection E as _ _ _ _ _ _ EL ES.
    apply (sextet_inv _ 18 "S"%char) in ES;
      [|apply N.mod_lt; lia | lia | reflexivity].
    apply (sextet_inv _ 11 "L"%char) in EL; [| |lia|reflexivity].
    + pose proof (N.div_mod f 64 ltac:(lia)). lia.
    + pose proof (N.mod_lt e 16 ltac:(lia)).
      assert (f / 64 < 3)%N by (apply N.Div0.div_lt_upper_bound; lia). lia.
  - destruct rest as [|i [|j rest]]; discriminate E.
Qed.

(* ----------------------------------------------------------------- *)
(** ** Where a line can be written *)

Lemma unique_split (P : Event -> bool) (A B pre post : History)
    (x y : Event) :
  (A ++ x :: B = pre ++ y :: post)%list ->
  P y = true ->
  forallb (fun ev => negb (P ev)) A = true ->
  forallb (fun ev => negb (P ev)) B = true ->
  pre = A /\ y = x /\ post = B.
Proof.
  revert pre. induction A as [|a A IH]; intros pre E Hy HA HB.
  - destruct pre as [|z pre]; simpl in E; injection E as -> E.
    + now subst.
    + subst B. rewrite forallb_app in HB.
      apply andb_true_iff in HB as [_ HB]. simpl in HB. rewrite Hy in HB.
      discriminate.
  - simpl in HA. apply andb_true_iff in HA as [Ha HA].
    destruct pre as [|z pre]; simpl in E; injection E as -> E.
    + rewrite Hy in Ha. discriminate.
    + destruct (IH pre E Hy HA HB) as (-> & -> & ->). now repeat split.
Qed.

Lemma wire_inj (a b : string) : wire a = wire b -> a = b.
Proof.
  unfold wire. intro E. apply (f_equal chars) in E.
  rewrite !chars_app in E. apply app_inv_tail in E.
  rewrite <- (str_chars a), <- (str_chars b). now rewrite E.
Qed.


Lemma written_split (x : string) (l : History) :
  In x (writes l) ->
  exists pre s post, l = (pre ++ EvWrite s x :: post)%list.
Proof.
  induction l as [|ev l IH]; simpl; [tauto|]. intro H.
  assert (Hrec : In x (writes l) ->
                 exists pre s post, ev :: l = (pre ++ EvWrite s x :: post)%list).
  { intro Hin. destruct (IH Hin) as (pre & s & post & ->).
    now exists (ev :: pre), s, post. }
  destruct ev as [| |s d| | | |]; try (now apply Hrec).
  destruct H as [->|Hin]; [now exists [], s, l | now apply Hrec].
Qed.

Lemma ending_quiet (x : string) (l : History) :
  forallb is_ending l = true -> writes l = [].
Proof.
  induction l as [|ev l IH]; simpl; [reflexivity|].
  intro H. apply andb_true_iff in H as [Hev Hl].
  destruct ev; try discriminate; now apply IH.
Qed.

Section Lines.

Variable w : World.
Variable config : SMTPConfig.

Lemma Runs_never (x : string) (s : Socket) (steps : list Step) (h : History)
    (evs : list Event) (o : Outcome Socket) :
  Runs w s steps h evs o ->
  Forall (never_writes w x) steps ->
  ~ In x (writes evs).
Proof.
  assert (Hstep : forall s st h evs o,
             StepRun w s st h evs o -> never_writes w x st ->
             ~ In x (writes evs)).
  { intros s0 st h0 evs0 o0 R Hn. apply StepRun_writes in R.
    destruct st as [c| |m]; simpl in Hn.
    - rewrite R. intros [E|[]]. now apply Hn.
    - now rewrite R.
    - destruct R as (content & Hc & ->). intros [E|[]].
      now apply (Hn h0 content Hc). }
  induction 1 as [| ? ? ? ? ? ? R | ? ? ? ? ? ? ? ? R1 R2 IH]; intro Hall.
  - simpl. tauto.
  - inversion Hall; subst. eapply Hstep; eassumption.
  - inversion Hall; subst. rewrite writes_app. intro Hin.
    apply in_app_or in Hin as [Hin|Hin].
    + eapply Hstep; eassumption.
    + now apply IH.
Qed.

(** Without a TLS upgrade among the steps, every write is on the socket
    the run started with. *)
Lemma Runs_same_socket (s : Socket) (steps : list Step) (h : History)
    (evs : list Event) (o : Outcome Socket) :
  Runs w s steps h evs o ->
  forallb (fun st => negb (is_upgrade st)) steps = true ->
  forall s' data, In (EvWrite s' data) evs -> s' = s.
Proof.
  assert (Hstep : forall s st h evs o,
             StepRun w s st h evs o -> is_upgrade st = false ->
             (forall s' data, In (EvWrite s' data) evs -> s' = s) /\
             (forall s', o = Returned s' -> s' = s)).
  { induction 1; intro Hu; try discriminate; try (now apply IHStepRun);
      (split; [intros s' data [E|[E|[]]]; congruence | congruence]). }
  induction 1 as [| ? ? ? ? ? ? R | ? ? ? ? ? ? ? ? R1 R2 IH]; intros Hall.
  - intros s' data [].
  - simpl in Hall. apply andb_true_iff in Hall as [Hst _].
    apply negb_true_iff in Hst. now apply (Hstep _ _ _ _ _ R).
  - simpl in Hall. apply andb_true_iff in Hall as [Hst Hrest].
    apply negb_true_iff in Hst.
    destruct (Hstep _ _ _ _ _ R1 Hst) as [Hw Hs].
    specialize (Hs _ eq_refl). subst s'.
    intros s' data Hin. apply in_app_or in Hin as [Hin|Hin].
    + now apply (Hw s' data).
    + now apply (IH Hrest s' data).
Qed.

Lemma payload_starts_with_From (m : EmailMessage) (h : History)
    (content : string) :
  fst (buildEmailContent w m h) = Returned content ->
  exists rest, wire (content ++ CRLF ++ ".") = String "F" rest.
Proof.
  rewrite buildEmailContent_lines. simpl fst. intro E. injection E as <-.
  unfold header_lines. cbv zeta. simpl. eexists. reflexivity.
Qed.

Lemma rcpt_never (x : string) (emails : list string) :
  (forall rest, x <> String "R" rest) ->
  Forall (never_writes w x) (rcpt_steps emails).
Proof.
  intro Hx. induction emails as [|e l IH]; constructor; [|assumption].
  simpl. intro E. now apply (Hx _ (eq_sym E)).
Qed.

(** The steps after the STARTTLS exchange write neither STARTTLS nor
    EHLO. *)
Lemma tail_never (call : Call) (x : string) :
  x = wire "STARTTLS" \/ x = wire "EHLO localhost" ->
  Forall (never_writes w x) (tail_steps config call).
Proof.
  intro Hx. unfold tail_steps. apply Forall_app. split.
  - unfold auth_steps. destruct (auth config) as [a|]; [|constructor].
    repeat constructor; simpl.
    + destruct Hx as [-> | ->]; discriminate.
    + destruct Hx as [-> | ->]; intro E; apply wire_inj in E.
      * now apply base64_not_STARTTLS in E.
      * now apply base64_not_EHLO in E.
    + destruct Hx as [-> | ->]; intro E; apply wire_inj in E.
      * now apply base64_not_STARTTLS in E.
      * now apply base64_not_EHLO in E.
  - destruct call as [message|]; simpl.
    + constructor; [destruct Hx as [-> | ->]; discriminate|].
      apply Forall_app. split.
      * apply rcpt_never. destruct Hx as [-> | ->]; discriminate.
      * apply Forall_cons; [destruct Hx as [-> | ->]; discriminate|].
        apply Forall_cons; [|apply Forall_cons; [|constructor]].
        -- unfold never_writes. intros h content Hc E.
           destruct (payload_starts_with_From _ _ _ Hc) as [rest Hr].
           rewrite Hr in E. destruct Hx as [-> | ->]; discriminate.
        -- destruct Hx as [-> | ->]; discriminate.
    + repeat constructor. simpl. destruct Hx as [-> | ->]; discriminate.
Qed.

Lemma steps_of_split (call : Call) :
  steps_of config call
  = (Command "EHLO localhost"
       :: starttls_steps config ++ tail_steps config call)%list.
Proof.
  unfold tail_steps.
  destruct call; simpl; unfold send_steps, check_steps, handshake_steps;
    simpl; now rewrite <- !app_assoc.
Qed.

Lemma tail_no_upgrade (call : Call) :
  forallb (fun st => negb (is_upgrade st)) (tail_steps config call) = true.
Proof.
  unfold tail_steps, auth_steps. rewrite forallb_app.
  assert (Hr : forall l,
             forallb (fun st => negb (is_upgrade st)) (rcpt_steps l) = true)
    by (induction l; simpl; auto).
  destruct (auth config), call; simpl; try reflexivity;
    now rewrite forallb_app, Hr.
Qed.

End Lines.

(* ----------------------------------------------------------------- *)
(** ** The STARTTLS exchange *)

Section StartTls.

Variable w : World.
Variable config : SMTPConfig.

Lemma call_dialogue (call : Call) :
  trace_of w config call = [] \/
  (exists res,
      res <> Established /\
      trace_of w config call
      = EvConnect (initial_socket config) res :: caught call) \/
  (exists evs o fin,
      trace_of w config call
      = (EvConnect (initial_socket config) Established :: evs ++ fin)%list /\
      Runs w (initial_socket config) (steps_of config call)
        [EvConnect (initial_socket config) Established] evs o /\
      forallb is_ending fin = true).
Proof.
  destruct (call_cases w config call)
    as (a & Ha & [(_ & Hnil & _)|[(_ & _ & _ & tr & s & Htr & R)
                                  |(_ & _ & _ & tr & e & Htr & R & _)]]).
  - now left.
  - right. right. inversion R as [| |evs o En R']; subst.
    exists evs, (Returned s), [EvDestroy s]. now repeat split.
  - right. inversion R as [e' En|En|evs o En R']; subst.
    + left. exists (Failed e). split; [discriminate | exact Htr].
    + left. exists TimedOut. split; [discriminate | exact Htr].
    + right. exists evs, (Threw e), (caught call).
      repeat split; try assumption. now destruct call.
Qed.

Lemma Runs_command_inv (s : Socket) (c : string) (rest : list Step)
    (h : History) (evs : list Event) (o : Outcome Socket) :
  Runs w s (Command c :: rest) h evs o ->
  (exists a,
      evs = [EvWrite s (wire c); a] /\ answers s a /\ is_failure a = true)
  \/
  (exists r evs',
      evs = EvWrite s (wire c) :: EvResponse s r :: evs' /\
      is_failure (EvResponse s r) = false /\
      Runs w s rest (h ++ [EvWrite s (wire c); EvResponse s r]) evs' o).
Proof.
  intro R.
  inversion R as [|? ? ? ? ? e R1|? ? ? ? evs1 s1 evs2 ? R1 R2]; subst.
  - left. inversion R1; subst.
    + eexists. split; [reflexivity|]. split; [left; eauto | assumption].
    + eexists. split; [reflexivity|]. split; [right; eauto | reflexivity].
  - right. inversion R1; subst. eexists. eexists.
    split; [reflexivity|]. split; [simpl; assumption | exact R2].
Qed.

Lemma Runs_upgrade_inv (s : Socket) (rest : list Step) (h : History)
    (evs : list Event) (o : Outcome Socket) :
  Runs w s (Upgrade :: rest) h evs o ->
  (exists res tl,
      res <> Established /\ evs = EvUpgrade s res :: tl /\
      forallb is_console tl = true)
  \/
  (exists evs',
      evs = EvUpgrade s Established
              :: EvConsole "TLS upgrade successful" :: evs' /\
      Runs w (TlsOver s) rest
        (h ++ [EvUpgrade s Established; EvConsole "TLS upgrade successful"])
        evs' o).
Proof.
  intro R.
  inversion R as [|? ? ? ? ? e R1|? ? ? ? evs1 s1 evs2 ? R1 R2]; subst.
  - left. inversion R1; subst.
    + exists (Failed e), [EvConsole "TLS upgrade failed:"].
      split; [discriminate|]. split; reflexivity.
    + exists TimedOut, [].
      split; [discriminate|]. split; reflexivity.
  - right. inversion R1; subst. eexists. split; [reflexivity | exact R2].
Qed.




Lemma writes_skip (ev : Event) (l : History) :
  is_write ev = false -> writes (ev :: l) = writes l.
Proof. destruct ev; try reflexivity. discriminate. Qed.


End StartTls.

Section StartTlsCalls.

Variable w : World.
Variable config : SMTPConfig.
Variable call : Call.

Lemma ending_forall (fin : History) (ev : Event) :
  forallb is_ending fin = true -> In ev fin -> is_ending ev = true.
Proof. intros H Hin. rewrite forallb_forall in H. now apply H. Qed.

Lemma caught_ending : forallb is_ending (caught call) = true.
Proof. now destruct call. Qed.

(** Without STARTTLS in the configuration, the line is never written and
    every write is on the socket of [createConnection]. *)
Lemma no_starttls_unless_wanted :
  wants_starttls config = false ->
  ~ In (wire "STARTTLS") (writes (trace_of w config call)) /\
  (forall s data,
      In (EvWrite s data) (trace_of w config call) ->
      s = initial_socket config).
Proof.
  intro Hw.
  destruct (call_dialogue w config call)
    as [->|[(res & _ & ->)|(evs & o & fin & -> & R & Hfin)]].
  - split; [simpl; tauto | intros s data []].
  - split.
    + rewrite writes_skip by reflexivity.
      rewrite (ending_quiet "" _ caught_ending). simpl. tauto.
    + intros s data [E|Hin]; [discriminate E|].
      apply (ending_forall _ _ caught_ending) in Hin. discriminate Hin.
  - rewrite steps_of_split in R. unfold starttls_steps in R.
    rewrite Hw in R. simpl app in R. split.
    + rewrite writes_skip by reflexivity.
      rewrite writes_app, (ending_quiet "" _ Hfin), app_nil_r.
      eapply Runs_never; [exact R|].
      constructor; [discriminate | apply tail_never; now left].
    + intros s data [E|Hin]; [discriminate E|].
      apply in_app_or in Hin as [Hin|Hin].
      * eapply Runs_same_socket; [exact R| |exact Hin].
        simpl. apply tail_no_upgrade.
      * apply (ending_forall _ _ Hfin) in Hin. discriminate Hin.
Qed.

Lemma wanted_plain_socket :
  wants_starttls config = true -> initial_socket config = TcpSocket.
Proof.
  unfold wants_starttls, initial_socket.
  destruct (truthy_bool (secure config)); [discriminate | reflexivity].
Qed.


End StartTlsCalls.


(* ================================================================= *)
(** * Reassembly of a reply from its chunks *)

Lemma string_length_app (s1 s2 : string) :
  String.length (s1 ++ s2) = (String.length s1 + String.length s2)%nat.
Proof. induction s1 as [|c s1 IH]; simpl; congruence. Qed.

Lemma substring_whole (s : string) : substring 0 (String.length s) s = s.
Proof. induction s as [|c s IH]; simpl; congruence. Qed.

Lemma substring_suffix (p suffix : string) :
  substring (String.length p) (String.length suffix) (p ++ suffix) = suffix.
Proof.
  induction p as [|c p IH]; simpl.
  - apply substring_whole.
  - exact IH.
Qed.

Lemma substring_cut (s : string) :
  forall n, (n <= String.length s)%nat ->
    s = substring 0 n s ++ substring n (String.length s - n) s.
Proof.
  induction s as [|c s IH]; intros n Hn.
  - destruct n; reflexivity.
  - destruct n as [|n].
    + simpl. now rewrite substring_whole.
    + simpl in Hn. simpl. f_equal. apply IH. lia.
Qed.

Lemma endsWith_suffix (s suffix : string) :
  endsWith s suffix = true <-> exists line, s = line ++ suffix.
Proof.
  unfold endsWith. rewrite andb_true_iff, Nat.leb_le, String.eqb_eq. split.
  - intros [Hlen Hsub].
    exists (substring 0 (String.length s - String.length suffix) s).
    rewrite (substring_cut s (String.length s - String.length suffix))
      at 1 by lia.
    f_equal.
    replace (String.length s - (String.length s - String.length suffix))%nat
      with (String.length suffix) by lia.
    exact Hsub.
  - intros [line ->]. rewrite string_length_app. split; [lia|].
    replace (String.length line + String.length suffix
             - String.length suffix)%nat
      with (String.length line) by lia.
    apply substring_suffix.
Qed.

Lemma string_app_empty (s : string) : s ++ "" = s.
Proof. induction s as [|c s IH]; simpl; congruence. Qed.

Lemma glue_app (l1 l2 : list string) : glue (l1 ++ l2) = glue l1 ++ glue l2.
Proof.
  induction l1 as [|x l1 IH]; simpl; [reflexivity|].
  now rewrite IH, string_app_assoc.
Qed.

(** [onData], started with [response] already read. *)
Lemma onData_from (chunks : list string) :
  forall response,
    match onData response chunks with
    | Some complete =>
        exists taken rest,
          chunks = (taken ++ rest)%list /\ taken <> [] /\
          complete = response ++ glue taken /\
          endsWith complete CRLF = true /\
          forall k, (0 < k < List.length taken)%nat ->
                    endsWith (response ++ glue (firstn k taken)) CRLF = false
    | None =>
        forall k, (0 < k <= List.length chunks)%nat ->
                  endsWith (response ++ glue (firstn k chunks)) CRLF = false
    end.
Proof.
  induction chunks as [|data rest IH]; intros response.
  - simpl. intros k Hk. lia.
  - simpl. destruct (endsWith (response ++ data) CRLF) eqn:E.
    + exists [data], rest. simpl. rewrite string_app_empty.
      repeat split; [discriminate | exact E |]. intros k Hk. lia.
    + specialize (IH (response ++ data)).
      destruct (onData (response ++ data) rest) as [complete|].
      * destruct IH as (taken & rest' & -> & Hne & -> & Hend & Hmin).
        exists (data :: taken), rest'. simpl.
        rewrite <- string_app_assoc.
        repeat split; [discriminate | exact Hend |].
        intros k Hk. destruct k as [|k]; [lia|]. simpl.
        destruct k as [|k].
        -- simpl. rewrite string_app_empty. exact E.
        -- rewrite <- string_app_assoc. apply Hmin. lia.
      * intros k Hk. destruct k as [|k]; [lia|]. simpl.
        destruct k as [|k].
        -- simpl. rewrite string_app_empty. exact E.
        -- rewrite <- string_app_assoc. apply IH. lia.
Qed.

(** X1.  The reply that [sendCommand] reads is the concatenation of the
    chunks up to and including the first one after which the data read
    so far ends with CRLF; the chunks after it are not read.  When the
    data ends with CRLF after no chunk, no reply is read (the command
    times out), whatever the chunks contain. *)
Theorem onData_reassembles (chunks : list string) :
  match onData "" chunks with
  | Some response =>
      exists taken rest,
        chunks = (taken ++ rest)%list /\ taken <> [] /\
        response = glue taken /\
        (exists line, response = line ++ CRLF) /\
        forall k, (0 < k < List.length taken)%nat ->
                  forall line, glue (firstn k taken) <> line ++ CRLF
  | None =>
      forall k, (0 < k <= List.length chunks)%nat ->
                forall line, glue (firstn k chunks) <> line ++ CRLF
  end.
Proof.
  pose proof (onData_from chunks "") as H.
  destruct (onData "" chunks) as [response|].
  - destruct H as (taken & rest & Hc & Hne & Hr & Hend & Hmin).
    exists taken, rest. simpl in Hr.
    split; [exact Hc|]. split; [exact Hne|]. split; [exact Hr|].
    split; [now apply endsWith_suffix|].
    intros k Hk line Hline. specialize (Hmin k Hk). simpl in Hmin.
    assert (endsWith (glue (firstn k taken)) CRLF = true) as Ht
        by (apply endsWith_suffix; now exists line).
    congruence.
  - intros k Hk line Hline. specialize (H k Hk). simpl in H.
    assert (endsWith (glue (firstn k chunks)) CRLF = true) as Ht
        by (apply endsWith_suffix; now exists line).
    congruence.
Qed.

(* ================================================================= *)
(** * What reaches the lines: checked addresses and the subject *)

Lemma atom_plain (s : string) :
  atom s ->
  (forall c, In c (chars s) -> is_space c = false) /\
  count_occ ascii_dec (chars s) "@"%char = 0%nat.
Proof.
  intros [_ H]. rewrite forallb_forall in H. split.
  - intros c Hc. specialize (H c Hc). unfold not_space_at in H.
    apply negb_true_iff, orb_false_iff in H. tauto.
  - apply count_occ_not_In. intros Hin. specialize (H _ Hin).
    unfold not_space_at in H. rewrite Ascii.eqb_refl, orb_true_r in H.
    discriminate.
Qed.

Lemma no_space_no_CRLF (s : string) :
  (forall c, In c (chars s) -> is_space c = false) ->
  forall a b, s <> a ++ CRLF ++ b.
Proof.
  intros H a b ->.
  assert (is_space "013"%char = false) as E; [|discriminate E].
  apply H. rewrite !chars_app. apply in_or_app. right. simpl. now left.
Qed.

Lemma strictly_valid_plain (s : string) :
  strictly_valid s ->
  (forall c, In c (chars s) -> is_space c = false) /\
  count_occ ascii_dec (chars s) "@"%char = 1%nat.
Proof.
  intros (l & d & r & -> & Hl & Hd & Hr).
  apply atom_plain in Hl, Hd, Hr.
  destruct Hl as [Sl Cl], Hd as [Sd Cd], Hr as [Sr Cr].
  rewrite !chars_app. split.
  - intros c Hc.
    repeat (apply in_app_or in Hc; destruct Hc as [Hc|Hc]); auto.
    + simpl in Hc. destruct Hc as [<-|[]]. reflexivity.
    + simpl in Hc. destruct Hc as [<-|[]]. reflexivity.
  - rewrite !count_occ_app, Cl, Cd, Cr. reflexivity.
Qed.

(** X10.  Once [send] has connected, the sender and every address of
    [to] hold no white space, so no line break, and exactly one "@": the
    lines "MAIL FROM:<...>", "RCPT TO:<...>" for [to], and the headers
    "From:" and "To:" cannot be broken by these fields. *)
Theorem connected_send_has_plain_addresses (w : World) (config : SMTPConfig)
    (message : EmailMessage) (address : string) :
  trace_of w config (Send message) <> [] ->
  address = from message \/ In address (as_array (to message)) ->
  (forall c, In c (chars address) -> is_space c = false) /\
  count_occ ascii_dec (chars address) "@"%char = 1%nat /\
  (forall a b, address <> a ++ CRLF ++ b).
Proof.
  intros Htr Haddr.
  assert (passes_validation (Send message) = true) as Hv.
  { destruct (call_cases w config (Send message)) as (a & _ & Hcases).
    destruct Hcases as [(_ & Hnil & _) | [(_ & Hv & _) | (_ & Hv & _)]];
      [contradiction | exact Hv | exact Hv]. }
  simpl in Hv. unfold first_invalid in Hv.
  destruct (find _ _) eqn:Hfind; [discriminate|].
  assert (validateEmail address = true) as Hok.
  { destruct Haddr as [->|Hin]; [exact Hv|].
    pose proof (find_none _ _ Hfind _ Hin) as Hn.
    now apply negb_false_iff in Hn. }
  apply validateEmail_strictly, strictly_valid_plain in Hok.
  destruct Hok as [Hs Hc]. split; [exact Hs|]. split; [exact Hc|].
  now apply no_space_no_CRLF.
Qed.

Lemma connected_send_has_plain_addresses_witness :
  (forall c, In c (chars "test@example.com") -> is_space c = false) /\
  count_occ ascii_dec (chars "test@example.com") "@"%char = 1%nat /\
  (forall a b, "test@example.com" <> a ++ CRLF ++ b).
Proof.
  apply (connected_send_has_plain_addresses world_ok config_tls message_plain).
  - vm_compute. discriminate.
  - right. simpl. left. reflexivity.
Defined.

Lemma join_cons (sep x : string) (l : list string) :
  l <> [] -> join sep (x :: l) = x ++ sep ++ join sep l.
Proof. destruct l; [congruence | reflexivity]. Qed.

(** A line that holds the separator is two lines. *)
Lemma join_splice (sep x y : string) (l1 l2 : list string) :
  join sep (l1 ++ (x ++ sep ++ y) :: l2) = join sep (l1 ++ x :: y :: l2).
Proof.
  induction l1 as [|a l1 IH].
  - simpl app. destruct l2 as [|z l2].
    + reflexivity.
    + rewrite (join_cons sep (x ++ sep ++ y)) by discriminate.
      rewrite (join_cons sep x) by discriminate.
      rewrite (join_cons sep y) by discriminate.
      now rewrite !string_app_assoc.
  - rewrite <- !app_comm_cons.
    rewrite !(join_cons sep a) by (destruct l1; discriminate).
    now rewrite IH.
Qed.

(** X11.  The subject is copied into the content as it is: when it holds
    a line break, what follows the break is a line of its own among the
    headers, between "Subject:" and "Date:". *)
Theorem subject_line_break_adds_header_line (w : World)
    (message : EmailMessage) (h : History) (a b : string) :
  subject message = a ++ CRLF ++ b ->
  buildEmailContent w message h
  = (Returned
       (join CRLF
          (["From: " ++ from message; "To: " ++ joined (to message)]
             ++ cc_lines message ++ replyTo_lines message
             ++ ["Subject: " ++ a; b;
                 "Date: " ++ clock_utc w h;
                 "Message-ID: <" ++ message_id_at w h ++ ">"]
             ++ content_type_lines message
             ++ [""] ++ body_lines message)),
     h).
Proof.
  intros Hs. rewrite buildEmailContent_lines. unfold header_lines.
  rewrite Hs. f_equal. f_equal.
  set (front := ([("From: " ++ from message)%string;
                   ("To: " ++ joined (to message))%string]
                   ++ cc_lines message ++ replyTo_lines message)%list).
  set (back := ([("Date: " ++ clock_utc w h)%string;
                 ("Message-ID: <" ++ message_id_at w h ++ ">")%string]
                  ++ content_type_lines message
                  ++ [""] ++ body_lines message)%list).
  transitivity (join CRLF (front ++ (("Subject: " ++ a) ++ CRLF ++ b) :: back)).
  - f_equal. unfold front, back. rewrite string_app_assoc.
    rewrite <- !app_assoc. reflexivity.
  - rewrite join_splice. f_equal. unfold front, back.
    rewrite <- !app_assoc. reflexivity.
Qed.

Lemma subject_line_break_adds_header_line_witness :
  buildEmailContent world_ok message_two_line_subject []
  = (Returned
       (join CRLF
          ["From: sender@example.com";
           "To: test@example.com";
           "Subject: Hello";
           "Bcc: other@example.com";
           "Date: Tue, 03 Nov 2026 10:00:00 GMT";
           "Message-ID: <1793700000000.k3j9x2m1q@synet.email>";
           "Content-Type: text/plain; charset=utf-8";
           "";
           "Test message"]),
     []).
Proof.
  apply (subject_line_break_adds_header_line world_ok
           message_two_line_subject [] "Hello" "Bcc: other@example.com").
  reflexivity.
Defined.

(* ================================================================= *)
(** * How a call fails *)

Section Failures.

Variable w : World.
Variable config : SMTPConfig.

(** The events of a step that throws. *)
Lemma StepRun_threw (s : Socket) (st : Step) (h : History)
    (evs : list Event) (e : Thrown) :
  StepRun w s st h evs (Threw e) ->
  (exists c r,
      evs = [EvWrite s (wire c); EvResponse s r] /\
      is_failure (EvResponse s r) = true /\
      e = thrown_by (EvResponse s r)) \/
  (exists c,
      evs = [EvWrite s (wire c); EvTimeout s c] /\
      e = thrown_by (EvTimeout s c)) \/
  (exists res,
      res <> Established /\
      evs = EvUpgrade s res :: after_failure (EvUpgrade s res) /\
      e = thrown_by (EvUpgrade s res)).
Proof.
  intros H. remember (Threw e) as o eqn:Eo.
  induction H as [c h r Hr Hc|c h r Hr Hc|c h Hr|h Hu|h e' Hu|h Hu
                  |m h content evs o Hb H IH].
  - discriminate.
  - injection Eo as <-. left. exists c, r. simpl. now rewrite Hc.
  - injection Eo as <-. right. left. now exists c.
  - discriminate.
  - injection Eo as <-. right. right. exists (Failed e').
    split; [discriminate|]. now split.
  - injection Eo as <-. right. right. exists TimedOut.
    split; [discriminate|]. now split.
  - now apply IH.
Qed.

(** The step at which a run stops. *)
Lemma Runs_threw (s : Socket) (steps : list Step) (h : History)
    (evs : list Event) (e : Thrown) :
  Runs w s steps h evs (Threw e) ->
  exists pre s' st last,
    evs = (pre ++ last)%list /\ all_ok pre = true /\
    StepRun w s' st (h ++ pre) last (Threw e).
Proof.
  intros H. remember (Threw e) as o eqn:Eo.
  induction H as [s h|s st rest h evs e' H|s st rest h evs1 s' evs2 o H R IH].
  - discriminate.
  - injection Eo as ->. exists [], s, st, evs.
    rewrite app_nil_r. now repeat split.
  - destruct (IH Eo) as (pre & s'' & st' & last & -> & Hok & Hlast).
    exists (evs1 ++ pre)%list, s'', st', last.
    rewrite <- app_assoc in Hlast. rewrite <- app_assoc.
    repeat split; [|exact Hlast].
    rewrite all_ok_app, Hok, andb_true_r.
    exact (StepRun_ends w _ _ _ _ _ H).
Qed.

Lemma caught_console (call : Call) : forallb is_console (caught call) = true.
Proof. destruct call; reflexivity. Qed.

(** The event that reports a failure decides the call. *)
Lemma call_failure (call : Call) (pre post : History) (ev : Event) :
  trace_of w config call = (pre ++ ev :: post)%list ->
  is_failure ev = true ->
  post = (after_failure ev ++ caught call)%list /\
  all_ok pre = true /\
  exists a,
    answer_of w config call = Returned a /\ succeeded a = false /\
    fails_with (message_of (thrown_by ev)) a.
Proof.
  intros Htr Hev.
  destruct (call_cases w config call) as (a & Ha & Hcases).
  destruct Hcases as [(_ & Hnil & _)
                     |[(_ & _ & _ & tr & s & Etr & R)
                      |(Hf & _ & _ & tr & e & Etr & R & Hfail)]].
  - rewrite Hnil in Htr. destruct pre; discriminate.
  - apply CallRuns_ends in R. simpl in R.
    assert (all_ok (tr ++ [EvDestroy s]) = true) as Hok
        by (rewrite all_ok_app, R; reflexivity).
    rewrite Etr in Htr.
    pose proof (all_ok_no_failure _ _ _ _ Hok Htr). congruence.
  - apply CallRuns_ends in R. simpl in R.
    destruct R as (pre0 & ev0 & -> & Hok & Hev0 & ->).
    rewrite Etr, <- app_assoc, <- app_comm_cons in Htr.
    assert (forallb is_console (after_failure ev0 ++ caught call) = true)
      as Hc.
    { rewrite forallb_app, after_failure_console, caught_console.
      reflexivity. }
    destruct (first_failure_unique _ _ _ _ _ _ Htr Hok Hev Hc)
      as (<- & <- & <-).
    split; [reflexivity|]. split; [exact Hok|].
    exists a. now repeat split.
Qed.

(** The write that a reported timeout waited for. *)
Lemma call_timeout_written (call : Call) (pre post : History) (s : Socket)
    (c : string) :
  trace_of w config call = (pre ++ EvTimeout s c :: post)%list ->
  exists pre', pre = (pre' ++ [EvWrite s (wire c)])%list.
Proof.
  intros Htr.
  destruct (call_cases w config call) as (a & Ha & Hcases).
  destruct Hcases as [(_ & Hnil & _)
                     |[(_ & _ & _ & tr & s0 & Etr & R)
                      |(Hf & _ & _ & tr & e & Etr & R & Hfail)]].
  - rewrite Hnil in Htr. destruct pre; discriminate.
  - apply CallRuns_ends in R. simpl in R.
    assert (all_ok (tr ++ [EvDestroy s0]) = true) as Hok
        by (rewrite all_ok_app, R; reflexivity).
    rewrite Etr in Htr.
    pose proof (all_ok_no_failure _ _ _ _ Hok Htr). discriminate.
  - rewrite Etr in Htr.
    assert (forall (A : History) (x : Event) (tl : History),
               tr = (A ++ x :: tl)%list -> all_ok A = true ->
               forallb is_console tl = true ->
               A = pre /\ x = EvTimeout s c) as Huniq.
    { intros A x tl -> HA Htl.
      rewrite <- app_assoc, <- app_comm_cons in Htr.
      assert (forallb is_console (tl ++ caught call) = true) as Hc
          by (rewrite forallb_app, Htl, caught_console; reflexivity).
      destruct (first_failure_unique _ _ _ _ _ _ Htr HA eq_refl Hc)
        as (-> & -> & _).
      now split. }
    inversion R as [e' Hn Ht Ho|Hn Ht Ho|evs o Hn Hruns Ht Ho]; subst.
    + destruct (Huniq [] _ [] eq_refl eq_refl eq_refl) as [_ X].
      discriminate.
    + destruct (Huniq [] _ [] eq_refl eq_refl eq_refl) as [_ X].
      discriminate.
    + destruct (Runs_threw _ _ _ _ _ Hruns)
        as (p & s' & st & last & -> & Hp & Hlast).
      apply StepRun_threw in Hlast.
      destruct Hlast as [(c' & r & -> & _ & _)
                        |[(c' & -> & _)|(res & _ & -> & _)]].
      * destruct (Huniq (EvConnect (initial_socket config) Established
                           :: p ++ [EvWrite s' (wire c')])%list
                        (EvResponse s' r) [])
          as [_ X]; [| |reflexivity|discriminate].
        -- simpl. now rewrite <- app_assoc.
        -- rewrite app_comm_cons, all_ok_app. simpl. simpl in Hp.
           now rewrite Hp.
      * destruct (Huniq (EvConnect (initial_socket config) Established
                           :: p ++ [EvWrite s' (wire c')])%list
                        (EvTimeout s' c') [])
          as [X1 X2]; [| |reflexivity|].
        -- simpl. now rewrite <- app_assoc.
        -- rewrite app_comm_cons, all_ok_app. simpl. simpl in Hp.
           now rewrite Hp.
        -- injection X2 as -> ->.
           exists (EvConnect (initial_socket config) Established :: p).
           rewrite <- X1. reflexivity.
      * destruct (Huniq (EvConnect (initial_socket config) Established :: p)
                        (EvUpgrade s' res)
                        (after_failure (EvUpgrade s' res)))
          as [_ X]; [reflexivity| |apply after_failure_console|discriminate].
        simpl. simpl in Hp. exact Hp.
Qed.

Lemma dialogue_no_connect (evs : list Event) :
  forallb is_dialogue evs = true -> existsb is_connect evs = false.
Proof.
  induction evs as [|ev evs IH]; [reflexivity|]. simpl.
  intros H. apply andb_true_iff in H. destruct H as [H1 H2].
  rewrite (IH H2), orb_false_r. unfold is_dialogue in H1.
  apply andb_true_iff in H1. destruct H1 as [H1 _].
  now apply negb_true_iff in H1.
Qed.

End Failures.

(** X2.  When a command is not answered in time, the call fails with
    "Command timeout: " followed by the whole of the command that was
    just written (for the credentials that is their base64 text, for the
    content the entire message), and the events end there: nothing more
    is written and the socket is not destroyed. *)
Theorem command_timeout_fails_call (w : World) (config : SMTPConfig)
    (call : Call) (pre post : History) (s : Socket) (c : string) :
  trace_of w config call = (pre ++ EvTimeout s c :: post)%list ->
  (exists a,
     answer_of w config call = Returned a /\ succeeded a = false /\
     fails_with ("Command timeout: " ++ c) a) /\
  (exists pre', pre = (pre' ++ [EvWrite s (c ++ CRLF)])%list) /\
  all_ok pre = true /\
  post = caught call.
Proof.
  intros Htr.
  destruct (call_failure w config call pre post _ Htr eq_refl)
    as (Hpost & Hok & a & Ha & Hs & Hf).
  split; [exists a; now repeat split|].
  split; [exact (call_timeout_written w config call pre post s c Htr)|].
  split; [exact Hok | exact Hpost].
Qed.

Lemma command_timeout_fails_call_witness :
  (exists a,
     answer_of world_silent_after_ehlo config_tls (Send message_plain)
     = Returned a /\ succeeded a = false /\
     fails_with ("Command timeout: " ++ "MAIL FROM:<sender@example.com>") a)
  /\
  (exists pre',
     [EvConnect TlsSocket Established;
      EvWrite TlsSocket ("EHLO localhost" ++ CRLF);
      EvResponse TlsSocket ("250 OK" ++ CRLF);
      EvWrite TlsSocket ("MAIL FROM:<sender@example.com>" ++ CRLF)]
     = (pre' ++ [EvWrite TlsSocket
                   ("MAIL FROM:<sender@example.com>" ++ CRLF)])%list) /\
  all_ok [EvConnect TlsSocket Established;
          EvWrite TlsSocket ("EHLO localhost" ++ CRLF);
          EvResponse TlsSocket ("250 OK" ++ CRLF);
          EvWrite TlsSocket ("MAIL FROM:<sender@example.com>" ++ CRLF)]
  = true /\
  @nil Event = caught (Send message_plain).
Proof.
  apply (command_timeout_fails_call world_silent_after_ehlo config_tls
           (Send message_plain) _ [] TlsSocket
           "MAIL FROM:<sender@example.com>").
  vm_compute. reflexivity.
Defined.

(** X3.  When the connection attempt fails or times out, a call that
    passed the address check fails with the error of the attempt
    ("Connection timeout" for a timeout): the attempt is the only event
    before the [catch] block, so nothing is written and no second attempt
    is made. *)
Theorem connection_failure_fails_call (w : World) (config : SMTPConfig)
    (call : Call) :
  passes_validation call = true ->
  net_connect w <> Established ->
  trace_of w config call
  = EvConnect (initial_socket config) (net_connect w) :: caught call /\
  exists a,
    answer_of w config call = Returned a /\ succeeded a = false /\
    fails_with (connect_error (net_connect w)) a.
Proof.
  intros Hv Hn.
  destruct (call_cases w config call) as (a & Ha & Hcases).
  destruct Hcases as [(_ & _ & Hv')
                     |[(_ & _ & _ & tr & s & Etr & R)
                      |(Hf & _ & _ & tr & e & Etr & R & Hfail)]].
  - congruence.
  - inversion R; subst. congruence.
  - inversion R as [e' Hc Ht Ho|Hc Ht Ho|evs o Hc Hruns Ht Ho]; subst.
    + rewrite Etr, Hc. split; [reflexivity|].
      exists a. now repeat split.
    + rewrite Etr, Hc. split; [reflexivity|].
      exists a. now repeat split.
    + congruence.
Qed.

Lemma connection_failure_fails_call_witness :
  trace_of world_unreachable config_submission (Send message_plain)
  = EvConnect (initial_socket config_submission)
      (net_connect world_unreachable) :: caught (Send message_plain) /\
  exists a,
    answer_of world_unreachable config_submission (Send message_plain)
    = Returned a /\ succeeded a = false /\
    fails_with (connect_error (net_connect world_unreachable)) a.
Proof.
  apply (connection_failure_fails_call world_unreachable config_submission
           (Send message_plain)).
  - reflexivity.
  - simpl. discriminate.
Defined.

(** X8.  A call makes at most one connection attempt: none when the
    address check fails, else one, as its first event, on a TLS socket
    when [secure] is set and on a plain one when it is not; no later
    event is a connection attempt. *)
Theorem one_connection_attempt (w : World) (config : SMTPConfig)
    (call : Call) :
  if passes_validation call
  then exists evs,
         trace_of w config call
         = EvConnect (if truthy_bool (secure config)
                      then TlsSocket else TcpSocket) (net_connect w) :: evs /\
         existsb is_connect evs = false
  else trace_of w config call = [].
Proof.
  destruct (call_cases w config call) as (a & Ha & Hcases).
  destruct Hcases as [(_ & Hnil & ->)
                     |[(_ & -> & _ & tr & s & Etr & R)
                      |(Hf & -> & _ & tr & e & Etr & R & Hfail)]].
  - exact Hnil.
  - apply CallRuns_head in R. destruct R as (evs & -> & Hd).
    exists (evs ++ [EvDestroy s])%list. split; [exact Etr|].
    rewrite existsb_app, (dialogue_no_connect _ Hd). reflexivity.
  - apply CallRuns_head in R. destruct R as (evs & -> & Hd).
    exists (evs ++ caught call)%list. split; [exact Etr|].
    rewrite existsb_app, (dialogue_no_connect _ Hd).
    destruct call; reflexivity.
Qed.

(* ================================================================= *)
(** * Sockets: which one is written to, upgraded and destroyed *)

Section Sockets.

Variable w : World.
Variable config : SMTPConfig.

Lemma StepRun_no_upgrade_event (s : Socket) (st : Step) (h : History)
    (evs : list Event) (o : Outcome Socket) :
  StepRun w s st h evs o ->
  is_upgrade st = false -> existsb is_upgrade_event evs = false.
Proof.
  induction 1; intros Hst; try reflexivity; try discriminate.
  now apply IHStepRun.
Qed.

Lemma Runs_no_upgrade_event (s : Socket) (steps : list Step) (h : History)
    (evs : list Event) (o : Outcome Socket) :
  Runs w s steps h evs o ->
  forallb (fun st => negb (is_upgrade st)) steps = true ->
  existsb is_upgrade_event evs = false.
Proof.
  induction 1 as [s h|s st rest h evs e H|s st rest h evs1 s' evs2 o H R IH];
    intros Hsteps.
  - reflexivity.
  - simpl in Hsteps. apply andb_true_iff in Hsteps. destruct Hsteps as [H1 _].
    apply negb_true_iff in H1.
    exact (StepRun_no_upgrade_event _ _ _ _ _ H H1).
  - simpl in Hsteps. apply andb_true_iff in Hsteps.
    destruct Hsteps as [H1 H2]. apply negb_true_iff in H1.
    rewrite existsb_app, (StepRun_no_upgrade_event _ _ _ _ _ H H1).
    now apply IH.
Qed.

Lemma StepRun_returned_socket (s s' : Socket) (st : Step) (h : History)
    (evs : list Event) :
  StepRun w s st h evs (Returned s') ->
  s' = if is_upgrade st then TlsOver s else s.
Proof.
  intros H. remember (Returned s') as o eqn:Eo.
  induction H; try discriminate; try (injection Eo as <-; reflexivity).
  now apply IHStepRun.
Qed.

Lemma Runs_final_socket (s s' : Socket) (steps : list Step) (h : History)
    (evs : list Event) :
  Runs w s steps h evs (Returned s') -> s' = socket_after s steps.
Proof.
  intros H. remember (Returned s') as o eqn:Eo.
  induction H as [s h|s st rest h evs e H|s st rest h evs1 s1 evs2 o H R IH].
  - now injection Eo as <-.
  - discriminate.
  - apply StepRun_returned_socket in H. subst s1. now apply IH.
Qed.

Lemma socket_after_same (steps : list Step) :
  forall s,
    forallb (fun st => negb (is_upgrade st)) steps = true ->
    socket_after s steps = s.
Proof.
  induction steps as [|st steps IH]; intros s Hs; [reflexivity|].
  simpl in Hs. apply andb_true_iff in Hs. destruct Hs as [H1 H2].
  apply negb_true_iff in H1. unfold socket_after. simpl. rewrite H1.
  now apply IH.
Qed.

(** The socket of the end of the dialogue. *)
Lemma socket_after_steps_of (call : Call) :
  socket_after (initial_socket config) (steps_of config call)
  = if wants_starttls config then TlsOver TcpSocket
    else initial_socket config.
Proof.
  rewrite steps_of_split. unfold starttls_steps.
  destruct (wants_starttls config) eqn:Ew.
  - rewrite (wanted_plain_socket config Ew). unfold socket_after. simpl.
    apply (socket_after_same _ (TlsOver TcpSocket)),
      (tail_no_upgrade config call).
  - simpl app. unfold socket_after. simpl.
    apply (socket_after_same _ (initial_socket config)),
      (tail_no_upgrade config call).
Qed.

(** The ways the STARTTLS exchange can go. *)
Lemma Runs_starttls_shape (s : Socket) (rest : list Step) (h : History)
    (evs : list Event) (o : Outcome Socket) :
  Runs w s
    (Command "EHLO localhost" :: Command "STARTTLS" :: Upgrade :: rest)
    h evs o ->
  (exists a,
      evs = [EvWrite s (wire "EHLO localhost"); a] /\ answers s a) \/
  (exists r0 a,
      evs = [EvWrite s (wire "EHLO localhost"); EvResponse s r0;
             EvWrite s (wire "STARTTLS"); a] /\ answers s a) \/
  (exists r0 r1 res tl,
      res <> Established /\
      evs = EvWrite s (wire "EHLO localhost") :: EvResponse s r0
              :: EvWrite s (wire "STARTTLS") :: EvResponse s r1
              :: EvUpgrade s res :: tl /\
      is_failure (EvResponse s r0) = false /\
      is_failure (EvResponse s r1) = false /\
      forallb is_console tl = true) \/
  (exists r0 r1 evs' h',
      evs = EvWrite s (wire "EHLO localhost") :: EvResponse s r0
              :: EvWrite s (wire "STARTTLS") :: EvResponse s r1
              :: EvUpgrade s Established
              :: EvConsole "TLS upgrade successful" :: evs' /\
      is_failure (EvResponse s r0) = false /\
      is_failure (EvResponse s r1) = false /\
      Runs w (TlsOver s) rest h' evs' o).
Proof.
  intros R.
  apply Runs_command_inv in R.
  destruct R as [(a & -> & Ha & _)|(r0 & evs1 & -> & Hr0 & R)].
  { left. now exists a. }
  apply Runs_command_inv in R.
  destruct R as [(a & -> & Ha & _)|(r1 & evs2 & -> & Hr1 & R)].
  { right. left. now exists r0, a. }
  apply Runs_upgrade_inv in R.
  destruct R as [(res & tl & Hres & -> & Htl)|(evs3 & -> & R)].
  { right. right. left. exists r0, r1, res, tl. now repeat split. }
  right. right. right. exists r0, r1, evs3. eexists.
  split; [reflexivity|]. split; [exact Hr0|]. split; [exact Hr1|]. exact R.
Qed.

Lemma answers_not_write (s : Socket) (a : Event) :
  answers s a -> is_write a = false /\ is_upgrade_event a = false.
Proof. intros [[r ->]|[c ->]]; now split. Qed.

Lemma ending_not_write (fin : History) (ev : Event) :
  forallb is_ending fin = true -> In ev fin ->
  is_write ev = false /\ is_upgrade_event ev = false.
Proof.
  intros Hf Hin. pose proof (ending_forall fin ev Hf Hin) as He.
  destruct ev; try discriminate; now split.
Qed.

Lemma console_not_write (tl : History) (ev : Event) :
  forallb is_console tl = true -> In ev tl ->
  is_write ev = false /\ is_upgrade_event ev = false.
Proof.
  intros Hf Hin. rewrite forallb_forall in Hf. specialize (Hf ev Hin).
  destruct ev; try discriminate; now split.
Qed.

Lemma no_upgrade_event_In (l : History) (p : Socket) (res : ConnResult) :
  existsb is_upgrade_event l = false -> ~ In (EvUpgrade p res) l.
Proof.
  intros H Hin.
  assert (existsb is_upgrade_event l = true) as X
      by (apply existsb_exists; now exists (EvUpgrade p res)).
  congruence.
Qed.

(** The trace of a call with a STARTTLS configuration: either no TLS
    upgrade succeeded, and all that was written is EHLO and STARTTLS on
    the plain socket; or the trace starts with the accepted EHLO and
    STARTTLS and the successful upgrade, after which every write is on
    the wrapped socket. *)
Lemma starttls_trace (call : Call) :
  wants_starttls config = true ->
  ((forall s data,
       In (EvWrite s data) (trace_of w config call) ->
       s = TcpSocket /\
       (data = wire "EHLO localhost" \/ data = wire "STARTTLS")) /\
   (existsb is_upgrade_event (trace_of w config call) = false \/
    exists r0 r1 res,
      res <> Established /\
      trace_of w config call
      = ([EvConnect TcpSocket Established;
          EvWrite TcpSocket (wire "EHLO localhost"); EvResponse TcpSocket r0;
          EvWrite TcpSocket (wire "STARTTLS"); EvResponse TcpSocket r1]
           ++ EvUpgrade TcpSocket res
           :: after_failure (EvUpgrade TcpSocket res) ++ caught call)%list /\
      is_failure (EvResponse TcpSocket r0) = false /\
      is_failure (EvResponse TcpSocket r1) = false))
  \/
  (exists r0 r1 evs,
      trace_of w config call
      = ([EvConnect TcpSocket Established;
          EvWrite TcpSocket (wire "EHLO localhost"); EvResponse TcpSocket r0;
          EvWrite TcpSocket (wire "STARTTLS"); EvResponse TcpSocket r1]
           ++ EvUpgrade TcpSocket Established
           :: EvConsole "TLS upgrade successful" :: evs)%list /\
      is_failure (EvResponse TcpSocket r0) = false /\
      is_failure (EvResponse TcpSocket r1) = false /\
      existsb is_upgrade_event evs = false /\
      forall s data, In (EvWrite s data) evs -> s = TlsOver TcpSocket).
Proof.
  intros Ew. pose proof (wanted_plain_socket config Ew) as Es.
  destruct (call_dialogue w config call)
    as [Hnil|[(res & Hres & Htr)|(evs & o & fin & Htr & R & Hfin)]].
  - left. rewrite Hnil. split; [intros s d []|]. now left.
  - left. rewrite Htr. split.
    + intros s d [X|X]; [discriminate|].
      destruct call; simpl in X; [destruct X|].
      destruct X as [X|[]]. discriminate.
    + left. destruct call; reflexivity.
  - rewrite Es in *. rewrite steps_of_split in R. unfold starttls_steps in R.
    rewrite Ew in R. simpl app in R.
    apply Runs_starttls_shape in R.
    destruct R as [(a & -> & Ha)
                  |[(r0 & a & -> & Ha)
                   |[(r0 & r1 & res & tl & Hres & -> & Hr0 & Hr1 & Htl)
                    |(r0 & r1 & evs' & h' & -> & Hr0 & Hr1 & R)]]].
    + left. rewrite Htr. destruct (answers_not_write _ _ Ha) as [Ha1 Ha2].
      split.
      * intros s d [X|[X|[X|X]]]; try discriminate.
        -- injection X as <- <-. split; [reflexivity|now left].
        -- subst a. discriminate.
        -- destruct (ending_not_write _ _ Hfin X). discriminate.
      * left. simpl. rewrite Ha2. simpl.
        apply not_true_is_false. intros X. apply existsb_exists in X.
        destruct X as (ev & Hin & Hev).
        destruct (ending_not_write _ _ Hfin Hin). congruence.
    + left. rewrite Htr. destruct (answers_not_write _ _ Ha) as [Ha1 Ha2].
      split.
      * intros s d [X|[X|[X|[X|[X|X]]]]]; try discriminate.
        -- injection X as <- <-. split; [reflexivity|now left].
        -- injection X as <- <-. split; [reflexivity|now right].
        -- subst a. discriminate.
        -- destruct (ending_not_write _ _ Hfin X). discriminate.
      * left. simpl. rewrite Ha2. simpl.
        apply not_true_is_false. intros X. apply existsb_exists in X.
        destruct X as (ev & Hin & Hev).
        destruct (ending_not_write _ _ Hfin Hin). congruence.
    + left.
      assert (trace_of w config call
              = ([EvConnect TcpSocket Established;
                  EvWrite TcpSocket (wire "EHLO localhost");
                  EvResponse TcpSocket r0;
                  EvWrite TcpSocket (wire "STARTTLS");
                  EvResponse TcpSocket r1]
                   ++ EvUpgrade TcpSocket res
                   :: after_failure (EvUpgrade TcpSocket res)
                   ++ caught call)%list) as Hshape.
      { destruct (call_failure w config call
                    [EvConnect TcpSocket Established;
                     EvWrite TcpSocket (wire "EHLO localhost");
                     EvResponse TcpSocket r0;
                     EvWrite TcpSocket (wire "STARTTLS");
                     EvResponse TcpSocket r1]
                    (tl ++ fin) (EvUpgrade TcpSocket res)) as (Hpost & _).
        - rewrite Htr. reflexivity.
        - destruct res; [congruence|reflexivity|reflexivity].
        - rewrite Htr. simpl. now rewrite Hpost. }
      split.
      * rewrite Htr.
        intros s d [X|[X|[X|[X|[X|[X|X]]]]]]; try discriminate.
        -- injection X as <- <-. split; [reflexivity|now left].
        -- injection X as <- <-. split; [reflexivity|now right].
        -- apply in_app_or in X. destruct X as [X|X].
           ++ destruct (console_not_write _ _ Htl X). discriminate.
           ++ destruct (ending_not_write _ _ Hfin X). discriminate.
      * right. now exists r0, r1, res.
    + right. exists r0, r1, (evs' ++ fin)%list.
      assert (forallb (fun st => negb (is_upgrade st))
                (Command "EHLO localhost" :: tail_steps config call) = true)
        as Hplain by (simpl; apply tail_no_upgrade).
      split; [rewrite Htr; reflexivity|].
      split; [exact Hr0|]. split; [exact Hr1|]. split.
      * rewrite existsb_app, (Runs_no_upgrade_event _ _ _ _ _ R Hplain).
        apply not_true_is_false. intros X. apply existsb_exists in X.
        destruct X as (ev & Hin & Hev).
        destruct (ending_not_write _ _ Hfin Hin). congruence.
      * intros s d X. apply in_app_or in X. destruct X as [X|X].
        -- exact (Runs_same_socket w _ _ _ _ _ R Hplain _ _ X).
        -- destruct (ending_not_write _ _ Hfin X). discriminate.
Qed.

Lemma steps_of_handshake (call : Call) :
  steps_of config call
  = (handshake_steps config ++ closing_steps config call)%list.
Proof. destruct call; reflexivity. Qed.

Lemma lines_of_handshake :
  lines_of (handshake_steps config) = map wire (handshake_sequence config).
Proof.
  unfold handshake_steps, handshake_sequence, starttls_steps, auth_steps.
  destruct (wants_starttls config), (auth config); reflexivity.
Qed.

(** A call that succeeds has written the whole handshake. *)
Lemma success_handshake_written (call : Call) (a : Answer) :
  answer_of w config call = Returned a ->
  succeeded a = true ->
  exists rest,
    writes (trace_of w config call)
    = (map wire (handshake_sequence config) ++ rest)%list.
Proof.
  intros Ha Hs.
  destruct (call_cases w config call) as (a' & Ha' & Hcases).
  assert (a' = a) as -> by congruence.
  destruct Hcases as [(Hf & _)
                     |[(_ & _ & _ & tr & s & Etr & R)
                      |(Hf & _)]]; try congruence.
  inversion R as [| |evs o Hc Hruns Ht Ho]; subst.
  rewrite steps_of_handshake in Hruns.
  apply Runs_app_inv in Hruns.
  destruct Hruns as [(e & He & _)|(s' & evs1 & evs2 & -> & R1 & R2)];
    [discriminate|].
  destruct (Runs_plain_writes w _ _ _ _ _ R1 (handshake_plain config)) as [_ Hw].
  specialize (Hw s' eq_refl).
  rewrite Etr. exists (writes evs2 ++ writes [EvDestroy s])%list.
  rewrite writes_app. simpl. rewrite writes_app, Hw, lines_of_handshake.
  now rewrite <- app_assoc.
Qed.

End Sockets.

Section SocketsOfCalls.

Variable w : World.
Variable config : SMTPConfig.
Variable call : Call.

Lemma existsb_false_forallb {A} (P : A -> bool) (l : list A) :
  existsb P l = false -> forallb (fun x => negb (P x)) l = true.
Proof.
  induction l as [|x l IH]; [reflexivity|]. simpl.
  intros H. apply orb_false_iff in H. destruct H as [-> H]. now apply IH.
Qed.

Lemma ending_no_upgrade_event (fin : History) :
  forallb is_ending fin = true -> existsb is_upgrade_event fin = false.
Proof.
  intros Hfin. apply not_true_is_false. intros X.
  apply existsb_exists in X. destruct X as (ev & Hin & Hev).
  destruct (ending_not_write _ _ Hfin Hin). congruence.
Qed.

(** Without STARTTLS no TLS upgrade is attempted. *)
Lemma plain_no_upgrade :
  wants_starttls config = false ->
  existsb is_upgrade_event (trace_of w config call) = false.
Proof.
  intros Ew.
  destruct (call_dialogue w config call)
    as [Hnil|[(res & Hres & Htr)|(evs & o & fin & Htr & R & Hfin)]].
  - now rewrite Hnil.
  - rewrite Htr. destruct call; reflexivity.
  - rewrite Htr. rewrite steps_of_split in R. unfold starttls_steps in R.
    rewrite Ew in R. simpl app in R. simpl.
    rewrite existsb_app, (ending_no_upgrade_event _ Hfin), orb_false_r.
    apply (Runs_no_upgrade_event w _ _ _ _ _ R).
    simpl. apply tail_no_upgrade.
Qed.

(** Where a TLS upgrade stands in the trace. *)
Lemma upgrade_event_position (pre post : History) (p : Socket)
    (res : ConnResult) :
  trace_of w config call = (pre ++ EvUpgrade p res :: post)%list ->
  wants_starttls config = true /\ p = TcpSocket /\
  exists r0 r1,
    pre = [EvConnect TcpSocket Established;
           EvWrite TcpSocket (wire "EHLO localhost"); EvResponse TcpSocket r0;
           EvWrite TcpSocket (wire "STARTTLS"); EvResponse TcpSocket r1] /\
    is_failure (EvResponse TcpSocket r0) = false /\
    is_failure (EvResponse TcpSocket r1) = false.
Proof.
  intros Htr.
  assert (In (EvUpgrade p res) (trace_of w config call)) as Hin
      by (rewrite Htr; apply in_elt).
  destruct (wants_starttls config) eqn:Ew.
  2:{ exfalso. exact (no_upgrade_event_In _ _ _ (plain_no_upgrade Ew) Hin). }
  split; [reflexivity|].
  destruct (starttls_trace w config call Ew)
    as [(_ & [Hno|(r0 & r1 & res0 & _ & Hshape & Hr0 & Hr1)])
       |(r0 & r1 & evs & Hshape & Hr0 & Hr1 & Hno & _)].
  - exfalso. exact (no_upgrade_event_In _ _ _ Hno Hin).
  - rewrite Htr in Hshape. symmetry in Hshape.
    apply (unique_split is_upgrade_event) in Hshape;
      [|reflexivity|reflexivity|].
    + destruct Hshape as (-> & X & _). injection X as -> ->.
      split; [reflexivity|]. now exists r0, r1.
    + destruct res0, call; reflexivity.
  - rewrite Htr in Hshape. symmetry in Hshape.
    apply (unique_split is_upgrade_event) in Hshape;
      [|reflexivity|reflexivity|].
    + destruct Hshape as (-> & X & _). injection X as -> ->.
      split; [reflexivity|]. now exists r0, r1.
    + simpl. now apply existsb_false_forallb.
Qed.

Lemma steps_of_quit :
  exists front,
    steps_of config call = (front ++ [Command "QUIT"])%list.
Proof.
  destruct call as [message|]; simpl.
  - exists (handshake_steps config
            ++ Command ("MAIL FROM:<" ++ from message ++ ">")
            :: rcpt_steps (recipients message)
            ++ [Command "DATA"; Payload message])%list.
    unfold send_steps. rewrite <- app_assoc. simpl. f_equal. f_equal.
    now rewrite <- app_assoc.
  - now exists (handshake_steps config).
Qed.

End SocketsOfCalls.

(** X4.  A TLS upgrade is attempted only with a STARTTLS configuration,
    on the plain socket, directly after the server has accepted EHLO and
    STARTTLS.  When the upgrade fails or times out the call fails with
    the error of the handshake ("TLS upgrade timeout" for a timeout) and
    the adapter writes nothing more: the dialogue is not carried on in
    plain text. *)
Theorem tls_upgrade_position (w : World) (config : SMTPConfig) (call : Call)
    (pre post : History) (p : Socket) (res : ConnResult) :
  trace_of w config call = (pre ++ EvUpgrade p res :: post)%list ->
  wants_starttls config = true /\ p = TcpSocket /\
  (exists r0 r1,
     pre = [EvConnect TcpSocket Established;
            EvWrite TcpSocket (wire "EHLO localhost");
            EvResponse TcpSocket r0;
            EvWrite TcpSocket (wire "STARTTLS");
            EvResponse TcpSocket r1] /\
     is_failure (EvResponse TcpSocket r0) = false /\
     is_failure (EvResponse TcpSocket r1) = false) /\
  (res <> Established ->
   writes post = [] /\
   exists a,
     answer_of w config call = Returned a /\ succeeded a = false /\
     fails_with (upgrade_error res) a).
Proof.
  intros Htr.
  destruct (upgrade_event_position w config call pre post p res Htr)
    as (Ew & Hp & Hpre).
  split; [exact Ew|]. split; [exact Hp|]. split; [exact Hpre|].
  intros Hres.
  assert (is_failure (EvUpgrade p res) = true) as Hf
      by (destruct res; [congruence|reflexivity|reflexivity]).
  destruct (call_failure w config call pre post _ Htr Hf)
    as (Hpost & _ & a & Ha & Hs & Hfail).
  split.
  - rewrite Hpost. destruct res, call; reflexivity.
  - exists a. split; [exact Ha|]. split; [exact Hs|].
    destruct res; [congruence|exact Hfail|exact Hfail].
Qed.

Lemma tls_upgrade_position_witness :
  wants_starttls config_submission = true /\ TcpSocket = TcpSocket /\
  (exists r0 r1,
     [EvConnect TcpSocket Established;
      EvWrite TcpSocket (wire "EHLO localhost");
      EvResponse TcpSocket ("250 OK" ++ CRLF);
      EvWrite TcpSocket (wire "STARTTLS");
      EvResponse TcpSocket ("250 OK" ++ CRLF)]
     = [EvConnect TcpSocket Established;
        EvWrite TcpSocket (wire "EHLO localhost");
        EvResponse TcpSocket r0;
        EvWrite TcpSocket (wire "STARTTLS");
        EvResponse TcpSocket r1] /\
     is_failure (EvResponse TcpSocket r0) = false /\
     is_failure (EvResponse TcpSocket r1) = false) /\
  (Failed (JsError "handshake failure") <> Established ->
   writes [EvConsole "TLS upgrade failed:"] = [] /\
   exists a,
     answer_of world_handshake_fails config_submission (Send message_plain)
     = Returned a /\ succeeded a = false /\
     fails_with (upgrade_error (Failed (JsError "handshake failure"))) a).
Proof.
  apply (tls_upgrade_position world_handshake_fails config_submission
           (Send message_plain)).
  vm_compute. reflexivity.
Defined.

(** X5.  With a STARTTLS configuration the only lines ever written on
    the plain socket are EHLO and STARTTLS; every other line (the
    credentials, the envelope, the content, QUIT) is written on the
    TLS-wrapped socket, and only after the upgrade has succeeded. *)
Theorem starttls_keeps_dialogue_off_plain_socket (w : World)
    (config : SMTPConfig) (call : Call) :
  wants_starttls config = true ->
  (forall s data,
     In (EvWrite s data) (trace_of w config call) ->
     (s = TcpSocket /\
      (data = wire "EHLO localhost" \/ data = wire "STARTTLS")) \/
     s = TlsOver TcpSocket) /\
  (forall pre data post,
     trace_of w config call
     = (pre ++ EvWrite (TlsOver TcpSocket) data :: post)%list ->
     In (EvUpgrade TcpSocket Established) pre).
Proof.
  intros Ew.
  destruct (starttls_trace w config call Ew)
    as [(Hplain & _)|(r0 & r1 & evs & Hshape & _ & _ & _ & Htls)].
  - split.
    + intros s d Hin. left. now apply Hplain.
    + intros pre d post Htr.
      assert (In (EvWrite (TlsOver TcpSocket) d) (trace_of w config call))
        as Hin by (rewrite Htr; apply in_elt).
      apply Hplain in Hin. destruct Hin as [X _]. discriminate.
  - split.
    + rewrite Hshape.
      intros s d [X|[X|[X|[X|[X|[X|[X|X]]]]]]]; try discriminate.
      * injection X as <- <-. left. split; [reflexivity|now left].
      * injection X as <- <-. left. split; [reflexivity|now right].
      * right. exact (Htls _ _ X).
    + intros pre d post Htr. rewrite Hshape in Htr. simpl in Htr.
      do 5 (destruct pre as [|? pre];
            [discriminate Htr | injection Htr as <- Htr]).
      destruct pre as [|? pre]; [discriminate Htr | injection Htr as <- Htr].
      simpl. tauto.
Qed.

Lemma starttls_keeps_dialogue_off_plain_socket_witness :
  (forall s data,
     In (EvWrite s data)
        (trace_of world_always_ok config_submission (Send message_plain)) ->
     (s = TcpSocket /\
      (data = wire "EHLO localhost" \/ data = wire "STARTTLS")) \/
     s = TlsOver TcpSocket) /\
  (forall pre data post,
     trace_of world_always_ok config_submission (Send message_plain)
     = (pre ++ EvWrite (TlsOver TcpSocket) data :: post)%list ->
     In (EvUpgrade TcpSocket Established) pre).
Proof.
  apply (starttls_keeps_dialogue_off_plain_socket world_always_ok
           config_submission (Send message_plain)).
  reflexivity.
Defined.

(** X6.  Port 465 switches STARTTLS off also when [secure] is not set:
    the connection is then plain TCP and stays so.  No STARTTLS is
    written, no TLS upgrade is attempted, every line goes out on the
    plain socket, and a call that succeeds has written the base64
    password there. *)
Theorem port_465_without_secure_is_plaintext (w : World)
    (config : SMTPConfig) (call : Call) :
  truthy_bool (secure config) = false ->
  port config = 465%Z ->
  (forall s data,
     In (EvWrite s data) (trace_of w config call) -> s = TcpSocket) /\
  existsb is_upgrade_event (trace_of w config call) = false /\
  ~ In (wire "STARTTLS") (writes (trace_of w config call)) /\
  (forall a credentials,
     answer_of w config call = Returned a ->
     succeeded a = true ->
     auth config = Some credentials ->
     In (EvWrite TcpSocket (wire (base64 (pass credentials))))
        (trace_of w config call)).
Proof.
  intros Hsec Hport.
  assert (wants_starttls config = false) as Ew.
  { unfold wants_starttls. rewrite Hport. apply andb_false_r. }
  assert (initial_socket config = TcpSocket) as Es
      by (unfold initial_socket; now rewrite Hsec).
  destruct (no_starttls_unless_wanted w config call Ew) as [Hno Hsock].
  rewrite Es in Hsock.
  split; [exact Hsock|]. split; [exact (plain_no_upgrade w config call Ew)|].
  split; [exact Hno|].
  intros a credentials Ha Hs Hauth.
  destruct (success_handshake_written w config call a Ha Hs) as (rest & Hw).
  assert (In (wire (base64 (pass credentials)))
             (writes (trace_of w config call))) as Hin.
  { rewrite Hw. apply in_or_app. left. apply in_map.
    unfold handshake_sequence. rewrite Ew, Hauth. simpl. tauto. }
  apply written_split in Hin. destruct Hin as (pre & s & post & Htr).
  assert (In (EvWrite s (wire (base64 (pass credentials))))
             (trace_of w config call)) as Hin
      by (rewrite Htr; apply in_elt).
  now rewrite <- (Hsock _ _ Hin).
Qed.

Lemma port_465_without_secure_is_plaintext_witness :
  (forall s data,
     In (EvWrite s data)
        (trace_of world_always_ok config_plain_465 (Send message_plain)) ->
     s = TcpSocket) /\
  existsb is_upgrade_event
    (trace_of world_always_ok config_plain_465 (Send message_plain)) = false /\
  ~ In (wire "STARTTLS")
       (writes (trace_of world_always_ok config_plain_465
                  (Send message_plain))) /\
  (forall a credentials,
     answer_of world_always_ok config_plain_465 (Send message_plain)
     = Returned a ->
     succeeded a = true ->
     auth config_plain_465 = Some credentials ->
     In (EvWrite TcpSocket (wire (base64 (pass credentials))))
        (trace_of world_always_ok config_plain_465 (Send message_plain))).
Proof.
  apply (port_465_without_secure_is_plaintext world_always_ok
           config_plain_465 (Send message_plain)); reflexivity.
Defined.

(** X7.  [destroy] is called exactly when the call succeeds, as the last
    thing and once, on the socket on which QUIT has just been accepted:
    the TLS-wrapped socket after STARTTLS, else the socket of the
    connection. *)
Theorem success_destroys_last_socket (w : World) (config : SMTPConfig)
    (call : Call) :
  let s := if wants_starttls config then TlsOver TcpSocket
           else initial_socket config in
  exists a,
    answer_of w config call = Returned a /\
    (succeeded a = true <->
     existsb is_destroy (trace_of w config call) = true) /\
    (succeeded a = true ->
     exists tr r,
       trace_of w config call
       = (tr ++ [EvWrite s (wire "QUIT"); EvResponse s r; EvDestroy s])%list /\
       is_failure (EvResponse s r) = false /\
       existsb is_destroy tr = false).
Proof.
  intros s0.
  destruct (call_cases w config call) as (a & Ha & Hcases).
  exists a. split; [exact Ha|].
  destruct Hcases as [(Hf & Hnil & _)
                     |[(Hs & _ & _ & tr & s & Etr & R)
                      |(Hf & _)]].
  - rewrite Hnil, Hf. simpl. split; [split; discriminate|discriminate].
  - rewrite Hs, Etr. split.
    + rewrite existsb_app. simpl. rewrite orb_true_r. tauto.
    + intros _.
      inversion R as [| |evs o Hc Hruns Ht Ho]; subst.
      pose proof (Runs_final_socket w _ _ _ _ _ Hruns) as Hsock.
      rewrite socket_after_steps_of in Hsock. fold s0 in Hsock. subst s.
      pose proof (Runs_dialogue w _ _ _ _ _ Hruns) as Hd.
      destruct (steps_of_quit config call) as (front & Hfront).
      rewrite Hfront in Hruns. apply Runs_app_inv in Hruns.
      destruct Hruns as [(e & He & _)|(s1 & evs1 & evs2 & -> & R1 & R2)];
        [discriminate|].
      pose proof (Runs_ends w _ _ _ _ _ R2) as Hok2.
      apply Runs_command_inv in R2.
      destruct R2 as [(x & -> & _ & Hx)|(r & evs' & -> & Hr & R2)].
      * exfalso. unfold ends_as, all_ok in Hok2. simpl in Hok2.
        rewrite Hx in Hok2. discriminate.
      * inversion R2; subst.
        exists (EvConnect (initial_socket config) Established :: evs1), r.
        split; [|split].
        -- simpl. rewrite <- !app_assoc. reflexivity.
        -- exact Hr.
        -- simpl. apply dialogue_no_destroy.
           rewrite forallb_app in Hd. apply andb_true_iff in Hd.
           tauto.
  - rewrite Hf.
    rewrite (failed_call_never_destroys w config call a Ha Hf).
    split; [split; discriminate|discriminate].
Qed.

(* ================================================================= *)
(** * A server that accepts everything *)

Section Cooperative.

Variable w : World.
Variable config : SMTPConfig.
Hypothesis Hw : cooperative w.

Lemma StepRun_cooperative (s : Socket) (st : Step) (h : History)
    (evs : list Event) (o : Outcome Socket) :
  StepRun w s st h evs o -> exists s', o = Returned s'.
Proof.
  destruct Hw as (_ & Hup & Hdata).
  induction 1 as [c h r Hr Hc|c h r Hr Hc|c h Hr|h Hu|h e' Hu|h Hu
                  |m h content evs o Hb H IH].
  - now exists s.
  - unfold reply_to in Hr.
    destruct (Hdata (h ++ [EvWrite s (c ++ CRLF)])%list) as (r' & Hr' & Hc').
    congruence.
  - unfold reply_to in Hr.
    destruct (Hdata (h ++ [EvWrite s (c ++ CRLF)])%list) as (r' & Hr' & Hc').
    congruence.
  - now exists (TlsOver s).
  - rewrite Hup in Hu. discriminate.
  - rewrite Hup in Hu. discriminate.
  - exact IH.
Qed.

Lemma Runs_cooperative (s : Socket) (steps : list Step) (h : History)
    (evs : list Event) (o : Outcome Socket) :
  Runs w s steps h evs o -> exists s', o = Returned s'.
Proof.
  induction 1 as [s h|s st rest h evs e H|s st rest h evs1 s' evs2 o H R IH].
  - now exists s.
  - apply StepRun_cooperative in H. destruct H as (s' & X). discriminate.
  - exact IH.
Qed.

Lemma CallRuns_cooperative (steps : list Step) (tr : list Event)
    (o : Outcome Socket) :
  CallRuns w config steps tr o -> exists s, o = Returned s.
Proof.
  destruct Hw as (Hc & _).
  inversion 1 as [e' Hn|Hn|evs o' Hn Hruns]; subst; try congruence.
  exact (Runs_cooperative _ _ _ _ _ Hruns).
Qed.

(** With such a server every call that passes the address check goes
    through. *)
Lemma cooperative_call (call : Call) :
  passes_validation call = true ->
  exists a,
    answer_of w config call = Returned a /\ succeeded a = true /\
    (forall message, call = Send message ->
       exists id, a = SendAnswer {| success := true; messageId := Some id;
                                    error := None |}).
Proof.
  intros Hv. unfold answer_of.
  destruct (run_RunOf w config call)
    as [message email -> Hto|message -> Hto Hfrom|tr s a _ Hs R Ha Hid
        |tr e a _ Hs R Ha].
  - simpl in Hv. rewrite Hto in Hv. discriminate.
  - simpl in Hv. rewrite Hto in Hv. congruence.
  - exists a. now repeat split.
  - apply CallRuns_cooperative in R. destruct R as (s & X). discriminate.
Qed.

End Cooperative.

Lemma command_sequence_no_recipient (config : SMTPConfig)
    (message : EmailMessage) (content : string) :
  recipients message = [] ->
  command_sequence config message content
  = (handshake_sequence config
       ++ [("MAIL FROM:<" ++ from message ++ ">")%string; "DATA";
           (content ++ CRLF ++ ".")%string; "QUIT"])%list.
Proof.
  unfold recipients. intros H.
  apply app_eq_nil in H. destruct H as [Hto H].
  apply app_eq_nil in H. destruct H as [Hcc Hbcc].
  unfold command_sequence, handshake_sequence.
  rewrite Hto, Hcc, Hbcc. simpl map. simpl app.
  f_equal. rewrite <- !app_assoc. reflexivity.
Qed.

(** X13.  When the connection and the TLS handshake are established and
    every command gets, in time, a complete reply that is not a
    rejection, every call that passes the address check succeeds:
    [checkConnection] returns [true] and [send] returns a result with
    [success], a message id and no error. *)
Theorem cooperative_server_call_succeeds (w : World) (config : SMTPConfig)
    (call : Call) :
  cooperative w ->
  passes_validation call = true ->
  exists a,
    answer_of w config call = Returned a /\ succeeded a = true /\
    all_ok (trace_of w config call) = true /\
    (forall message, call = Send message ->
       exists id, a = SendAnswer {| success := true; messageId := Some id;
                                    error := None |}).
Proof.
  intros Hw Hv.
  destruct (cooperative_call w config Hw call Hv) as (a & Ha & Hs & Hid).
  exists a. split; [exact Ha|]. split; [exact Hs|]. split; [|exact Hid].
  destruct (call_cases w config call) as (a' & Ha' & Hcases).
  assert (a' = a) as -> by congruence.
  destruct Hcases as [(Hf & _)
                     |[(_ & _ & _ & tr & s & Etr & R)
                      |(Hf & _)]]; try congruence.
  apply CallRuns_ends in R. simpl in R.
  rewrite Etr, all_ok_app, R. reflexivity.
Qed.

Lemma cooperative_server_call_succeeds_witness :
  exists a,
    answer_of world_always_ok config_submission (Send message_full)
    = Returned a /\ succeeded a = true /\
    all_ok (trace_of world_always_ok config_submission (Send message_full))
    = true /\
    (forall message, Send message_full = Send message ->
       exists id, a = SendAnswer {| success := true; messageId := Some id;
                                    error := None |}).
Proof.
  apply (cooperative_server_call_succeeds world_always_ok config_submission
           (Send message_full)).
  - split; [reflexivity|]. split; [intros h; reflexivity|].
    intros h. exists ("250 OK" ++ CRLF). split; reflexivity.
  - reflexivity.
Defined.

(** X12.  A message with no recipient at all (an empty [to] array, no
    [cc] and [bcc] addresses) is not refused: with a valid sender every
    [to] address there is passes the check, [send] connects and goes
    from MAIL FROM straight to DATA without any RCPT TO; when the server
    accepts every step the result is a success. *)
Theorem send_without_recipients (w : World) (config : SMTPConfig)
    (message : EmailMessage) :
  recipients message = [] ->
  validateEmail (from message) = true ->
  (exists content n,
     writes (trace_of w config (Send message))
     = firstn n
         (map wire
            (handshake_sequence config
               ++ [("MAIL FROM:<" ++ from message ++ ">")%string; "DATA";
                   (content ++ CRLF ++ ".")%string; "QUIT"]))) /\
  (exists evs,
     trace_of w config (Send message)
     = EvConnect (initial_socket config) (net_connect w) :: evs) /\
  (cooperative w ->
   exists id content,
     answer_of w config (Send message)
     = Returned (SendAnswer {| success := true; messageId := Some id;
                               error := None |}) /\
     writes (trace_of w config (Send message))
     = map wire
         (handshake_sequence config
            ++ [("MAIL FROM:<" ++ from message ++ ">")%string; "DATA";
                (content ++ CRLF ++ ".")%string; "QUIT"])).
Proof.
  intros Hr Hfrom.
  assert (passes_validation (Send message) = true) as Hv.
  { simpl. unfold first_invalid.
    unfold recipients in Hr. apply app_eq_nil in Hr. destruct Hr as [-> _].
    simpl. exact Hfrom. }
  destruct (send_writes w config message) as (content & _ & (n & Hn) & Hall).
  rewrite (command_sequence_no_recipient config message content Hr)
    in Hn, Hall.
  split; [now exists content, n|]. split.
  - destruct (call_cases w config (Send message)) as (a & Ha & Hcases).
    destruct Hcases as [(_ & _ & Hv')
                       |[(_ & _ & _ & tr & s & Etr & R)
                        |(_ & _ & _ & tr & e & Etr & R & _)]].
    + congruence.
    + apply CallRuns_head in R. destruct R as (evs & -> & _).
      rewrite Etr. now eexists.
    + apply CallRuns_head in R. destruct R as (evs & -> & _).
      rewrite Etr. now eexists.
  - intros Hw.
    destruct (cooperative_call w config Hw (Send message) Hv)
      as (a & Ha & Hs & Hid).
    destruct (Hid message eq_refl) as (id & ->).
    exists id, content. split; [exact Ha|]. exact (Hall _ Ha Hs).
Qed.

Lemma send_without_recipients_witness :
  (exists content n,
     writes (trace_of world_always_ok config_tls (Send message_no_recipient))
     = firstn n
         (map wire
            (handshake_sequence config_tls
               ++ [("MAIL FROM:<" ++ from message_no_recipient ++ ">")%string; "DATA";
                   (content ++ CRLF ++ ".")%string; "QUIT"]))) /\
  (exists evs,
     trace_of world_always_ok config_tls (Send message_no_recipient)
     = EvConnect (initial_socket config_tls) (net_connect world_always_ok)
         :: evs) /\
  (cooperative world_always_ok ->
   exists id content,
     answer_of world_always_ok config_tls (Send message_no_recipient)
     = Returned (SendAnswer {| success := true; messageId := Some id;
                               error := None |}) /\
     writes (trace_of world_always_ok config_tls (Send message_no_recipient))
     = map wire
         (handshake_sequence config_tls
            ++ [("MAIL FROM:<" ++ from message_no_recipient ++ ">")%string; "DATA";
                (content ++ CRLF ++ ".")%string; "QUIT"])).
Proof.
  apply (send_without_recipients world_always_ok config_tls
           message_no_recipient); reflexivity.
Defined.

(* ================================================================= *)
(** * The message id of the result *)

Lemma send_result (w : World) (config : SMTPConfig) (message : EmailMessage)
    (o : Outcome Socket) (tr : History) :
  passes_validation (Send message) = true ->
  (socket <- createConnection w config ;;
   exec w socket (send_steps config message)) [] = (o, tr) ->
  send w config message []
  = match o with
    | Returned s =>
        (Returned {| success := true;
                     messageId :=
                       Some (message_id_at w (tr ++ [EvDestroy s]));
                     error := None |},
         (tr ++ [EvDestroy s])%list)
    | Threw e => (Returned (failure (message_of e)), tr)
    end.
Proof.
  intros Hv E. simpl in Hv. unfold first_invalid in Hv.
  destruct (find _ _) eqn:Hfind; [discriminate|].
  rewrite (send_exec w config message [] Hfind Hv).
  rewrite try_catch_bind, E. destruct o as [s|e]; reflexivity.
Qed.

(** The payload of a run of [send] that goes through. *)
Lemma Runs_send_payload (w : World) (config : SMTPConfig)
    (message : EmailMessage) (s0 s : Socket) (h : History)
    (evs : list Event) :
  Runs w s0 (send_steps config message) h evs (Returned s) ->
  exists evs1 r evs2,
    evs = (evs1 ++ EvWrite s (wire
             (join CRLF
                (header_lines (clock_utc w (h ++ evs1))
                   (message_id_at w (h ++ evs1)) message
                   ++ [""] ++ body_lines message) ++ CRLF ++ "."))
             :: EvResponse s r :: evs2)%list.
Proof.
  intros R. rewrite send_steps_split in R. apply Runs_app_inv in R.
  destruct R as [(e & He & _)|(s' & evs1 & evs2 & -> & R1 & R2)];
    [discriminate|].
  inversion R2 as [| |s1 st rest h1 evsP s2 evsQ o HP HQ]; subst.
  pose proof (StepRun_returned_socket w _ _ _ _ _ HP) as X1.
  pose proof (Runs_final_socket w _ _ _ _ _ HQ) as X2.
  unfold socket_after in X2. simpl in X1, X2. subst.
  inversion HP as [| | | | | |m h2 content evs' o' Hb Hc]; subst.
  rewrite buildEmailContent_lines in Hb. simpl in Hb.
  injection Hb as <-.
  inversion Hc as [c h3 r Hr Hcode| | | | | |]; subst.
  do 3 eexists. reflexivity.
Qed.

(** X9.  The [messageId] of a successful result is not the Message-ID
    that was sent: the header is made when the content is built, from
    the clock and the random source as they are before the content is
    written, and the id of the result by a second call of
    [generateMessageId], after the socket was destroyed. *)
Theorem result_message_id_is_generated_anew (w : World)
    (config : SMTPConfig) (message : EmailMessage) (result : EmailResult) :
  answer_of w config (Send message) = Returned (SendAnswer result) ->
  success result = true ->
  messageId result
  = Some (message_id_at w (trace_of w config (Send message))) /\
  exists pre s r post,
    trace_of w config (Send message)
    = (pre ++ EvWrite s (wire
                (join CRLF
                   (header_lines (clock_utc w pre) (message_id_at w pre)
                      message
                      ++ [""] ++ body_lines message) ++ CRLF ++ "."))
         :: EvResponse s r :: post ++ [EvDestroy s])%list.
Proof.
  intros Ha Hs.
  assert (passes_validation (Send message) = true) as Hv.
  { destruct (call_cases w config (Send message)) as (a & Ha' & Hcases).
    assert (a = SendAnswer result) as -> by congruence.
    destruct Hcases as [(Hf & _)|[(_ & Hv & _)|(Hf & _)]];
      simpl in *; congruence. }
  destruct (call_CallRuns w config (send_steps config message))
    as (tr & o & E & R).
  pose proof (send_result w config message o tr Hv E) as Hsend.
  unfold answer_of, trace_of in *. simpl run in *. rewrite Hsend in *.
  destruct o as [s|e]; simpl in *.
  2:{ injection Ha as <-. discriminate. }
  injection Ha as <-. split; [reflexivity|].
  inversion R as [| |evs o Hc Hruns Ht Ho]; subst.
  destruct (Runs_send_payload w config message _ _ _ _ Hruns)
    as (evs1 & r & evs2 & ->).
  exists (EvConnect (initial_socket config) Established :: evs1), s, r, evs2.
  simpl. rewrite <- app_assoc. reflexivity.
Qed.

Lemma result_message_id_is_generated_anew_witness :
  messageId {| success := true;
               messageId := Some "1793700000014.k3j9x2m1q@synet.email";
               error := None |}
  = Some (message_id_at world_always_ok
            (trace_of world_always_ok config_tls (Send message_plain))) /\
  exists pre s r post,
    trace_of world_always_ok config_tls (Send message_plain)
    = (pre ++ EvWrite s (wire
                (join CRLF
                   (header_lines (clock_utc world_always_ok pre)
                      (message_id_at world_always_ok pre) message_plain
                      ++ [""] ++ body_lines message_plain) ++ CRLF ++ "."))
         :: EvResponse s r :: post ++ [EvDestroy s])%list.
Proof.
  apply (result_message_id_is_generated_anew world_always_ok config_tls
           message_plain).
  - vm_compute. reflexivity.
  - reflexivity.
Defined.

(* ================================================================= *)
(** * The Resend adapter and the Email unit *)

Lemma send_returns (w : World) (config : SMTPConfig) (message : EmailMessage)
    (h : History) :
  exists result h', send w config message h = (Returned result, h').
Proof.
  unfold send, try_catch.
  match goal with
  | |- context [match ?b with _ => _ end] => destruct b as [[a|e] h']
  end; do 2 eexists; reflexivity.
Qed.

Lemma try_catch_returned {A} (m : M A) (k : Thrown -> M A) (h h' : History)
    (a : A) :
  m h = (Returned a, h') -> try_catch m k h = m h.
Proof. intros E. unfold try_catch. now rewrite E. Qed.

Lemma run_send (w : World) (config : SMTPConfig) (message : EmailMessage) :
  trace_of w config (Send message) = snd (send w config message []) /\
  forall result,
    fst (send w config message []) = Returned result <->
    answer_of w config (Send message) = Returned (SendAnswer result).
Proof.
  unfold trace_of, answer_of. simpl.
  destruct (send w config message []) as [[r|e] h]; simpl.
  - split; [reflexivity|]. intros result. split; congruence.
  - split; [reflexivity|]. intros result. split; discriminate.
Qed.

Lemma run_check (w : World) (config : SMTPConfig) :
  trace_of w config Check = snd (checkConnection w config []) /\
  forall connected,
    fst (checkConnection w config []) = Returned connected <->
    answer_of w config Check = Returned (CheckAnswer connected).
Proof.
  unfold trace_of, answer_of. simpl.
  destruct (checkConnection w config []) as [[r|e] h]; simpl.
  - split; [reflexivity|]. intros connected. split; congruence.
  - split; [reflexivity|]. intros connected. split; discriminate.
Qed.

(** The connection attempt of a call, if there is one, opens the trace. *)
Lemma call_head (w : World) (config : SMTPConfig) (call : Call) :
  trace_of w config call = [] \/
  exists evs,
    trace_of w config call
    = EvConnect (initial_socket config) (net_connect w) :: evs /\
    existsb is_connect evs = false.
Proof.
  destruct (call_cases w config call) as (a & Ha & Hcases).
  destruct Hcases as [(_ & Hnil & _)
                     |[(_ & _ & _ & tr & s & Etr & R)
                      |(Hf & _ & _ & tr & e & Etr & R & Hfail)]].
  - now left.
  - right. apply CallRuns_head in R. destruct R as (evs & -> & Hd).
    exists (evs ++ [EvDestroy s])%list. split; [exact Etr|].
    rewrite existsb_app, (dialogue_no_connect _ Hd). reflexivity.
  - right. apply CallRuns_head in R. destruct R as (evs & -> & Hd).
    exists (evs ++ caught call)%list. split; [exact Etr|].
    rewrite existsb_app, (dialogue_no_connect _ Hd).
    destruct call; reflexivity.
Qed.

Lemma connect_on_initial_socket (w : World) (config : SMTPConfig)
    (call : Call) (s : Socket) (res : ConnResult) :
  In (EvConnect s res) (trace_of w config call) -> s = initial_socket config.
Proof.
  destruct (call_head w config call) as [->|(evs & -> & Hno)].
  - intros [].
  - intros [X|X]; [now injection X as <- _|].
    assert (existsb is_connect evs = true) as Y
        by (apply existsb_exists; now exists (EvConnect s res)).
    congruence.
Qed.

Lemma resend_no_starttls (config : ResendConfig) :
  wants_starttls (ResendEmail config) = false /\
  initial_socket (ResendEmail config) = TlsSocket.
Proof. split; reflexivity. Qed.

Lemma resend_command_sequence (config : ResendConfig)
    (message : EmailMessage) (content : string) :
  command_sequence (ResendEmail config) (resend_message config message)
    content
  = resend_sequence config message (resend_from config message) content.
Proof.
  unfold command_sequence, resend_sequence, recipients. simpl.
  replace (base64 "resend") with "cmVzZW5k" by (vm_compute; reflexivity).
  rewrite !map_app, <- !app_assoc. reflexivity.
Qed.

(** The lines of a [checkConnection] that succeeds. *)
Lemma check_writes (w : World) (config : SMTPConfig) (a : Answer) :
  answer_of w config Check = Returned a ->
  succeeded a = true ->
  writes (trace_of w config Check)
  = map wire (handshake_sequence config ++ ["QUIT"]).
Proof.
  intros Ha Hs.
  destruct (call_cases w config Check) as (a' & Ha' & Hcases).
  assert (a' = a) as -> by congruence.
  destruct Hcases as [(Hf & _)
                     |[(_ & _ & _ & tr & s & Etr & R)
                      |(Hf & _)]]; try congruence.
  inversion R as [| |evs o Hc Hruns Ht Ho]; subst.
  simpl steps_of in Hruns.
  assert (forallb (fun st => negb (is_payload st)) (check_steps config)
          = true) as Hplain.
  { unfold check_steps. rewrite forallb_app, (handshake_plain config).
    reflexivity. }
  destruct (Runs_plain_writes w _ _ _ _ _ Hruns Hplain) as [_ Hw].
  specialize (Hw s eq_refl).
  rewrite Etr, writes_app. simpl. rewrite Hw, app_nil_r.
  unfold check_steps. rewrite lines_of_app, lines_of_handshake, map_app.
  reflexivity.
Qed.

(** X14.  Whatever the configuration, the Resend adapter talks TLS from
    the first byte: the connection is made on a TLS socket, no STARTTLS
    is written and no upgrade attempted, and every line goes out on that
    socket.  It always authenticates, as user "resend" with the API key
    as password: a send that succeeds has written EHLO, AUTH LOGIN,
    "cmVzZW5k", the base64 API key, and then the envelope, the content
    and QUIT; a connection check that succeeds has written the same
    four lines and QUIT. *)
Theorem resend_dialogue (w : World) (config : ResendConfig)
    (message : EmailMessage) :
  let tr := snd (resend_send w config message []) in
  let tc := snd (resend_checkConnection w config []) in
  ((forall s res, In (EvConnect s res) tr -> s = TlsSocket) /\
   (forall s data, In (EvWrite s data) tr -> s = TlsSocket) /\
   existsb is_upgrade_event tr = false /\
   ~ In (wire "STARTTLS") (writes tr) /\
   (forall result,
      fst (resend_send w config message []) = Returned result ->
      success result = true ->
      exists content,
        writes tr
        = map wire (resend_sequence config message
                      (resend_from config message) content))) /\
  ((forall s res, In (EvConnect s res) tc -> s = TlsSocket) /\
   (forall s data, In (EvWrite s data) tc -> s = TlsSocket) /\
   existsb is_upgrade_event tc = false /\
   ~ In (wire "STARTTLS") (writes tc) /\
   (fst (resend_checkConnection w config []) = Returned true ->
    writes tc
    = map wire ["EHLO localhost"; "AUTH LOGIN"; "cmVzZW5k";
                base64 (apiKey config); "QUIT"])).
Proof.
  intros tr tc. unfold resend_send, resend_checkConnection in *.
  subst tr tc.
  set (smtpConfig := ResendEmail config).
  set (emailMessage := resend_message config message).
  destruct (resend_no_starttls config) as [Ew Es].
  fold smtpConfig in Ew, Es.
  assert (forall call,
             (forall s res, In (EvConnect s res) (trace_of w smtpConfig call)
                            -> s = TlsSocket) /\
             (forall s data, In (EvWrite s data) (trace_of w smtpConfig call)
                             -> s = TlsSocket) /\
             existsb is_upgrade_event (trace_of w smtpConfig call) = false /\
             ~ In (wire "STARTTLS") (writes (trace_of w smtpConfig call)))
    as Hcommon.
  { intros call.
    destruct (no_starttls_unless_wanted w smtpConfig call Ew) as [Hno Hsock].
    rewrite Es in Hsock.
    split; [|split; [exact Hsock|split;
               [exact (plain_no_upgrade w smtpConfig call Ew)|exact Hno]]].
    intros s res Hin. rewrite <- Es.
    exact (connect_on_initial_socket w smtpConfig _ s res Hin). }
  split.
  - destruct (run_send w smtpConfig emailMessage) as [Htr Hans].
    rewrite <- Htr.
    destruct (Hcommon (Send emailMessage)) as (H1 & H2 & H3 & H4).
    split; [exact H1|]. split; [exact H2|]. split; [exact H3|].
    split; [exact H4|].
    intros result Hr Hs. apply Hans in Hr.
    destruct (send_writes w smtpConfig emailMessage)
      as (content & _ & _ & Hall).
    exists content. rewrite (Hall _ Hr Hs).
    unfold smtpConfig, emailMessage.
    now rewrite resend_command_sequence.
  - destruct (run_check w smtpConfig) as [Htr Hans].
    rewrite <- Htr.
    destruct (Hcommon Check) as (H1 & H2 & H3 & H4).
    split; [exact H1|]. split; [exact H2|]. split; [exact H3|].
    split; [exact H4|].
    intros Hr. apply Hans in Hr.
    rewrite (check_writes w smtpConfig _ Hr eq_refl).
    unfold handshake_sequence. simpl.
    replace (base64 "resend") with "cmVzZW5k" by (vm_compute; reflexivity).
    reflexivity.
Qed.

Lemma resend_from_cases (config : ResendConfig) (message : EmailMessage)
    (sender : string) :
  (from message <> "" /\ sender = from message) \/
  (from message = "" /\ defaultFrom config = Some sender) \/
  (from message = "" /\ defaultFrom config = None /\ sender = "") ->
  resend_from config message = sender.
Proof.
  unfold resend_from.
  intros [[Hne ->]|[[He Hd]|(He & Hd & ->)]].
  - apply String.eqb_neq in Hne. now rewrite Hne.
  - rewrite He, Hd. simpl.
    destruct (String.eqb sender "") eqn:E; [|reflexivity].
    now apply String.eqb_eq in E.
  - now rewrite He, Hd.
Qed.

(** A call that passes the address check starts with the connection
    attempt. *)
Lemma validated_call_connects (w : World) (config : SMTPConfig)
    (call : Call) :
  passes_validation call = true ->
  exists evs,
    trace_of w config call
    = EvConnect (initial_socket config) (net_connect w) :: evs.
Proof.
  intros Hv.
  destruct (call_cases w config call) as (a & Ha & Hcases).
  destruct Hcases as [(_ & _ & Hv')
                     |[(_ & _ & _ & tr & s & Etr & R)
                      |(_ & _ & _ & tr & e & Etr & R & _)]].
  - congruence.
  - apply CallRuns_head in R. destruct R as (evs & -> & _).
    rewrite Etr. now eexists.
  - apply CallRuns_head in R. destruct R as (evs & -> & _).
    rewrite Etr. now eexists.
Qed.

(** X15.  The sender that the Resend adapter uses is the [from] of the
    message when that is not empty, else the [from] of the configuration,
    else the empty [from] of the message.  This sender is what is
    checked and what MAIL FROM names: when it is not a valid address
    (the [to] addresses being valid) the call fails with "Invalid from
    email address: " and the sender, without connecting; a non-empty
    invalid [from] of the message is not replaced by the default. *)
Theorem resend_sender (w : World) (config : ResendConfig)
    (message : EmailMessage) (sender : string) :
  (from message <> "" /\ sender = from message) \/
  (from message = "" /\ defaultFrom config = Some sender) \/
  (from message = "" /\ defaultFrom config = None /\ sender = "") ->
  first_invalid message = None ->
  (validateEmail sender = false ->
   resend_send w config message []
   = (Returned (failure ("Invalid from email address: " ++ sender)), [])) /\
  (validateEmail sender = true ->
   (exists evs,
      snd (resend_send w config message [])
      = EvConnect TlsSocket (net_connect w) :: evs) /\
   (forall result,
      fst (resend_send w config message []) = Returned result ->
      success result = true ->
      In (wire ("MAIL FROM:<" ++ sender ++ ">"))
         (writes (snd (resend_send w config message []))))).
Proof.
  intros Hcases Hto. apply resend_from_cases in Hcases.
  unfold resend_send. split.
  - intros Hbad. unfold send, try_catch.
    change (to (resend_message config message)) with (to message).
    change (from (resend_message config message))
      with (resend_from config message).
    unfold first_invalid in Hto. rewrite Hto, Hcases, Hbad. reflexivity.
  - intros Hok.
    set (smtpConfig := ResendEmail config).
    set (emailMessage := resend_message config message).
    destruct (run_send w smtpConfig emailMessage) as [Htr Hans].
    rewrite <- Htr.
    assert (passes_validation (Send emailMessage) = true) as Hv.
    { simpl. unfold first_invalid in *. unfold emailMessage.
      change (to (resend_message config message)) with (to message).
      change (from (resend_message config message))
        with (resend_from config message).
      now rewrite Hto, Hcases. }
    split.
    + exact (validated_call_connects w smtpConfig (Send emailMessage) Hv).
    + intros result Hr Hs. apply Hans in Hr.
      destruct (send_writes w smtpConfig emailMessage)
        as (content & _ & _ & Hall).
      rewrite (Hall _ Hr Hs). unfold smtpConfig, emailMessage.
      rewrite resend_command_sequence, Hcases. apply in_map.
      unfold resend_sequence. simpl. tauto.
Qed.

Lemma resend_sender_witness :
  (validateEmail "default@example.com" = false ->
   resend_send world_always_ok resend_sample message_no_sender []
   = (Returned (failure ("Invalid from email address: "
                           ++ "default@example.com")), [])) /\
  (validateEmail "default@example.com" = true ->
   (exists evs,
      snd (resend_send world_always_ok resend_sample message_no_sender [])
      = EvConnect TlsSocket (net_connect world_always_ok) :: evs) /\
   (forall result,
      fst (resend_send world_always_ok resend_sample message_no_sender [])
      = Returned result ->
      success result = true ->
      In (wire ("MAIL FROM:<" ++ "default@example.com" ++ ">"))
         (writes (snd (resend_send world_always_ok resend_sample
                         message_no_sender []))))).
Proof.
  apply (resend_sender world_always_ok resend_sample message_no_sender
           "default@example.com").
  - right. left. split; reflexivity.
  - reflexivity.
Defined.

Lemma Email_send_provider (w : World) (unit : EmailProps)
    (message : EmailMessage) (h : History) :
  Email_send w unit message h = provider_send w (provider unit) message h.
Proof.
  unfold Email_send.
  assert (exists result h',
             provider_send w (provider unit) message h = (Returned result, h'))
    as (result & h' & E).
  { destruct (provider unit) as [c|c]; simpl; apply send_returns. }
  exact (try_catch_returned _ _ _ _ _ E).
Qed.

(** A send that succeeds with credentials has written AUTH LOGIN. *)
Lemma authenticated_success (w : World) (config : SMTPConfig)
    (message : EmailMessage) (credentials : Auth) (result : EmailResult)
    (tr : History) :
  auth config = Some credentials ->
  send w config message [] = (Returned result, tr) ->
  success result = true ->
  In (wire "AUTH LOGIN") (writes tr).
Proof.
  intros Hauth E Hs.
  destruct (run_send w config message) as [Htr Hans].
  rewrite E in Htr, Hans. simpl in Htr, Hans.
  destruct (success_handshake_written w config (Send message)
              (SendAnswer result)) as (rest & Hw).
  - now apply Hans.
  - exact Hs.
  - rewrite <- Htr, Hw. apply in_or_app. left. apply in_map.
    unfold handshake_sequence. rewrite Hauth.
    destruct (wants_starttls config); simpl; tauto.
Qed.

(** X17.  [Email.create] refuses an SMTP configuration whose host is
    empty, whose port is 0 or which has no credentials, although the
    SMTP adapter itself works without credentials.  So every unit that
    [create] returns authenticates: a send through it that succeeds has
    written AUTH LOGIN. *)
Theorem create_demands_credentials :
  (forall options,
     host options = "" \/ port options = 0%Z \/ auth options = None ->
     Email_create (SmtpConfig options)
     = Threw (JsError
                "[email] SMTP requires host, port, and auth configuration"))
  /\
  (forall config unit w message result tr,
     Email_create config = Returned unit ->
     Email_send w unit message [] = (Returned result, tr) ->
     success result = true ->
     In (wire "AUTH LOGIN") (writes tr)).
Proof.
  split.
  - intros options H. unfold Email_create.
    destruct H as [H|[H|H]]; rewrite H; simpl.
    + reflexivity.
    + now rewrite orb_true_r.
    + now rewrite orb_true_r.
  - intros config unit w message result tr Hc E Hs.
    rewrite Email_send_provider in E. unfold Email_create in Hc.
    destruct config as [options|options].
    + destruct (auth options) as [credentials|] eqn:Hauth.
      2:{ rewrite orb_true_r in Hc. discriminate. }
      destruct (_ || _ || _); [discriminate|].
      injection Hc as <-. simpl in E.
      now apply (authenticated_success w (SMTPEmail options) message
                   credentials result tr).
    + injection Hc as <-. simpl in E. unfold resend_send in E.
      now apply (authenticated_success w (ResendEmail options)
                   (resend_message options message)
                   {| user := "resend"; pass := apiKey options |} result tr).
Qed.

(* ================================================================= *)
(** * The end of the content *)

Lemma content_with_body (w : World) (message : EmailMessage) (h : History)
    (body : string) :
  body_lines message = [body] ->
  buildEmailContent w message h
  = (Returned
       (join CRLF (header_lines (clock_utc w h) (message_id_at w h) message)
          ++ CRLF ++ CRLF ++ body), h).
Proof.
  intros Hb. rewrite buildEmailContent_lines, Hb. f_equal. f_equal.
  assert (header_lines (clock_utc w h) (message_id_at w h) message <> [])
    as Hne by (unfold header_lines; discriminate).
  rewrite app_assoc, join_snoc
    by (intros X; apply app_eq_nil in X; destruct X; discriminate).
  rewrite join_snoc by exact Hne.
  now rewrite !string_app_assoc.
Qed.

(** X16.  The body goes into the content as it is, and the content is
    written as it is, closed by CRLF, a dot and CRLF: a line of the body
    that holds a single dot is not escaped, so what is written holds the
    end-of-data mark in the middle, followed by the rest of the body. *)
Theorem body_dot_line_is_not_escaped (w : World) (socket : Socket)
    (message : EmailMessage) (h : History) (above below : string) :
  body_lines message = [above ++ CRLF ++ "." ++ CRLF ++ below] ->
  exists evs,
    snd ((emailContent <- buildEmailContent w message ;;
          sendCommand w socket (emailContent ++ CRLF ++ ".")) h)
    = (h ++ EvWrite socket
              ((join CRLF (header_lines (clock_utc w h) (message_id_at w h)
                             message)
                  ++ CRLF ++ CRLF ++ above)
                 ++ (CRLF ++ "." ++ CRLF)
                 ++ below ++ (CRLF ++ "." ++ CRLF))
         :: evs)%list.
Proof.
  intros Hb. unfold bind at 1.
  rewrite (content_with_body w message h _ Hb).
  rewrite sendCommand_run.
  match goal with
  | |- context [EvWrite socket ?d] =>
      replace d
        with ((join CRLF (header_lines (clock_utc w h) (message_id_at w h)
                            message)
                 ++ CRLF ++ CRLF ++ above)
                ++ (CRLF ++ "." ++ CRLF)
                ++ below ++ (CRLF ++ "." ++ CRLF))
        by (now rewrite !string_app_assoc)
  end.
  destruct (reply_to _ _ _ _) as [r|].
  - destruct (ge_400 _); simpl; eexists; reflexivity.
  - simpl. eexists. reflexivity.
Qed.

Lemma body_dot_line_is_not_escaped_witness :
  exists evs,
    snd ((emailContent <- buildEmailContent world_always_ok
                            message_with_dot_line ;;
          sendCommand world_always_ok TlsSocket (emailContent ++ CRLF ++ "."))
           [])
    = ([] ++ EvWrite TlsSocket
              ((join CRLF (header_lines (clock_utc world_always_ok [])
                             (message_id_at world_always_ok [])
                             message_with_dot_line)
                  ++ CRLF ++ CRLF ++ "Hello")
                 ++ (CRLF ++ "." ++ CRLF)
                 ++ "MAIL FROM:<other@example.com>" ++ (CRLF ++ "." ++ CRLF))
         :: evs)%list.
Proof.
  apply (body_dot_line_is_not_escaped world_always_ok TlsSocket
           message_with_dot_line [] "Hello" "MAIL FROM:<other@example.com>").
  reflexivity.
Defined.

(* ================================================================= *)
(** * STARTTLS *)

Section StartTlsShapes.

Variable w : World.
Variable config : SMTPConfig.
Variable call : Call.





End StartTlsShapes.

(* ----------------------------------------------------------------- *)
(** ** STARTTLS *)




(* ================================================================= *)
(** * The [bcc] addresses *)

Lemma optional_bcc (message : EmailMessage) :
  optional_addresses (bcc message) = bcc_addresses message.
Proof.
  unfold optional_addresses, present_addresses, bcc_addresses.
  destruct (bcc message) as [[address|addresses]|]; try reflexivity.
  destruct (String.eqb address ""); reflexivity.
Qed.

(** The lines of [send] before the content. *)
Lemma lines_before_payload (config : SMTPConfig) (message : EmailMessage) :
  lines_of (steps_before_payload config message)
  = (map wire (lines_before_bcc config message)
       ++ map (fun email => wire (rcpt_to email)) (bcc_addresses message)
       ++ [wire "DATA"])%list.
Proof.
  unfold steps_before_payload, lines_before_bcc, recipients.
  rewrite lines_of_app, lines_of_handshake. cbn [lines_of].
  rewrite lines_of_app, lines_of_rcpt, optional_bcc. cbn [lines_of].
  rewrite !map_app, !map_map, <- !app_assoc. reflexivity.
Qed.

(** The parts of a run of [send] that goes through: the lines before the
    content, the content and its reply, and QUIT. *)
Lemma Runs_send_parts (w : World) (config : SMTPConfig)
    (message : EmailMessage) (s0 s : Socket) (h : History)
    (evs : list Event) :
  Runs w s0 (send_steps config message) h evs (Returned s) ->
  exists evs1 r evs2,
    evs = (evs1 ++ EvWrite s (wire
             (join CRLF
                (header_lines (clock_utc w (h ++ evs1))
                   (message_id_at w (h ++ evs1)) message
                   ++ [""] ++ body_lines message) ++ CRLF ++ "."))
             :: EvResponse s r :: evs2)%list /\
    writes evs1 = lines_of (steps_before_payload config message) /\
    writes evs2 = [wire "QUIT"].
Proof.
  intros R. rewrite send_steps_split in R. apply Runs_app_inv in R.
  destruct R as [(e & He & _)|(s' & evs1 & evs2 & -> & R1 & R2)];
    [discriminate|].
  destruct (Runs_plain_writes w _ _ _ _ _ R1
              (steps_before_payload_plain config message)) as [_ Hw1].
  specialize (Hw1 s' eq_refl).
  inversion R2 as [| |s1 st rest h1 evsP s2 evsQ o HP HQ]; subst.
  pose proof (StepRun_returned_socket w _ _ _ _ _ HP) as X1.
  pose proof (Runs_final_socket w _ _ _ _ _ HQ) as X2.
  unfold socket_after in X2. simpl in X1, X2. subst.
  destruct (Runs_plain_writes w _ _ _ _ _ HQ eq_refl) as [_ Hw2].
  specialize (Hw2 _ eq_refl).
  inversion HP as [| | | | | |m h2 content evs' o' Hb Hc]; subst.
  rewrite buildEmailContent_lines in Hb. simpl in Hb.
  injection Hb as <-.
  inversion Hc as [c h3 r Hr Hcode| | | | | |]; subst.
  do 3 eexists. split; [reflexivity|]. split; [exact Hw1 | exact Hw2].
Qed.

Lemma same_but_bcc_content (date id : string) (m1 m2 : EmailMessage) :
  same_but_bcc m1 m2 ->
  header_lines date id m2 = header_lines date id m1 /\
  body_lines m2 = body_lines m1.
Proof.
  destruct m1, m2. unfold same_but_bcc. simpl.
  intros (-> & -> & -> & -> & -> & -> & ->). split; reflexivity.
Qed.

(* ----------------------------------------------------------------- *)
(** ** BCC *)

(** C6, as stated, fails: the header block holds the Message-ID, which
    is made from the clock and the random source when the content is
    built.  At a server that accepts everything, the message with two
    [bcc] addresses and the same message without [bcc] are both sent
    with success, and their header blocks differ, in the
    Message-ID. *)
Lemma bcc_header_blocks_differ_counterexample :
  ~ (forall a a' block block',
       answer_of world_ok config_tls (Send message_full) = Returned a ->
       succeeded a = true ->
       answer_of world_ok config_tls
         (Send (with_copies message_full (cc message_full) None))
       = Returned a' ->
       succeeded a' = true ->
       same_but_bcc message_full
         (with_copies message_full (cc message_full) None) ->
       transmits_header_block world_ok config_tls message_full block ->
       transmits_header_block world_ok config_tls
         (with_copies message_full (cc message_full) None) block' ->
       block = block').
Proof.
  intros H.
  specialize (H (SendAnswer
                   {| success := true;
                      messageId := Some "1793700000022.k3j9x2m1q@synet.email";
                      error := None |})
                (SendAnswer
                   {| success := true;
                      messageId := Some "1793700000018.k3j9x2m1q@synet.email";
                      error := None |})
                (join CRLF
                   (header_lines "Tue, 03 Nov 2026 10:00:00 GMT"
                      "1793700000017.k3j9x2m1q@synet.email" message_full))
                (join CRLF
                   (header_lines "Tue, 03 Nov 2026 10:00:00 GMT"
                      "1793700000013.k3j9x2m1q@synet.email"
                      (with_copies message_full (cc message_full) None)))).
  assert (String.eqb
            (join CRLF
               (header_lines "Tue, 03 Nov 2026 10:00:00 GMT"
                  "1793700000017.k3j9x2m1q@synet.email" message_full))
            (join CRLF
               (header_lines "Tue, 03 Nov 2026 10:00:00 GMT"
                  "1793700000013.k3j9x2m1q@synet.email"
                  (with_copies message_full (cc message_full) None)))
          = false) as Hdiff by (vm_compute; reflexivity).
  apply String.eqb_neq in Hdiff. apply Hdiff, H.
  - vm_compute. reflexivity.
  - reflexivity.
  - vm_compute. reflexivity.
  - reflexivity.
  - repeat split.
  - exists "Tue, 03 Nov 2026 10:00:00 GMT",
      "1793700000017.k3j9x2m1q@synet.email",
      (firstn 17 (trace_of world_ok config_tls (Send message_full))),
      TlsSocket,
      (skipn 18 (trace_of world_ok config_tls (Send message_full))).
    split; [reflexivity|]. vm_compute. reflexivity.
  - exists "Tue, 03 Nov 2026 10:00:00 GMT",
      "1793700000013.k3j9x2m1q@synet.email",
      (firstn 13 (trace_of world_ok config_tls
                    (Send (with_copies message_full (cc message_full) None)))),
      TlsSocket,
      (skipn 14 (trace_of world_ok config_tls
                   (Send (with_copies message_full (cc message_full) None)))).
    split; [reflexivity|]. vm_compute. reflexivity.
Qed.

(** C6, amended: in every [send] that succeeds, each address of [bcc]
    gets its own RCPT TO, after those of [to] and [cc] and before DATA;
    and the content that is transmitted is, character for character, the
    content of any message that differs from the one sent only in [bcc]
    (in particular of the message without [bcc]), with the Date and the
    Message-ID read when the content is built.  So the header blocks of
    two messages that differ only in [bcc] are the same but for the
    values of Date and Message-ID, and no line of the block comes from
    [bcc].  After the content only QUIT is written. *)
Theorem bcc_only_in_envelope (w : World) (config : SMTPConfig)
    (message : EmailMessage) (a : Answer) :
  answer_of w config (Send message) = Returned a ->
  succeeded a = true ->
  exists pre s r post,
    writes pre
    = (map wire (lines_before_bcc config message)
         ++ map (fun email => wire (rcpt_to email)) (bcc_addresses message)
         ++ [wire "DATA"])%list /\
    writes post = [wire "QUIT"] /\
    forall other,
      same_but_bcc message other ->
      trace_of w config (Send message)
      = (pre ++ EvWrite s
                  (wire (join CRLF
                           (header_lines (clock_utc w pre)
                              (message_id_at w pre) other
                              ++ [""] ++ body_lines other)
                           ++ CRLF ++ "."))
           :: EvResponse s r :: post)%list.
Proof.
  intros Ha Hs.
  destruct (call_cases w config (Send message)) as (a' & Ha' & Hcases).
  assert (a' = a) as -> by congruence.
  destruct Hcases as [(Hf & _)
                     |[(_ & _ & _ & tr & s & Etr & R)
                      |(Hf & _)]]; try congruence.
  inversion R as [| |evs o Hc Hruns Ht Ho]; subst.
  simpl steps_of in Hruns.
  destruct (Runs_send_parts w config message _ _ _ _ Hruns)
    as (evs1 & r & evs2 & -> & Hw1 & Hw2).
  exists (EvConnect (initial_socket config) Established :: evs1), s, r,
    (evs2 ++ [EvDestroy s])%list.
  split; [|split].
  - rewrite writes_skip by reflexivity.
    now rewrite Hw1, lines_before_payload.
  - rewrite writes_app, Hw2. reflexivity.
  - intros other Hsame.
    destruct (same_but_bcc_content
                (clock_utc w (EvConnect (initial_socket config) Established
                                :: evs1))
                (message_id_at w (EvConnect (initial_socket config)
                                    Established :: evs1))
                message other Hsame) as [-> ->].
    rewrite Etr. simpl. rewrite <- app_assoc. reflexivity.
Qed.

(** C6 at a message with two [bcc] addresses. *)
Lemma bcc_only_in_envelope_witness :
  exists pre s r post,
    writes pre
    = (map wire (lines_before_bcc config_tls message_full)
         ++ map (fun email => wire (rcpt_to email))
              (bcc_addresses message_full)
         ++ [wire "DATA"])%list /\
    writes post = [wire "QUIT"] /\
    forall other,
      same_but_bcc message_full other ->
      trace_of world_ok config_tls (Send message_full)
      = (pre ++ EvWrite s
                  (wire (join CRLF
                           (header_lines (clock_utc world_ok pre)
                              (message_id_at world_ok pre) other
                              ++ [""] ++ body_lines other)
                           ++ CRLF ++ "."))
           :: EvResponse s r :: post)%list.
Proof.
  apply (bcc_only_in_envelope world_ok config_tls message_full
           (SendAnswer
              {| success := true;
                 messageId := Some "1793700000022.k3j9x2m1q@synet.email";
                 error := None |})).
  - vm_compute. reflexivity.
  - reflexivity.
Defined.
